(** * Github-Commit-Analyzer: the analysis pipeline of server/index.js

    A shallow embedding of the server's pipeline (repo reference parser,
    progress channel registry, commit collector, enrichment loop, per-commit
    summarizer, area ranking) together with the properties that the
    specification states about it.

    Conventions of the embedding:
    - JS strings are [string]s; the embedding covers ASCII text, so the case
      mapping and the white space of [trim] are the ASCII ones.
    - JS numbers that the pipeline only counts and compares (sizes, caps,
      time stamps in milliseconds) are [Z].
    - a JS [Map] whose iteration order is observed is an association list in
      insertion order; the channel registry, which is only looked up by key,
      is a [gmap].
    - the hosting API and the model are collaborators: their answers are the
      fields of a record, and every call made to them is logged in a trace. *)

From Stdlib Require Import ZArith QArith List String Ascii Bool Lia Permutation Sorted.
From stdpp Require Import base option list sorting strings gmap.

Set Warnings "-register-all".

Local Open Scope string_scope.
Local Open Scope list_scope.
Local Open Scope Z_scope.

(* ===================================================================== *)
(** * Part I: the embedding                                               *)
(* ===================================================================== *)

(** ** JavaScript strings *)

Module JsString.

Definition isUpper (c : ascii) : bool :=
  let n := nat_of_ascii c in Nat.leb 65 n && Nat.leb n 90.

Definition lowerChar (c : ascii) : ascii :=
  if isUpper c then ascii_of_nat (nat_of_ascii c + 32) else c.

(** [String.prototype.toLowerCase] *)
Fixpoint toLowerCase (s : string) : string :=
  match s with
  | EmptyString => EmptyString
  | String c s' => String (lowerChar c) (toLowerCase s')
  end.

Fixpoint startsWith (s search : string) : bool :=
  match search, s with
  | EmptyString, _ => true
  | String a search', String b s' => Ascii.eqb a b && startsWith s' search'
  | String _ _, EmptyString => false
  end.

(** [String.prototype.includes] *)
Fixpoint includes (s search : string) : bool :=
  startsWith s search ||
  match s with
  | EmptyString => false
  | String _ s' => includes s' search
  end.

(** White space removed by [trim]: TAB, LF, VT, FF, CR and SPACE. *)
Definition isSpace (c : ascii) : bool :=
  let n := nat_of_ascii c in (Nat.leb 9 n && Nat.leb n 13) || Nat.eqb n 32.

Fixpoint trimStart (s : string) : string :=
  match s with
  | EmptyString => EmptyString
  | String c s' => if isSpace c then trimStart s' else s
  end.

Fixpoint trimEnd (s : string) : string :=
  match s with
  | EmptyString => EmptyString
  | String c s' =>
      match trimEnd s' with
      | EmptyString => if isSpace c then EmptyString else String c EmptyString
      | t => String c t
      end
  end.

(** [String.prototype.trim] *)
Definition trim (s : string) : string := trimEnd (trimStart s).

End JsString.

(** ** Model invocation *)

Module OpenAI.

(** The options object handed to [openai.responses.create]; a field that the
    code does not set is [None]. *)
Record RequestOpts := {
  model : string;
  input : string;
  temperature : option Q
}.

(** [process.env.OPENAI_MODEL || 'gpt-4o-mini']: the variable may be unset,
    and an empty string is falsy. *)
Definition OPENAI_MODEL (env_model : option string) : string :=
  match env_model with
  | Some (String c s) => String c s
  | _ => "gpt-4o-mini"
  end.

(** [(OPENAI_MODEL || '').toLowerCase().includes('gpt-5')] *)
Definition IS_GPT5 (openai_model : string) : bool :=
  JsString.includes (JsString.toLowerCase openai_model) "gpt-5".

(** The options built by [createOpenAIResponse(input)]. *)
Definition createOpenAIResponse_opts (openai_model : string) (inp : string) : RequestOpts :=
  let opts := {| model := openai_model; input := inp; temperature := None |} in
  if negb (IS_GPT5 openai_model)
  then {| model := model opts; input := input opts; temperature := Some (2 # 10)%Q |}
  else opts.

End OpenAI.

(** ** JSON values and [JSON.parse] *)

Module Json.

(** A parsed JSON value. Numbers keep their source spelling; the members of
    an object are kept in textual order (a later duplicate key shadows an
    earlier one on lookup). *)
Inductive Json :=
| JNull
| JBool (b : bool)
| JNum (lexeme : string)
| JStr (s : string)
| JArr (items : list Json)
| JObj (members : list (string * Json)).

Definition dquote : ascii := "034"%char.
Definition backslash : ascii := "092"%char.

(** JSON white space: SPACE, TAB, LF, CR. *)
Definition isWs (c : ascii) : bool :=
  let n := nat_of_ascii c in
  Nat.eqb n 32 || Nat.eqb n 9 || Nat.eqb n 10 || Nat.eqb n 13.

Fixpoint skipWs (s : string) : string :=
  match s with
  | String c s' => if isWs c then skipWs s' else s
  | EmptyString => EmptyString
  end.

Fixpoint stripPrefix (p s : string) : option string :=
  match p, s with
  | EmptyString, _ => Some s
  | String a p', String b s' => if Ascii.eqb a b then stripPrefix p' s' else None
  | String _ _, EmptyString => None
  end.

Definition isDigit (c : ascii) : bool :=
  let n := nat_of_ascii c in Nat.leb 48 n && Nat.leb n 57.

Definition hexValue (c : ascii) : option nat :=
  let n := nat_of_ascii c in
  if Nat.leb 48 n && Nat.leb n 57 then Some (n - 48)%nat
  else if Nat.leb 65 n && Nat.leb n 70 then Some (n - 55)%nat
  else if Nat.leb 97 n && Nat.leb n 102 then Some (n - 87)%nat
  else None.

(** The longest prefix of digits, and what follows it. *)
Fixpoint spanDigits (s : string) : string * string :=
  match s with
  | String c s' =>
      if isDigit c then let '(d, r) := spanDigits s' in (String c d, r)
      else (EmptyString, s)
  | EmptyString => (EmptyString, EmptyString)
  end.

(** A JSON number: an optional minus sign, then 0 or a digit string without
    leading zero, then an optional fraction (a dot and digits) and an optional
    exponent (e or E, an optional sign, digits). *)
Definition parseInt (s : string) : option (string * string) :=
  match s with
  | String "0" r => Some ("0", r)
  | String c r =>
      if isDigit c then let '(d, r') := spanDigits r in Some (String c d, r')
      else None
  | EmptyString => None
  end.

Definition parseFrac (s : string) : option (string * string) :=
  match s with
  | String "." r =>
      match spanDigits r with
      | (EmptyString, _) => None
      | (d, r') => Some (String "." d, r')
      end
  | _ => Some (EmptyString, s)
  end.

Definition parseExp (s : string) : option (string * string) :=
  match s with
  | String c r =>
      if Ascii.eqb c "e" || Ascii.eqb c "E" then
        let '(sign, r1) :=
          match r with
          | String "+" r' => ("+", r')
          | String "-" r' => ("-", r')
          | _ => (EmptyString, r)
          end in
        match spanDigits r1 with
        | (EmptyString, _) => None
        | (d, r2) => Some (String c (sign +:+ d), r2)
        end
      else Some (EmptyString, s)
  | EmptyString => Some (EmptyString, s)
  end.

Definition parseNumber (s : string) : option (string * string) :=
  let '(sign, s0) :=
    match s with
    | String "-" r => ("-", r)
    | _ => (EmptyString, s)
    end in
  '(i, s1) ← parseInt s0;
  '(f, s2) ← parseFrac s1;
  '(e, s3) ← parseExp s2;
  Some (sign +:+ i +:+ f +:+ e, s3).

(** The characters of a string literal after its opening quote, up to the
    closing quote. Two-character escapes are decoded; a [\uXXXX] escape is
    decoded when its code unit fits the 8-bit strings of the embedding and
    kept in its escaped spelling otherwise. Control characters are refused. *)
Fixpoint parseString (s : string) : option (string * string) :=
  match s with
  | EmptyString => None
  | String c r =>
      if Ascii.eqb c dquote then Some (EmptyString, r)
      else if Ascii.eqb c backslash then
        match r with
        | String e r1 =>
            let simple (d : ascii) :=
              '(t, r2) ← parseString r1; Some (String d t, r2) in
            if Ascii.eqb e dquote then simple dquote
            else if Ascii.eqb e backslash then simple backslash
            else if Ascii.eqb e "/" then simple "/"%char
            else if Ascii.eqb e "b" then simple "008"%char
            else if Ascii.eqb e "f" then simple "012"%char
            else if Ascii.eqb e "n" then simple "010"%char
            else if Ascii.eqb e "r" then simple "013"%char
            else if Ascii.eqb e "t" then simple "009"%char
            else if Ascii.eqb e "u" then
              match r1 with
              | String h1 (String h2 (String h3 (String h4 r2))) =>
                  a ← hexValue h1; b ← hexValue h2; c' ← hexValue h3; d ← hexValue h4;
                  '(t, r3) ← parseString r2;
                  let code := (((a * 16 + b) * 16 + c') * 16 + d)%nat in
                  if Nat.ltb code 256 then Some (String (ascii_of_nat code) t, r3)
                  else Some (String backslash (String "u" (String h1 (String h2
                               (String h3 (String h4 t))))), r3)
              | _ => None
              end
            else None
        | EmptyString => None
        end
      else if Nat.ltb (nat_of_ascii c) 32 then None
      else '(t, r') ← parseString r; Some (String c t, r')
  end.

(** Recursive descent; every call consumes a character, so the length of the
    text bounds the recursion. [stripPrefix] with a one-character prefix
    tests the next character. *)
Fixpoint parseValue (fuel : nat) (s : string) : option (Json * string) :=
  match fuel with
  | O => None
  | S fuel' =>
      match skipWs s with
      | EmptyString => None
      | String c r =>
          if Ascii.eqb c "n" then r' ← stripPrefix "ull" r; Some (JNull, r')
          else if Ascii.eqb c "t" then r' ← stripPrefix "rue" r; Some (JBool true, r')
          else if Ascii.eqb c "f" then r' ← stripPrefix "alse" r; Some (JBool false, r')
          else if Ascii.eqb c dquote then '(t, r') ← parseString r; Some (JStr t, r')
          else if Ascii.eqb c "[" then
            match stripPrefix "]" (skipWs r) with
            | Some r' => Some (JArr [], r')
            | None => '(vs, r') ← parseElements fuel' r; Some (JArr vs, r')
            end
          else if Ascii.eqb c "{" then
            match stripPrefix "}" (skipWs r) with
            | Some r' => Some (JObj [], r')
            | None => '(ms, r') ← parseMembers fuel' r; Some (JObj ms, r')
            end
          else '(n, r') ← parseNumber (String c r); Some (JNum n, r')
      end
  end
with parseElements (fuel : nat) (s : string) : option (list Json * string) :=
  match fuel with
  | O => None
  | S fuel' =>
      '(v, r) ← parseValue fuel' s;
      match stripPrefix "," (skipWs r) with
      | Some r' => '(vs, r'') ← parseElements fuel' r'; Some (v :: vs, r'')
      | None =>
          match stripPrefix "]" (skipWs r) with
          | Some r' => Some ([v], r')
          | None => None
          end
      end
  end
with parseMembers (fuel : nat) (s : string) : option (list (string * Json) * string) :=
  match fuel with
  | O => None
  | S fuel' =>
      match stripPrefix (String dquote EmptyString) (skipWs s) with
      | Some r =>
          '(k, r1) ← parseString r;
          match stripPrefix ":" (skipWs r1) with
          | Some r2 =>
              '(v, r3) ← parseValue fuel' r2;
              match stripPrefix "," (skipWs r3) with
              | Some r4 =>
                  '(ms, r5) ← parseMembers fuel' r4; Some ((k, v) :: ms, r5)
              | None =>
                  match stripPrefix "}" (skipWs r3) with
                  | Some r4 => Some ([(k, v)], r4)
                  | None => None
                  end
              end
          | None => None
          end
      | None => None
      end
  end.

(** [JSON.parse(text)]: [None] stands for the [SyntaxError] it throws. The
    fuel is enough for every text (lemma [JSON_parse_fuel_enough]). *)
Definition JSON_parse (text : string) : option Json :=
  '(v, r) ← parseValue (S (String.length text)) text;
  match skipWs r with
  | EmptyString => Some v
  | String _ _ => None
  end.

(** Property read [o[k]] on a parsed value; [None] is [undefined]. *)
Fixpoint assocLast (k : string) (ms : list (string * Json)) : option Json :=
  match ms with
  | [] => None
  | (k', v) :: ms' =>
      match assocLast k ms' with
      | Some w => Some w
      | None => if String.eqb k k' then Some v else None
      end
  end.

Definition getProp (o : Json) (k : string) : option Json :=
  match o with
  | JObj ms => assocLast k ms
  | _ => None
  end.

End Json.

(** ** Conversions of parsed values *)

Module JsValue.

Import Json.

Fixpoint digitsValue (acc : Z) (digits : string) : Z :=
  match digits with
  | String c r => digitsValue (10 * acc + Z.of_nat (nat_of_ascii c - 48)) r
  | EmptyString => acc
  end.

(** A number lexeme as a pair [(m, k)]: apart from its sign, its value is
    [m / 10 ^ k] ([m * 10 ^ (- k)] for a negative [k]). *)
Definition decimalOf (lexeme : string) : Z * Z :=
  let unsigned :=
    match lexeme with
    | String "-" r => r
    | _ => lexeme
    end in
  let '(i, r1) := spanDigits unsigned in
  let '(f, r2) :=
    match r1 with
    | String "." r => spanDigits r
    | _ => (EmptyString, r1)
    end in
  let e :=
    match r2 with
    | String _ (String "-" d) => - digitsValue 0 d
    | String _ (String "+" d) => digitsValue 0 d
    | String _ d => digitsValue 0 d
    | EmptyString => 0
    end in
  (digitsValue 0 (i +:+ f), Z.of_nat (String.length f) - e).

(** The Number that the lexeme denotes is zero: its digits are zeros, or
    its value is so small that it rounds to zero (at most half of the least
    positive double, [2 ^ -1074]). *)
Definition isZero (lexeme : string) : bool :=
  let '(m, k) := decimalOf lexeme in
  (m =? 0) || ((0 <? k) && (m * 2 ^ 1075 <=? 10 ^ k)).

(** [ToBoolean] of a property read; [None] is [undefined]. *)
Definition toBoolean (v : option Json) : bool :=
  match v with
  | None => false
  | Some JNull => false
  | Some (JBool b) => b
  | Some (JNum lexeme) => negb (isZero lexeme)
  | Some (JStr s) => negb (String.eqb s EmptyString)
  | Some (JArr _) => true
  | Some (JObj _) => true
  end.

(** Whether the conversion of a parsed value to a string or to a property
    key throws a [TypeError]. An object converts through its [toString]:
    the inherited one answers, but an own property of this name hides it
    and, coming from JSON, is not callable, after which [valueOf] (own and
    not callable, or inherited and answering with the object itself) gives
    no primitive value either. An array joins the conversions of its
    elements. *)
Fixpoint toStringThrows (v : Json) : bool :=
  match v with
  | JObj members =>
      match assocLast "toString" members with
      | Some _ => true
      | None => false
      end
  | JArr items => existsb toStringThrows items
  | _ => false
  end.

(** The same for a property read used as a key; [undefined] converts. *)
Definition keyThrows (v : option Json) : bool :=
  match v with
  | Some x => toStringThrows x
  | None => false
  end.

End JsValue.

(** ** JavaScript arrays and Maps *)

Module JsArray.

Section Array.
Context {A : Type}.

(** [Array.prototype.slice(start, end)] with integer arguments: a negative
    index counts from the end, and both are clamped to the array. *)
Definition relativeIndex (len i : Z) : Z :=
  if i <? 0 then Z.max (len + i) 0 else Z.min i len.

Definition slice (l : list A) (start end_ : Z) : list A :=
  let len := Z.of_nat (length l) in
  let k := relativeIndex len start in
  let final := relativeIndex len end_ in
  firstn (Z.to_nat (final - k)) (skipn (Z.to_nat k) l).

(** [Array.prototype.sort(compareFn)]. The sort is stable, and for a
    consistent comparator its result does not depend on the algorithm; it is
    written here as an insertion sort. [compareFn a b] is negative when [a]
    goes first and positive when [b] goes first. *)
Fixpoint sortInsert (compareFn : A -> A -> Z) (x : A) (l : list A) : list A :=
  match l with
  | [] => [x]
  | y :: l' =>
      if compareFn x y <=? 0 then x :: y :: l'
      else y :: sortInsert compareFn x l'
  end.

Fixpoint sort (compareFn : A -> A -> Z) (l : list A) : list A :=
  match l with
  | [] => []
  | x :: l' => sortInsert compareFn x (sort compareFn l')
  end.

End Array.

End JsArray.

Module JsMap.

(** A [Map] as the list of its entries in insertion order. *)
Section Map.
Context {K V : Type} `{EqDecision K}.

Fixpoint get (m : list (K * V)) (k : K) : option V :=
  match m with
  | [] => None
  | (k', v) :: m' => if decide (k = k') then Some v else get m' k
  end.

Definition has (m : list (K * V)) (k : K) : bool :=
  match get m k with Some _ => true | None => false end.

(** [set] on a present key replaces the value where the entry stands; a new
    key goes to the end. *)
Fixpoint set (m : list (K * V)) (k : K) (v : V) : list (K * V) :=
  match m with
  | [] => [(k, v)]
  | (k', v') :: m' =>
      if decide (k = k') then (k, v) :: m' else (k', v') :: set m' k v
  end.

Definition size (m : list (K * V)) : Z := Z.of_nat (length m).

Definition keys (m : list (K * V)) : list K := map fst m.

Definition values (m : list (K * V)) : list V := map snd m.

End Map.

End JsMap.

(** ** The hosting API's data *)

Module GitHub.

(** An element of the [listCommits] answer. Date strings are represented by
    the time value [new Date(s)] gives them (milliseconds since the epoch);
    a date or name that is absent or empty is [None]. [parents] is [None]
    when the field is not an array. *)
Record Commit := {
  sha : string;
  parents : option (list string);
  author_name : option string;
  author_date : option Z;
  committer_name : option string;
  committer_date : option Z;
  message : string
}.

(** A file of the [getCommit] answer; numbers and patch may be missing. *)
Record RawFile := {
  raw_filename : string;
  raw_status : string;
  raw_additions : option Z;
  raw_deletions : option Z;
  raw_changes : option Z;
  raw_patch : option string
}.

Record Stats := {
  stats_additions : option Z;
  stats_deletions : option Z
}.

Record CommitDetail := {
  detail_files : option (list RawFile);
  detail_stats : option Stats
}.

End GitHub.

Import GitHub.

(** ** Collaborators and the trace of calls *)

Record FileChange := {
  filename : string;
  status : string;
  additions : Z;
  deletions : Z;
  changes : Z;
  patch : string
}.

(** What the process is configured with and what the collaborators answer
    during one run. The commit listing is the one for the run's repository
    and time window; [responses_create] gives the [output_text] of the
    model's response, [None] when it has none. [buildCommitPrompt] is the
    prompt text, on which no property below depends. Every call is
    answered: a collaborator that fails is not modelled. *)
Record Env := {
  env_OPENAI_MODEL : option string;
  listBranches : list string;
  listCommits : string -> list Commit;
  getCommit : string -> CommitDetail;
  responses_create : OpenAI.RequestOpts -> option string;
  buildCommitPrompt : string -> Commit -> list FileChange -> string
}.

Inductive Call :=
| CallListBranches
| CallListCommits (sha_param : string)
| CallGetCommit (ref : string)
| CallResponsesCreate (opts : OpenAI.RequestOpts).

(** Computations that log their calls, oldest first. *)
Definition M (A : Type) : Type := list Call -> A * list Call.

Definition ret {A : Type} (a : A) : M A := fun tr => (a, tr).

Definition bind {A B : Type} (m : M A) (k : A -> M B) : M B :=
  fun tr => let '(a, tr') := m tr in k a tr'.

Definition call {A : Type} (c : Call) (answer : A) : M A :=
  fun tr => (answer, tr ++ [c]).

Definition run {A : Type} (m : M A) : A * list Call := m [].

Declare Scope trace_scope.
Delimit Scope trace_scope with trace.
Notation "x <-- m ;; k" := (bind m (fun x => k))
  (at level 100, m at next level, right associativity) : trace_scope.
Local Open Scope trace_scope.

(** ** Per-commit summarizer and period rollup *)

Module Summarizer.

Import Json.

(** [createOpenAIResponse(input)]: build the options, call the model. *)
Definition createOpenAIResponse (env : Env) (inp : string) : M (option string) :=
  let opts :=
    OpenAI.createOpenAIResponse_opts (OpenAI.OPENAI_MODEL (env_OPENAI_MODEL env)) inp in
  call (CallResponsesCreate opts) (responses_create env opts).

(** [files.slice(0,3).map(f => f.filename)] *)
Definition notableFiles (files : list FileChange) : list Json :=
  map (fun f => JStr (filename f)) (JsArray.slice files 0 3).

(** The object of the [catch] branch of [summarizeCommit]. *)
Definition fallbackSummary (files : list FileChange) : Json :=
  JObj [ ("summary", JStr "Could not parse summary (model returned non-JSON).");
         ("change_type", JStr "other");
         ("areas", JArr []);
         ("risk", JStr "low");
         ("test_impact", JStr "N/A");
         ("notable_files", JArr (notableFiles files)) ].

(** [resp.output_text?.trim() || ''] *)
Definition responseText (output_text : option string) : string :=
  match output_text with
  | Some t => JsString.trim t
  | None => EmptyString
  end.

(** The [try]/[catch] of [summarizeCommit]: the parsed value when
    [JSON.parse] returns, the fallback when it throws. *)
Definition parseOrFallback (output_text : option string) (files : list FileChange) : Json :=
  match JSON_parse (responseText output_text) with
  | Some v => v
  | None => fallbackSummary files
  end.

Definition summarizeCommit (env : Env) (repoFull : string) (commit : Commit)
    (files : list FileChange) : M Json :=
  let prompt := buildCommitPrompt env repoFull commit files in
  output_text <-- createOpenAIResponse env prompt ;;
  ret (parseOrFallback output_text files).

Definition noContent : string :=
  "# Period Summary" +:+ String "010"%char "(No content)".

(** The rollup call of the orchestrator on the period prompt:
    [periodResp.output_text?.trim() || '# Period Summary\n(No content)']. *)
Definition periodSummary (env : Env) (periodPrompt : string) : M string :=
  output_text <-- createOpenAIResponse env periodPrompt ;;
  ret (match responseText output_text with
       | EmptyString => noContent
       | t => t
       end).

End Summarizer.

(** ** Commit collector and enrichment loop of [/api/analyze]

    The handler's [progress(...)] lines only write to the progress registry
    and take no part in what is collected or fetched; they are left out
    here, and the registry is modelled on its own in [Progress]. *)

Module Analyze.

Import Json.

Definition DEFAULT_BRANCH : string := "main".
Definition ANY_BRANCH : string := "__ANY__".

(** The fields of the request body that steer collection; [branch] is [None]
    when the field is absent. *)
Record Request := {
  repoFull : string;
  branch : option string;
  includeMerges : bool;
  maxCommits : Z
}.

(** [Array.isArray(commit.parents) && commit.parents.length > 1] *)
Definition isMergeCommit (c : Commit) : bool :=
  match parents c with
  | Some ps => 1 <? Z.of_nat (length ps)
  | None => false
  end.

(** The inner [for (const c of list)] of the ANY branch; [continue] goes on
    with the rest of the list, [break] returns the map. *)
Fixpoint commitLoop (includeMerges : bool) (maxCommits : Z)
    (lst : list Commit) (seen : list (string * Commit)) : list (string * Commit) :=
  match lst with
  | [] => seen
  | c :: rest =>
      if negb includeMerges && isMergeCommit c then
        commitLoop includeMerges maxCommits rest seen
      else if negb (JsMap.has seen (sha c)) then
        let seen' := JsMap.set seen (sha c) c in
        if JsMap.size seen' >=? maxCommits then seen'
        else commitLoop includeMerges maxCommits rest seen'
      else commitLoop includeMerges maxCommits rest seen
  end.

(** The outer [for (const bname of names)]. *)
Fixpoint branchLoop (env : Env) (includeMerges : bool) (maxCommits : Z)
    (names : list string) (seen : list (string * Commit)) : M (list (string * Commit)) :=
  match names with
  | [] => ret seen
  | bname :: rest =>
      lst <-- call (CallListCommits bname) (listCommits env bname) ;;
      let seen' := commitLoop includeMerges maxCommits lst seen in
      if JsMap.size seen' >=? maxCommits then ret seen'
      else branchLoop env includeMerges maxCommits rest seen'
  end.

(** [new Date(c.commit.author?.date || c.commit.committer?.date || 0)] as a
    time value. *)
Definition sortDate (c : Commit) : Z :=
  match author_date c with
  | Some t => t
  | None =>
      match committer_date c with
      | Some t => t
      | None => 0
      end
  end.

(** The comparator of [commits.sort]. *)
Definition byDateDesc (a b : Commit) : Z := sortDate b - sortDate a.

Definition collectAny (env : Env) (req : Request) : M (list Commit) :=
  names <-- call CallListBranches (listBranches env) ;;
  seen <-- branchLoop env (includeMerges req) (maxCommits req) names [] ;;
  let commits := JsMap.values seen in
  ret (JsArray.sort byDateDesc commits).

(** [branch || DEFAULT_BRANCH]: an absent or empty branch is falsy. *)
Definition shaParam (req : Request) : string :=
  match branch req with
  | Some (String c s) => String c s
  | _ => DEFAULT_BRANCH
  end.

Definition collectSingle (env : Env) (req : Request) : M (list Commit) :=
  listed <-- call (CallListCommits (shaParam req)) (listCommits env (shaParam req)) ;;
  let kept :=
    if includeMerges req then listed
    else filter (fun c => negb (isMergeCommit c)) listed in
  ret (JsArray.slice kept 0 (Z.min (maxCommits req) (Z.of_nat (length listed)))).

(** "Collect commits": [branch === ANY_BRANCH] selects the path. *)
Definition collect (env : Env) (req : Request) : M (list Commit) :=
  match branch req with
  | Some b => if String.eqb b ANY_BRANCH then collectAny env req else collectSingle env req
  | None => collectSingle env req
  end.

Record EnrichedCommit := {
  e_sha : string;
  e_date : option Z;
  e_author : string;
  e_message : string;
  e_files : list FileChange;
  e_stats : Z * Z;
  e_ai : Json
}.

(** The running totals and results of the enrichment loop. The counters
    keyed by fields of [ai] ([typeCounts], [riskCounts], [areaCounts]) are
    not carried here, only whether counting throws ([countSummary]); the
    area counter is in [Aggregator] below. *)
Record Enriched := {
  results : list EnrichedCommit;
  aggFiles : Z;
  aggAdd : Z;
  aggDel : Z
}.

Definition shapeFile (f : RawFile) : FileChange :=
  {| filename := raw_filename f;
     status := raw_status f;
     additions := default 0 (raw_additions f);
     deletions := default 0 (raw_deletions f);
     changes := default 0 (raw_changes f);
     patch := default EmptyString (raw_patch f) |}.

Definition orElse {A : Type} (a b : option A) : option A :=
  match a with
  | Some x => Some x
  | None => b
  end.

(** What the counting of a summary can throw; the message of the
    [TypeError] is the engine's. *)
Inductive TypeError :=
| NullSummary
| KeyConversion
| AreasNotArray.

(** The three counting statements on the summary [ai], as far as they can
    throw; [None] when they do not.
    - [typeCounts[ai.change_type] = ...]: reading a property of [null]
      throws; a primitive or an array has no such property and reads
      [undefined]; the key is converted to a string.
    - [riskCounts[ai.risk] = ...]: the same for the key.
    - [(ai.areas || []).forEach(...)]: a falsy [areas] gives way to the
      empty array; a truthy one that is not an array has no callable
      [forEach]. The callback only writes to the Map. *)
Definition countSummary (ai : Json) : option TypeError :=
  match ai with
  | JNull => Some NullSummary
  | _ =>
      if JsValue.keyThrows (getProp ai "change_type") then Some KeyConversion
      else if JsValue.keyThrows (getProp ai "risk") then Some KeyConversion
      else
        match getProp ai "areas" with
        | Some (JArr _) => None
        | areas => if JsValue.toBoolean areas then Some AreasNotArray else None
        end
  end.

(** The loop [for (let i = 0; i < commits.length; i++)]. An exception
    leaves the loop for the [catch] of the handler: [inr] carries it, and
    the totals and results so far are dropped. The totals are added to
    before the summary is made, the entry is pushed after the counting. *)
Fixpoint enrichLoop (env : Env) (repo : string) (commits : list Commit)
    (acc : Enriched) : M (Enriched + TypeError) :=
  match commits with
  | [] => ret (inl acc)
  | c :: rest =>
      detail <-- call (CallGetCommit (sha c)) (getCommit env (sha c)) ;;
      let files := map shapeFile (default [] (detail_files detail)) in
      let add := default 0 (detail_stats detail ≫= stats_additions) in
      let del := default 0 (detail_stats detail ≫= stats_deletions) in
      ai <-- Summarizer.summarizeCommit env repo c files ;;
      match countSummary ai with
      | Some err => ret (inr err)
      | None =>
          let r :=
            {| e_sha := sha c;
               e_date := orElse (author_date c) (committer_date c);
               e_author := default "unknown" (orElse (author_name c) (committer_name c));
               e_message := message c;
               e_files := files;
               e_stats := (add, del);
               e_ai := ai |} in
          enrichLoop env repo rest
            {| results := results acc ++ [r];
               aggFiles := aggFiles acc + Z.of_nat (length files);
               aggAdd := aggAdd acc + add;
               aggDel := aggDel acc + del |}
      end
  end.

(** Collection followed by enrichment: the collected commits, and the
    totals and results of a loop that completes or the exception that ends
    it. *)
Definition collectAndEnrich (env : Env) (req : Request)
    : M (list Commit * (Enriched + TypeError)) :=
  commits <-- collect env req ;;
  outcome <-- enrichLoop env (repoFull req) commits
    {| results := []; aggFiles := 0; aggAdd := 0; aggDel := 0 |} ;;
  ret (commits, outcome).

End Analyze.

(** ** Area ranking of the aggregate *)

Module Aggregator.

(** [areaCounts.set(a, (areaCounts.get(a) || 0) + 1)] *)
Definition countArea (areaCounts : list (string * Z)) (a : string) : list (string * Z) :=
  JsMap.set areaCounts a (default 0 (JsMap.get areaCounts a) + 1).

(** [(ai.areas || []).forEach(...)] for one commit's tags. *)
Definition countAreas (areaCounts : list (string * Z)) (areas : list string) : list (string * Z) :=
  fold_left countArea areas areaCounts.

(** The counter after the enrichment loop, from the tags of each commit in
    order. *)
Definition areaCountsOf (commitAreas : list (list string)) : list (string * Z) :=
  fold_left countAreas commitAreas [].

(** [[...areaCounts.entries()].sort((a,b)=>b[1]-a[1]).map(([k]) => k)] *)
Definition sortedAreas (areaCounts : list (string * Z)) : list string :=
  map fst (JsArray.sort (fun a b => snd b - snd a) areaCounts).

(** [aggregate.topAreas]: [sortedAreas.slice(0, 10)] *)
Definition topAreas (commitAreas : list (list string)) : list string :=
  JsArray.slice (sortedAreas (areaCountsOf commitAreas)) 0 10.

End Aggregator.

(** ** Progress channel registry (server-sent events) *)

Module Progress.

(** What the handlers write to a response stream. *)
Inductive SseEvent :=
| Data (ts : Z) (msg : string)
| Ready (ts : Z)
| Done (ts : Z).

(** A channel [{ res?, buffer }]; a response object is known by a number,
    and [res] is [None] when the field is unset or [null]. *)
Record Channel := {
  res : option nat;
  buffer : list string
}.

(** The [channels] map and, for every response object, what has been
    written to it, oldest first. *)
Record Registry := {
  channels : gmap string Channel;
  written : gmap nat (list SseEvent)
}.

Definition emptyRegistry : Registry := {| channels := ∅; written := ∅ |}.

Definition write (r : nat) (evs : list SseEvent) (w : gmap nat (list SseEvent))
    : gmap nat (list SseEvent) :=
  <[r := default [] (w !! r) ++ evs]> w.

(** [channels.get(id) || { buffer: [] }] *)
Definition channelOf (st : Registry) (id : string) : Channel :=
  default {| res := None; buffer := [] |} (channels st !! id).

(** [progressSend(id, text)] at clock reading [now]; the empty id is falsy. *)
Definition progressSend (id text : string) (now : Z) (st : Registry) : Registry :=
  match id with
  | EmptyString => st
  | _ =>
      let ch := channelOf st id in
      match res ch with
      | Some r =>
          {| channels := <[id := ch]> (channels st);
             written := write r [Data now text] (written st) |}
      | None =>
          let pushed := buffer ch ++ [text] in
          let buffer' :=
            if 2000 <? Z.of_nat (length pushed) then tail pushed else pushed in
          {| channels := <[id := {| res := res ch; buffer := buffer' |}]> (channels st);
             written := written st |}
      end
  end.

(** [progressDone(id)] *)
Definition progressDone (id : string) (now : Z) (st : Registry) : Registry :=
  let w :=
    match channels st !! id ≫= res with
    | Some r => write r [Done now] (written st)
    | None => written st
    end in
  {| channels := delete id (channels st); written := w |}.

(** The handler of [GET /api/progress/:id] for the response object [r]:
    attach, replay the buffer, then the ready marker. The keep-alive timer
    writes only comments and is left out. *)
Definition subscribe (id : string) (r : nat) (now : Z) (st : Registry) : Registry :=
  let ch := channelOf st id in
  {| channels := <[id := {| res := Some r; buffer := buffer ch |}]> (channels st);
     written := write r (map (Data now) (buffer ch) ++ [Ready now]) (written st) |}.

(** The [close] listener of the request behind response [r]. *)
Definition close (id : string) (r : nat) (st : Registry) : Registry :=
  match channels st !! id with
  | Some ch =>
      if decide (res ch = Some r)
      then {| channels := <[id := {| res := None; buffer := buffer ch |}]> (channels st);
              written := written st |}
      else st
  | None => st
  end.

(** What a response object has received so far. *)
Definition received (st : Registry) (r : nat) : list SseEvent :=
  default [] (written st !! r).

(** The messages of the data events among what was received. *)
Definition messages (evs : list SseEvent) : list string :=
  omap (fun e => match e with Data _ m => Some m | _ => None end) evs.

End Progress.

(** ** Repo reference parser *)

Module Regex.

(** The fragment of regular expressions that [parseRepo] uses. *)
Inductive Regex :=
| Lit (c : ascii)
| PlusNot (excluded : list ascii)
| Group (n : nat) (r : Regex)
| Opt (r : Regex)
| Seq (r1 r2 : Regex)
| Bol
| Eol.

(** The result of a match: the text of group 0 (the whole match) and of the
    numbered groups. *)
Definition Captures := gmap nat string.

Definition inClass (excluded : list ascii) (c : ascii) : bool :=
  negb (existsb (Ascii.eqb c) excluded).

Definition litMatches (ignoreCase : bool) (lit c : ascii) : bool :=
  if ignoreCase then Ascii.eqb (JsString.lowerChar lit) (JsString.lowerChar c)
  else Ascii.eqb lit c.

Section Matcher.
Context {R : Type}.

(** Greedy repetition of a character class: take as many characters as
    possible, give back one at a time when the continuation fails. *)
Fixpoint star (p : ascii -> bool) (pos : nat) (s : string)
    (k : nat -> string -> option R) : option R :=
  match s with
  | String c s' =>
      if p c then
        match star p (S pos) s' k with
        | Some r => Some r
        | None => k pos s
        end
      else k pos s
  | EmptyString => k pos s
  end.

Definition plus (p : ascii -> bool) (pos : nat) (s : string)
    (k : nat -> string -> option R) : option R :=
  match s with
  | String c s' => if p c then star p (S pos) s' k else None
  | EmptyString => None
  end.

(** Backtracking matcher in continuation-passing style: [matchRe r pos s caps k]
    matches [r] at the front of [s], the input from offset [pos] on, and
    hands the rest to [k]. *)
Fixpoint matchRe (ignoreCase : bool) (r : Regex) (pos : nat) (s : string)
    (caps : Captures) (k : nat -> string -> Captures -> option R) : option R :=
  match r with
  | Lit l =>
      match s with
      | String c s' => if litMatches ignoreCase l c then k (S pos) s' caps else None
      | EmptyString => None
      end
  | PlusNot excluded => plus (inClass excluded) pos s (fun pos' s' => k pos' s' caps)
  | Group n r' =>
      matchRe ignoreCase r' pos s caps (fun pos' s' caps' =>
        k pos' s' (<[n := String.substring 0 (pos' - pos) s]> caps'))
  | Opt r' =>
      match matchRe ignoreCase r' pos s caps k with
      | Some x => Some x
      | None => k pos s caps
      end
  | Seq r1 r2 =>
      matchRe ignoreCase r1 pos s caps (fun pos' s' caps' =>
        matchRe ignoreCase r2 pos' s' caps' k)
  | Bol => if Nat.eqb pos 0 then k pos s caps else None
  | Eol => match s with EmptyString => k pos s caps | String _ _ => None end
  end.

End Matcher.

(** The leftmost match, trying every start offset in turn. *)
Fixpoint searchFrom (ignoreCase : bool) (r : Regex) (pos : nat) (s : string)
    : option Captures :=
  match matchRe ignoreCase (Group 0 r) pos s ∅ (fun _ _ caps => Some caps) with
  | Some caps => Some caps
  | None =>
      match s with
      | String _ s' => searchFrom ignoreCase r (S pos) s'
      | EmptyString => None
      end
  end.

(** [str.match(regex)] for a regex without the [g] flag. *)
Definition match_ (s : string) (ignoreCase : bool) (r : Regex) : option Captures :=
  searchFrom ignoreCase r 0 s.

Fixpoint lits (s : string) : Regex -> Regex :=
  match s with
  | EmptyString => fun r => r
  | String c s' => fun r => Seq (Lit c) (lits s' r)
  end.

End Regex.

Module RepoRef.

Import Regex.

Record Repo := { owner : string; repo : string }.

(** [/github\.com\/([^/]+)\/([^/.]+)(?:\.git)?/i] *)
Definition urlPattern : Regex :=
  lits "github.com/"
    (Seq (Group 1 (PlusNot ["/"%char]))
      (Seq (Lit "/")
        (Seq (Group 2 (PlusNot ["/"%char; "."%char]))
             (Opt (Seq (Lit ".") (Seq (Lit "g") (Seq (Lit "i") (Lit "t")))))))).

(** [/^([^/]+)\/([^/]+)$/] *)
Definition simplePattern : Regex :=
  Seq Bol
    (Seq (Group 1 (PlusNot ["/"%char]))
      (Seq (Lit "/")
        (Seq (Group 2 (PlusNot ["/"%char])) Eol))).

Definition group (caps : Captures) (n : nat) : string :=
  default EmptyString (caps !! n).

Definition invalidRepoFormat : string :=
  "Invalid repo format. Use " +:+ String Json.dquote "owner/repo" +:+
  String Json.dquote " or a GitHub URL.".

(** [parseRepo(input)]: [inr] carries the message of the thrown [Error]. *)
Definition parseRepo (input : string) : Repo + string :=
  let urlish := JsString.trim input in
  match match_ urlish true urlPattern with
  | Some matchUrl => inl {| owner := group matchUrl 1; repo := group matchUrl 2 |}
  | None =>
      match match_ urlish false simplePattern with
      | Some matchSimple =>
          inl {| owner := group matchSimple 1; repo := group matchSimple 2 |}
      | None => inr invalidRepoFormat
      end
  end.

End RepoRef.

(** ** Vocabulary of the specification *)

Module Spec.

Import Json.

(** [marker] occurs in [s] when letter case is ignored. *)
Definition containsIgnoringCase (s marker : string) : Prop :=
  exists pre mid post,
    s = pre +:+ mid +:+ post /\
    JsString.toLowerCase mid = JsString.toLowerCase marker.

(** The rule that the options of a model invocation are to obey. *)
Definition temperatureRule (opts : OpenAI.RequestOpts) : Prop :=
  (OpenAI.temperature opts = None <->
   containsIgnoringCase (OpenAI.model opts) "gpt-5") /\
  (~ containsIgnoringCase (OpenAI.model opts) "gpt-5" ->
   OpenAI.temperature opts = Some (2 # 10)%Q).

Definition changeTypes : list string :=
  ["feat"; "fix"; "refactor"; "docs"; "chore"; "test"; "build"; "ci"; "perf";
   "style"; "other"].

Definition risks : list string := ["low"; "medium"; "high"].

Definition isStr (j : option Json) : bool :=
  match j with Some (JStr _) => true | _ => false end.

Definition isOneOf (enum : list string) (j : option Json) : bool :=
  match j with
  | Some (JStr s) => existsb (String.eqb s) enum
  | _ => false
  end.

Definition isStrArray (bound : option nat) (j : option Json) : bool :=
  match j with
  | Some (JArr items) =>
      forallb (fun x => isStr (Some x)) items &&
      match bound with
      | Some n => Nat.leb (length items) n
      | None => true
      end
  | _ => false
  end.

(** The CommitSummary of the data model: a text summary, a change type and
    a risk from their enumerations, area tags, a test-impact note and up to
    three notable files. *)
Definition wellTyped (j : Json) : bool :=
  isStr (getProp j "summary") &&
  isOneOf changeTypes (getProp j "change_type") &&
  isStrArray None (getProp j "areas") &&
  isOneOf risks (getProp j "risk") &&
  isStr (getProp j "test_impact") &&
  isStrArray (Some 3%nat) (getProp j "notable_files").

End Spec.

(** ** Sample data for the worked cases *)

Module Sample.

Definition commit (sha_ : string) (parents_ : list string) (date : option Z) : Commit :=
  {| sha := sha_;
     parents := Some parents_;
     author_name := Some "dev";
     author_date := date;
     committer_name := Some "dev";
     committer_date := date;
     message := "change" |}.

Definition file (name : string) : FileChange :=
  {| filename := name; status := "modified"; additions := 1; deletions := 0;
     changes := 1; patch := EmptyString |}.

(** A repository whose branches list the given commits, and a model that
    answers every prompt with the same text. *)
Definition env (branches : list (string * list Commit)) (answer : option string) : Env :=
  {| env_OPENAI_MODEL := None;
     listBranches := map fst branches;
     listCommits := fun b => default [] (JsMap.get branches b);
     getCommit := fun _ => {| detail_files := None; detail_stats := None |};
     responses_create := fun _ => answer;
     buildCommitPrompt := fun _ _ _ => "prompt" |}.

(** Three commits in a line, and a merge of the first two lines. *)
Definition c1 : Commit := commit "a1" [] (Some 10).
Definition c2 : Commit := commit "b2" ["a1"] (Some 20).
Definition c3 : Commit := commit "c3" ["b2"] (Some 30).
Definition m4 : Commit := commit "d4" ["c3"; "b2"] (Some 40).

(** A commit made at the same time as [c1]. *)
Definition c5 : Commit := commit "e5" [] (Some 10).

Definition request (branch_ : string) (includeMerges_ : bool) (maxCommits_ : Z)
    : Analyze.Request :=
  {| Analyze.repoFull := "octo/demo";
     Analyze.branch := Some branch_;
     Analyze.includeMerges := includeMerges_;
     Analyze.maxCommits := maxCommits_ |}.

End Sample.

(** ** Vocabulary of the specification: buffers *)

Module SpecBuffer.

(** The most recent [n] entries of a buffer. *)
Definition lastN {A : Type} (n : nat) (l : list A) : list A :=
  skipn (length l - n) l.

(** Every buffer of the registry is within the cap. *)
Definition withinCap (st : Progress.Registry) : Prop :=
  forall id ch, Progress.channels st !! id = Some ch ->
                (length (Progress.buffer ch) <= 2000)%nat.

(** What can happen to the registry. *)
Inductive Op :=
| OpSend (id text : string) (now : Z)
| OpDone (id : string) (now : Z)
| OpSubscribe (id : string) (r : nat) (now : Z)
| OpClose (id : string) (r : nat).

Definition applyOp (st : Progress.Registry) (op : Op) : Progress.Registry :=
  match op with
  | OpSend id text now => Progress.progressSend id text now st
  | OpDone id now => Progress.progressDone id now st
  | OpSubscribe id r now => Progress.subscribe id r now st
  | OpClose id r => Progress.close id r st
  end.

(** The registry after a history of operations, from the empty one. *)
Definition after (ops : list Op) : Progress.Registry :=
  fold_left applyOp ops Progress.emptyRegistry.

End SpecBuffer.

(** ** Vocabulary of the specification: collection *)

Module SpecCollect.

(** A commit passes the merge filter. *)
Definition kept (includeMerges : bool) (c : Commit) : bool :=
  negb (negb includeMerges && Analyze.isMergeCommit c).

(** The commits of [l] whose sha is neither among [seenShas] nor carried by
    an earlier commit of [l]: first occurrences, in order. *)
Fixpoint firstBySha (seenShas : list string) (l : list Commit) : list Commit :=
  match l with
  | [] => []
  | c :: l' =>
      if bool_decide (sha c ∈ seenShas) then firstBySha seenShas l'
      else c :: firstBySha (seenShas ++ [sha c]) l'
  end.

(** The entries that [seen.set(c.sha, c)] makes of a list of commits. *)
Definition entries (cs : list Commit) : list (string * Commit) :=
  map (fun c => (sha c, c)) cs.

(** Every commit that the branches list, in enumeration order. *)
Definition listedBy (env : Env) (names : list string) : list Commit :=
  concat (map (listCommits env) names).

(** The number of different shas in a list of commits. *)
Definition distinctShas (l : list Commit) : nat :=
  size (list_to_set (map sha l) : gset string).

(** Most recent first. *)
Definition newestFirst (a b : Commit) : Prop :=
  Analyze.sortDate b <= Analyze.sortDate a.

(** [x] stands before [y] in [l]. *)
Definition before {A : Type} (l : list A) (x y : A) : Prop :=
  exists i j : nat, (i < j)%nat /\ l !! i = Some x /\ l !! j = Some y.

(** The first occurrence of every sha among the commits that the branches
    list and the merge filter keeps, in enumeration order. *)
Definition firstListed (env : Env) (req : Analyze.Request) : list Commit :=
  firstBySha [] (filter (kept (Analyze.includeMerges req))
                   (listedBy env (listBranches env))).

(** The run takes the ANY path. *)
Definition isAny (req : Analyze.Request) : bool :=
  match Analyze.branch req with
  | Some b => String.eqb b Analyze.ANY_BRANCH
  | None => false
  end.

(** The commits that the hosting API lists for the run's branch selection. *)
Definition selectedListing (env : Env) (req : Analyze.Request) : list Commit :=
  if isAny req then listedBy env (listBranches env)
  else listCommits env (Analyze.shaParam req).

(** The cap does not cut the listing short: the different commits of an ANY
    run, or the commits of the single branch, are at most [maxCommits]. *)
Definition capNotReached (env : Env) (req : Analyze.Request) : Prop :=
  0 < Analyze.maxCommits req /\
  if isAny req
  then Z.of_nat (distinctShas (selectedListing env req)) <= Analyze.maxCommits req
  else Z.of_nat (length (selectedListing env req)) <= Analyze.maxCommits req.

(** The same repository with its branches enumerated in another order. *)
Definition withBranches (env : Env) (names : list string) : Env :=
  {| env_OPENAI_MODEL := env_OPENAI_MODEL env;
     listBranches := names;
     listCommits := listCommits env;
     getCommit := getCommit env;
     responses_create := responses_create env;
     buildCommitPrompt := buildCommitPrompt env |}.

End SpecCollect.

(** ** Vocabulary of the specification: order *)

Module SpecSort.

(** Larger key first; among equal keys, the element that [Q] puts first. *)
Definition keyThenPlace {A : Type} (key : A -> Z) (Q : A -> A -> Prop) (x y : A) : Prop :=
  key y < key x \/ (key x = key y /\ Q x y).

End SpecSort.

(** ** Vocabulary of the specification: area ranking *)

Module SpecAreas.

(** How often a tag occurs. *)
Definition frequency (tags : list string) (t : string) : Z :=
  Z.of_nat (count_occ String.string_dec tags t).

(** Where a tag is first seen; the length of the list when it is not. *)
Fixpoint firstIndex (tags : list string) (t : string) : nat :=
  match tags with
  | [] => O
  | x :: tags' => if decide (x = t) then O else S (firstIndex tags' t)
  end.

(** [a] ranks before [b]: it is more frequent, or as frequent and seen
    first. *)
Definition ranksBefore (tags : list string) (a b : string) : Prop :=
  frequency tags b < frequency tags a \/
  (frequency tags a = frequency tags b /\ (firstIndex tags a < firstIndex tags b)%nat).

End SpecAreas.

(** ** Vocabulary of the specification: repo references *)

Module SpecRepo.

(** Every character of [s] satisfies [p]. *)
Fixpoint allChars (p : ascii -> bool) (s : string) : bool :=
  match s with
  | EmptyString => true
  | String c s' => p c && allChars p s'
  end.

(** Any character but a slash; any character but a slash or a dot. *)
Definition notSlash (c : ascii) : bool := Regex.inClass ["/"%char] c.

Definition notSlashDot (c : ascii) : bool := Regex.inClass ["/"%char; "."%char] c.

(** Not the letter that the host name starts with, in either case. *)
Definition notG (c : ascii) : bool :=
  negb (Ascii.eqb c "g") && negb (Ascii.eqb c "G").

(** The input is not changed by [trim]. *)
Definition trimmed (s : string) : Prop := JsString.trim s = s.

(** [rest] does not go on with a character of the class. *)
Definition stopsAt (p : ascii -> bool) (rest : string) : Prop :=
  match rest with
  | EmptyString => True
  | String c _ => p c = false
  end.

(** The number of slashes in a string. *)
Fixpoint countSlash (s : string) : nat :=
  match s with
  | EmptyString => O
  | String c s' => ((if Ascii.eqb c "/" then 1 else 0) + countSlash s')%nat
  end.

(** The least number of slashes in a text that a pattern matches. *)
Fixpoint minSlashes (r : Regex.Regex) : nat :=
  match r with
  | Regex.Lit c => if Ascii.eqb c "/" then 1%nat else O
  | Regex.PlusNot _ => O
  | Regex.Group _ r' => minSlashes r'
  | Regex.Opt _ => O
  | Regex.Seq r1 r2 => (minSlashes r1 + minSlashes r2)%nat
  | Regex.Bol => O
  | Regex.Eol => O
  end.

End SpecRepo.

(** ** Text utilities of the server *)

Module Util.

(** [String.prototype.slice(start, end)] with integer arguments, clamped as
    for arrays. *)
Definition strSlice (s : string) (start end_ : Z) : string :=
  let len := Z.of_nat (String.length s) in
  let k := JsArray.relativeIndex len start in
  let final := JsArray.relativeIndex len end_ in
  String.substring (Z.to_nat k) (Z.to_nat (final - k)) s.

Definition truncatedMark : string :=
  String "010"%char "...[truncated]...".

(** [truncate(str, max = 12000)]: [str] is [None] when it is [undefined] or
    [null], [max] is [None] when the argument is left out. *)
Definition truncate (str : option string) (max : option Z) : string :=
  let max := default 12000 max in
  match str with
  | None => EmptyString
  | Some EmptyString => EmptyString
  | Some s =>
      if Z.of_nat (String.length s) >? max
      then strSlice s 0 max +:+ truncatedMark
      else s
  end.

(** [String.prototype.lastIndexOf] for a one-character search string:
    [offset] is the index of the first character of [s]; -1 when absent. *)
Fixpoint lastIndexOfFrom (c : ascii) (s : string) (offset : Z) : Z :=
  match s with
  | EmptyString => -1
  | String a s' =>
      let later := lastIndexOfFrom c s' (offset + 1) in
      if later >? -1 then later
      else if Ascii.eqb a c then offset else -1
  end.

Definition lastIndexOf (s : string) (c : ascii) : Z := lastIndexOfFrom c s 0.

(** [extOf(path)] *)
Definition extOf (path : string) : string :=
  let i := lastIndexOf path "." in
  if i >? -1
  then JsString.toLowerCase (strSlice path (i + 1) (Z.of_nat (String.length path)))
  else EmptyString.

End Util.

(** ** Vocabulary of the further properties *)

Module SpecUtil.

Definition notDot (c : ascii) : bool := negb (Ascii.eqb c ".").

(** No upper-case ASCII letter. *)
Definition notUpper (c : ascii) : bool := negb (JsString.isUpper c).

End SpecUtil.

(** ** Vocabulary of the further properties: the registry *)

Module SpecProgress.

(** A run of sends to one channel. *)
Definition sendAll (id : string) (texts : list string) (now : Z)
    (st : Progress.Registry) : Progress.Registry :=
  fold_left (fun st' text => Progress.progressSend id text now st') texts st.

(** The channel that an operation addresses. *)
Definition opId (op : SpecBuffer.Op) : string :=
  match op with
  | SpecBuffer.OpSend id _ _ => id
  | SpecBuffer.OpDone id _ => id
  | SpecBuffer.OpSubscribe id _ _ => id
  | SpecBuffer.OpClose id _ => id
  end.

End SpecProgress.

(** ** Vocabulary of the further properties: enrichment *)

Module SpecEnrich.

(** The files of a commit as the enrichment loop shapes them. *)
Definition shapedFiles (env : Env) (c : Commit) : list FileChange :=
  map Analyze.shapeFile (default [] (detail_files (getCommit env (sha c)))).

(** The request that goes to the model for a commit. *)
Definition modelRequest (env : Env) (repo : string) (c : Commit) : OpenAI.RequestOpts :=
  OpenAI.createOpenAIResponse_opts (OpenAI.OPENAI_MODEL (env_OPENAI_MODEL env))
    (buildCommitPrompt env repo c (shapedFiles env c)).

(** The calls that a commit costs: its details, then its summary. *)
Definition callsFor (env : Env) (repo : string) (c : Commit) : list Call :=
  [CallGetCommit (sha c); CallResponsesCreate (modelRequest env repo c)].

(** The summary that the model's answer gives for a commit. *)
Definition summaryOf (env : Env) (repo : string) (c : Commit) : Json.Json :=
  Summarizer.parseOrFallback (responses_create env (modelRequest env repo c))
    (shapedFiles env c).

(** What belongs to a commit in its entry. *)
Definition entryOf (env : Env) (repo : string) (c : Commit)
    (r : Analyze.EnrichedCommit) : Prop :=
  Analyze.e_sha r = sha c /\ Analyze.e_message r = message c /\
  Analyze.e_files r = shapedFiles env c /\
  Analyze.e_ai r = summaryOf env repo c /\
  Analyze.countSummary (Analyze.e_ai r) = None.

(** The commits that the loop reaches: those up to and including the first
    one whose summary makes the counting throw. *)
Fixpoint reached (env : Env) (repo : string) (commits : list Commit) : list Commit :=
  match commits with
  | [] => []
  | c :: rest =>
      c :: match Analyze.countSummary (summaryOf env repo c) with
           | Some _ => []
           | None => reached env repo rest
           end
  end.

Definition sumZ {A : Type} (f : A -> Z) (l : list A) : Z :=
  fold_right (fun x a => f x + a) 0 l.

Definition isListing (c : Call) : bool :=
  match c with
  | CallListBranches | CallListCommits _ => true
  | _ => false
  end.

Definition isDetailFetch (c : Call) : bool :=
  match c with
  | CallGetCommit _ => true
  | _ => false
  end.

Definition isModelCall (c : Call) : bool :=
  match c with
  | CallResponsesCreate _ => true
  | _ => false
  end.

(** The filtered listing of the single-branch path. *)
Definition keptOfBranch (env : Env) (req : Analyze.Request) : list Commit :=
  let listed := listCommits env (Analyze.shaParam req) in
  if Analyze.includeMerges req then listed
  else filter (fun c => negb (Analyze.isMergeCommit c)) listed.

End SpecEnrich.

(** ** Entry of [POST /api/analyze]: validation and repo reference

    The handler up to the point where collection starts. The fields of the
    request body are strings, [None] when absent; the clock readings of the
    writes are [t1], [t2] and [t3]. *)

Module Handler.

Record Body := {
  repo : option string;
  since : option string;
  until : option string;
  requestId : option string
}.

(** How the entry ends: with an error response, or with the parsed repo
    reference with which the handler goes on. *)
Inductive Entry :=
| Rejected (status : Z) (error : string)
| Parsed (r : RepoRef.Repo).

(** A value that is not falsy: a string that is there and not empty. *)
Definition truthy (v : option string) : option string :=
  match v with
  | Some (String c s) => Some (String c s)
  | _ => None
  end.

(** [const progress = (msg) => progressSend(requestId, msg)]; an absent id
    is falsy as the empty one is. *)
Definition progress (requestId : option string) (msg : string) (now : Z)
    (st : Progress.Registry) : Progress.Registry :=
  Progress.progressSend (default EmptyString requestId) msg now st.

(** [progressDone(requestId)]; no channel is stored under an absent id. *)
Definition done (requestId : option string) (now : Z) (st : Progress.Registry)
    : Progress.Registry :=
  match requestId with
  | Some id => Progress.progressDone id now st
  | None => st
  end.

(** The horizontal ellipsis that ends the message, as its bytes. *)
Definition ellipsis : string :=
  String "226"%char (String "128"%char (String "166"%char EmptyString)).

Definition startingMessage (repo since until : string) : string :=
  "Starting analysis for " +:+ repo +:+ " from " +:+ since +:+ " to " +:+ until +:+ ellipsis.

Definition fieldsRequired : string := "repo, since, and until are required".

Definition enter (body : Body) (t1 t2 t3 : Z) (st : Progress.Registry)
    : Entry * Progress.Registry :=
  match truthy (repo body), truthy (since body), truthy (until body) with
  | Some repo, Some since, Some until =>
      let st1 := progress (requestId body) (startingMessage repo since until) t1 st in
      match RepoRef.parseRepo repo with
      | inl r => (Parsed r, st1)
      | inr message =>
          let st2 := progress (requestId body) ("Error: " +:+ message) t2 st1 in
          (Rejected 500 message, done (requestId body) t3 st2)
      end
  | _, _, _ => (Rejected 400 fieldsRequired, st)
  end.

End Handler.

(* ===================================================================== *)
(** * Part II: properties                                                 *)
(* ===================================================================== *)

(** ** Strings *)

Section StringFacts.

Import JsString.

Lemma startsWith_spec (s search : string) :
  startsWith s search = true <-> exists post, s = search +:+ post.
Proof.
  revert s. induction search as [|a search IH]; intros s; simpl.
  - split; [intros _; exists s; reflexivity | intros _; destruct s; reflexivity].
  - destruct s as [|b s].
    + split; [discriminate | intros [post H]; discriminate].
    + cbn [startsWith]. rewrite andb_true_iff, Ascii.eqb_eq, IH. split.
      * intros [-> [post ->]]. exists post. reflexivity.
      * intros [post H]. injection H as -> ->. split; [reflexivity | eauto].
Qed.

Lemma includes_spec (s search : string) :
  includes s search = true <-> exists pre post, s = pre +:+ search +:+ post.
Proof.
  induction s as [|c s IH].
  - cbn [includes]. rewrite orb_false_r, startsWith_spec. split.
    + intros [post H]. exists EmptyString, post. exact H.
    + intros [pre [post H]]. destruct pre; [exists post; exact H | discriminate].
  - cbn [includes]. rewrite orb_true_iff, startsWith_spec, IH. split.
    + intros [[post H] | [pre [post H]]].
      * exists EmptyString, post. exact H.
      * exists (String c pre), post. simpl. rewrite H. reflexivity.
    + intros [pre [post H]]. destruct pre as [|d pre].
      * left. exists post. exact H.
      * right. simpl in H. injection H as -> ->. eauto.
Qed.

Lemma toLowerCase_app (a b : string) :
  toLowerCase (a +:+ b) = toLowerCase a +:+ toLowerCase b.
Proof. induction a as [|c a IH]; simpl; [reflexivity | rewrite IH; reflexivity]. Qed.

Lemma toLowerCase_split (s a b : string) :
  toLowerCase s = a +:+ b ->
  exists s1 s2, s = s1 +:+ s2 /\ toLowerCase s1 = a /\ toLowerCase s2 = b.
Proof.
  revert s. induction a as [|c a IH]; intros s H.
  - exists EmptyString, s. auto.
  - destruct s as [|d s]; [discriminate |].
    simpl in H. injection H as Hc Hs.
    destruct (IH s Hs) as (s1 & s2 & -> & H1 & H2).
    exists (String d s1), s2. simpl. rewrite Hc, H1. auto.
Qed.

End StringFacts.

(** ** Model-aware temperature *)

Section Temperature.

Import OpenAI Summarizer Spec.

Lemma IS_GPT5_spec (m : string) :
  IS_GPT5 m = true <-> containsIgnoringCase m "gpt-5".
Proof.
  unfold IS_GPT5, containsIgnoringCase. rewrite includes_spec. split.
  - intros (pre & post & H).
    apply toLowerCase_split in H as (s1 & s2 & -> & H1 & H2).
    apply toLowerCase_split in H2 as (s3 & s4 & -> & H3 & H4).
    exists s1, s3, s4. auto.
  - intros (pre & mid & post & -> & H).
    exists (JsString.toLowerCase pre), (JsString.toLowerCase post).
    rewrite !toLowerCase_app, H. reflexivity.
Qed.

Lemma createOpenAIResponse_opts_rule (m inp : string) :
  temperatureRule (createOpenAIResponse_opts m inp).
Proof.
  unfold temperatureRule, createOpenAIResponse_opts.
  pose proof (IS_GPT5_spec m) as Hspec.
  destruct (IS_GPT5 m); simpl.
  - split; [split; [intros _; apply Hspec; reflexivity | reflexivity] |].
    intros Hn. exfalso. apply Hn, Hspec. reflexivity.
  - split; [split; [discriminate |] | reflexivity].
    intros Hc. apply Hspec in Hc. discriminate.
Qed.

(** C4: the temperature is left out exactly for the model names that contain
    gpt-5 in any letter case, every other model gets 0.2, and the per-commit
    call and the period call both send the options built that way. *)
Theorem C4_temperature_omitted_iff_gpt5 :
  (forall m inp : string,
      model (createOpenAIResponse_opts m inp) = m /\
      temperatureRule (createOpenAIResponse_opts m inp)) /\
  (forall inp, temperature (createOpenAIResponse_opts "gpt-5-mini" inp) = None) /\
  (forall inp, temperature (createOpenAIResponse_opts "gpt-5o" inp) = None) /\
  (forall inp,
      temperature (createOpenAIResponse_opts "gpt-4o-mini" inp) = Some (2 # 10)%Q) /\
  (forall env repo commit files tr,
      snd (summarizeCommit env repo commit files tr) =
      tr ++ [CallResponsesCreate
               (createOpenAIResponse_opts (OPENAI_MODEL (env_OPENAI_MODEL env))
                  (buildCommitPrompt env repo commit files))]) /\
  (forall env periodPrompt tr,
      snd (periodSummary env periodPrompt tr) =
      tr ++ [CallResponsesCreate
               (createOpenAIResponse_opts (OPENAI_MODEL (env_OPENAI_MODEL env))
                  periodPrompt)]).
Proof.
  repeat split.
  - unfold createOpenAIResponse_opts. destruct (IS_GPT5 m); reflexivity.
  - apply createOpenAIResponse_opts_rule.
  - apply createOpenAIResponse_opts_rule.
  - apply createOpenAIResponse_opts_rule.
Qed.

End Temperature.

(** ** The recursion bound of [JSON_parse] *)

Section JsonFuel.

Import Json.

Lemma skipWs_length (s : string) : (String.length (skipWs s) <= String.length s)%nat.
Proof.
  induction s as [|c s IH]; simpl; [lia |].
  destruct (isWs c); simpl; lia.
Qed.

Lemma stripPrefix_length (p s r : string) :
  stripPrefix p s = Some r -> (String.length r <= String.length s)%nat.
Proof.
  revert s. induction p as [|a p IH]; intros s H.
  - destruct s; injection H as <-; lia.
  - destruct s as [|b s]; [discriminate |]. simpl in H.
    destruct (Ascii.eqb a b); [| discriminate]. apply IH in H. simpl. lia.
Qed.

Lemma spanDigits_length (s d r : string) :
  spanDigits s = (d, r) -> (String.length r <= String.length s)%nat.
Proof.
  revert d r. induction s as [|c s IH]; intros d r H; simpl in H.
  - injection H as <- <-. lia.
  - destruct (isDigit c).
    + destruct (spanDigits s) as [d' r'] eqn:E. injection H as <- <-.
      specialize (IH _ _ eq_refl). simpl. lia.
    + injection H as <- <-. lia.
Qed.

Lemma parseNumber_length (s n r : string) :
  parseNumber s = Some (n, r) -> (String.length r < String.length s)%nat.
Proof.
  unfold parseNumber. intros H.
  assert (Hint : forall s0 i s1,
             parseInt s0 = Some (i, s1) -> (String.length s1 < String.length s0)%nat).
  { intros s0 i s1 Hi. unfold parseInt in Hi.
    destruct s0 as [|c s0]; [discriminate |].
    destruct (Ascii.eqb c "0") eqn:E0.
    - apply Ascii.eqb_eq in E0 as ->. injection Hi as <- <-. simpl. lia.
    - assert (Hc : isDigit c = true /\ exists d, spanDigits s0 = (d, s1)).
      { destruct c as [[] [] [] [] [] [] [] []]; try discriminate Hi; try discriminate E0;
          (split; [reflexivity |]); destruct (spanDigits s0) as [d r'];
          injection Hi as <- <-; eauto. }
      destruct Hc as [_ [d Hd]]. apply spanDigits_length in Hd. simpl. lia. }
  assert (Hfrac : forall s1 f s2,
             parseFrac s1 = Some (f, s2) -> (String.length s2 <= String.length s1)%nat).
  { intros s1 f s2 Hf. unfold parseFrac in Hf.
    destruct s1 as [|c s1]; [injection Hf as <- <-; lia |].
    destruct (Ascii.eqb c ".") eqn:E.
    - apply Ascii.eqb_eq in E as ->.
      destruct (spanDigits s1) as [d r'] eqn:Hd. apply spanDigits_length in Hd.
      destruct d; [discriminate |]. injection Hf as <- <-. simpl. lia.
    - assert (Hs : s2 = String c s1).
      { destruct c as [[] [] [] [] [] [] [] []]; try discriminate E;
          injection Hf as <- <-; reflexivity. }
      subst s2. lia. }
  assert (Hexp : forall s2 e s3,
             parseExp s2 = Some (e, s3) -> (String.length s3 <= String.length s2)%nat).
  { intros s2 e s3 He. unfold parseExp in He.
    destruct s2 as [|c s2]; [injection He as <- <-; lia |].
    destruct (Ascii.eqb c "e" || Ascii.eqb c "E"); [| injection He as <- <-; lia].
    assert (Hsign : exists sg r1,
               (String.length r1 <= String.length s2)%nat /\
               match spanDigits r1 with
               | (EmptyString, _) => None
               | (d, r2) => Some (String c (sg +:+ d), r2)
               end = Some (e, s3)).
    { destruct s2 as [|c' s2']; [exists EmptyString, EmptyString; split; [lia | exact He] |].
      destruct (Ascii.eqb c' "+") eqn:Ep; [apply Ascii.eqb_eq in Ep as ->;
        exists "+", s2'; split; [simpl; lia | exact He] |].
      destruct (Ascii.eqb c' "-") eqn:Em; [apply Ascii.eqb_eq in Em as ->;
        exists "-", s2'; split; [simpl; lia | exact He] |].
      exists EmptyString, (String c' s2'). split; [lia |].
      destruct c' as [[] [] [] [] [] [] [] []]; try discriminate Ep; try discriminate Em;
        exact He. }
    destruct Hsign as (sg & r1 & Hr1 & Hd).
    destruct (spanDigits r1) as [d r2] eqn:Hsp. apply spanDigits_length in Hsp.
    destruct d; [discriminate |]. injection Hd as _ <-. simpl. lia. }
  destruct (match s with String "-" r0 => ("-", r0) | _ => (EmptyString, s) end)
    as [sign s0] eqn:Hsign.
  assert (Hs0 : (String.length s0 <= String.length s)%nat).
  { destruct s as [|c s']; [injection Hsign as <- <-; lia |].
    destruct (Ascii.eqb c "-") eqn:Em.
    - apply Ascii.eqb_eq in Em as ->. injection Hsign as <- <-. simpl. lia.
    - destruct c as [[] [] [] [] [] [] [] []]; try discriminate Em;
        injection Hsign as <- <-; lia. }
  destruct (parseInt s0) as [[i s1]|] eqn:Hi; [| discriminate]. cbn in H.
  destruct (parseFrac s1) as [[f s2]|] eqn:Hf; [| discriminate]. cbn in H.
  destruct (parseExp s2) as [[e s3]|] eqn:He; [| discriminate]. cbn in H.
  injection H as _ <-.
  apply Hint in Hi. apply Hfrac in Hf. apply Hexp in He. lia.
Qed.

Lemma parseString_length (s t r : string) :
  parseString s = Some (t, r) -> (String.length r < String.length s)%nat.
Proof.
  enough (Hall : forall n s t r, (String.length s <= n)%nat ->
             parseString s = Some (t, r) -> (String.length r < String.length s)%nat)
    by (apply (Hall (String.length s)); lia).
  clear s t r. induction n as [|n IH]; intros s t r Hle H.
  - destruct s; [discriminate | simpl in Hle; lia].
  - destruct s as [|c s]; [discriminate |]. simpl in Hle. cbn [parseString] in H.
    assert (Hbind : forall (d : ascii) s', (String.length s' <= n)%nat ->
               (parseString s' ≫= fun '(t0, r2) => Some (String d t0, r2)) = Some (t, r) ->
               (String.length r < String.length s')%nat).
    { intros d s' Hs' Hp. destruct (parseString s') as [[t0 r2]|] eqn:E; [| discriminate].
      cbn in Hp. injection Hp as _ <-. apply IH in E; [exact E | exact Hs']. }
    destruct (Ascii.eqb c dquote); [injection H as _ <-; simpl; lia |].
    destruct (Ascii.eqb c backslash).
    + destruct s as [|e r1]; [discriminate |]. simpl in Hle.
      repeat match type of H with
             | (if ?b then _ else _) = _ =>
                 destruct b; [apply Hbind in H; [simpl; lia | lia] |]
             end.
      destruct (Ascii.eqb e "u"); [| discriminate].
      destruct r1 as [|h1 [|h2 [|h3 [|h4 r2]]]]; try discriminate. simpl in Hle.
      destruct (hexValue h1); [| discriminate]. cbn in H.
      destruct (hexValue h2); [| discriminate]. cbn in H.
      destruct (hexValue h3); [| discriminate]. cbn in H.
      destruct (hexValue h4); [| discriminate]. cbn in H.
      destruct (parseString r2) as [[t0 r3]|] eqn:E; [| discriminate]. cbn in H.
      apply IH in E; [| lia].
      match type of H with (if ?b then _ else _) = _ => destruct b end;
        injection H as _ <-; simpl; lia.
    + destruct (Nat.ltb (nat_of_ascii c) 32); [discriminate |].
      apply Hbind in H; [simpl; lia | lia].
Qed.

Lemma stripPrefix_length_lt (a : ascii) (p s r : string) :
  stripPrefix (String a p) s = Some r -> (String.length r < String.length s)%nat.
Proof.
  destruct s as [|b s]; [discriminate |]. simpl.
  destruct (Ascii.eqb a b); [| discriminate].
  intros H. apply stripPrefix_length in H. lia.
Qed.

Lemma parseValue_S (f : nat) (s : string) :
  parseValue (S f) s =
  match skipWs s with
  | EmptyString => None
  | String c r =>
      if Ascii.eqb c "n" then r' ← stripPrefix "ull" r; Some (JNull, r')
      else if Ascii.eqb c "t" then r' ← stripPrefix "rue" r; Some (JBool true, r')
      else if Ascii.eqb c "f" then r' ← stripPrefix "alse" r; Some (JBool false, r')
      else if Ascii.eqb c dquote then '(t, r') ← parseString r; Some (JStr t, r')
      else if Ascii.eqb c "[" then
        match stripPrefix "]" (skipWs r) with
        | Some r' => Some (JArr [], r')
        | None => '(vs, r') ← parseElements f r; Some (JArr vs, r')
        end
      else if Ascii.eqb c "{" then
        match stripPrefix "}" (skipWs r) with
        | Some r' => Some (JObj [], r')
        | None => '(ms, r') ← parseMembers f r; Some (JObj ms, r')
        end
      else '(n, r') ← parseNumber (String c r); Some (JNum n, r')
  end.
Proof. reflexivity. Qed.

Lemma parseElements_S (f : nat) (s : string) :
  parseElements (S f) s =
  '(v, r) ← parseValue f s;
  match stripPrefix "," (skipWs r) with
  | Some r' => '(vs, r'') ← parseElements f r'; Some (v :: vs, r'')
  | None =>
      match stripPrefix "]" (skipWs r) with
      | Some r' => Some ([v], r')
      | None => None
      end
  end.
Proof. reflexivity. Qed.

Lemma parseMembers_S (f : nat) (s : string) :
  parseMembers (S f) s =
  match stripPrefix (String dquote EmptyString) (skipWs s) with
  | Some r =>
      '(k, r1) ← parseString r;
      match stripPrefix ":" (skipWs r1) with
      | Some r2 =>
          '(v, r3) ← parseValue f r2;
          match stripPrefix "," (skipWs r3) with
          | Some r4 => '(ms, r5) ← parseMembers f r4; Some ((k, v) :: ms, r5)
          | None =>
              match stripPrefix "}" (skipWs r3) with
              | Some r4 => Some ([(k, v)], r4)
              | None => None
              end
          end
      | None => None
      end
  | None => None
  end.
Proof. reflexivity. Qed.

(** A parse that succeeds with some fuel consumes text, and succeeds with
    the same result on any fuel that is at least the number of characters
    consumed. *)
Lemma parse_fuel (f : nat) :
  (forall s v r, parseValue f s = Some (v, r) ->
     (String.length r < String.length s)%nat /\
     forall g, (String.length s - String.length r <= g)%nat ->
               parseValue g s = Some (v, r)) /\
  (forall s vs r, parseElements f s = Some (vs, r) ->
     (String.length r < String.length s)%nat /\
     forall g, (String.length s - String.length r <= g)%nat ->
               parseElements g s = Some (vs, r)) /\
  (forall s ms r, parseMembers f s = Some (ms, r) ->
     (String.length r < String.length s)%nat /\
     forall g, (String.length s - String.length r <= g)%nat ->
               parseMembers g s = Some (ms, r)).
Proof.
  induction f as [|f (IHv & IHe & IHm)]; [repeat split; discriminate |].
  split; [| split].
  - intros s v r H. rewrite parseValue_S in H.
    pose proof (skipWs_length s) as Hws.
    destruct (skipWs s) as [|c r0] eqn:Hs; [discriminate |]. cbn [String.length] in Hws.
    destruct (Ascii.eqb c "n") eqn:E1.
    { destruct (stripPrefix "ull" r0) as [r'|] eqn:Hp; [| discriminate].
      injection H as <- <-. pose proof (stripPrefix_length _ _ _ Hp).
      split; [lia |]. intros [|g] Hg; [lia |].
      rewrite parseValue_S, Hs, E1, Hp. reflexivity. }
    destruct (Ascii.eqb c "t") eqn:E2.
    { destruct (stripPrefix "rue" r0) as [r'|] eqn:Hp; [| discriminate].
      injection H as <- <-. pose proof (stripPrefix_length _ _ _ Hp).
      split; [lia |]. intros [|g] Hg; [lia |].
      rewrite parseValue_S, Hs, E1, E2, Hp. reflexivity. }
    destruct (Ascii.eqb c "f") eqn:E3.
    { destruct (stripPrefix "alse" r0) as [r'|] eqn:Hp; [| discriminate].
      injection H as <- <-. pose proof (stripPrefix_length _ _ _ Hp).
      split; [lia |]. intros [|g] Hg; [lia |].
      rewrite parseValue_S, Hs, E1, E2, E3, Hp. reflexivity. }
    destruct (Ascii.eqb c dquote) eqn:E4.
    { destruct (parseString r0) as [[t r']|] eqn:Hp; [| discriminate].
      injection H as <- <-. pose proof (parseString_length _ _ _ Hp).
      split; [lia |]. intros [|g] Hg; [lia |].
      rewrite parseValue_S, Hs, E1, E2, E3, E4, Hp. reflexivity. }
    destruct (Ascii.eqb c "[") eqn:E5.
    { pose proof (skipWs_length r0) as Hws0.
      destruct (stripPrefix "]" (skipWs r0)) as [r'|] eqn:Hp.
      - injection H as <- <-. pose proof (stripPrefix_length _ _ _ Hp).
        split; [lia |]. intros [|g] Hg; [lia |].
        rewrite parseValue_S, Hs, E1, E2, E3, E4, E5, Hp. reflexivity.
      - destruct (parseElements f r0) as [[vs r']|] eqn:He; [| discriminate].
        injection H as <- <-. apply IHe in He as [Hlen Hfuel].
        split; [lia |]. intros [|g] Hg; [lia |].
        rewrite parseValue_S, Hs, E1, E2, E3, E4, E5, Hp, Hfuel by lia. reflexivity. }
    destruct (Ascii.eqb c "{") eqn:E6.
    { destruct (stripPrefix "}" (skipWs r0)) as [r'|] eqn:Hp.
      - pose proof (skipWs_length r0) as Hws0.
        injection H as <- <-. pose proof (stripPrefix_length _ _ _ Hp).
        split; [lia |]. intros [|g] Hg; [lia |].
        rewrite parseValue_S, Hs, E1, E2, E3, E4, E5, E6, Hp. reflexivity.
      - destruct (parseMembers f r0) as [[ms r']|] eqn:Hm; [| discriminate].
        injection H as <- <-. apply IHm in Hm as [Hlen Hfuel].
        split; [lia |]. intros [|g] Hg; [lia |].
        rewrite parseValue_S, Hs, E1, E2, E3, E4, E5, E6, Hp, Hfuel by lia.
        reflexivity. }
    destruct (parseNumber (String c r0)) as [[n r']|] eqn:Hp; [| discriminate].
    injection H as <- <-. pose proof (parseNumber_length _ _ _ Hp) as Hn.
    cbn [String.length] in Hn.
    split; [lia |]. intros [|g] Hg; [lia |].
    rewrite parseValue_S, Hs, E1, E2, E3, E4, E5, E6, Hp. reflexivity.
  - intros s vs r H. rewrite parseElements_S in H.
    destruct (parseValue f s) as [[v r1]|] eqn:Hv; [| discriminate].
    apply IHv in Hv as [Hlen1 Hfuel1]. cbn [mbind option_bind] in H.
    pose proof (skipWs_length r1) as Hws.
    destruct (stripPrefix "," (skipWs r1)) as [r2|] eqn:Hc.
    + pose proof (stripPrefix_length_lt _ _ _ _ Hc).
      destruct (parseElements f r2) as [[vs' r3]|] eqn:He; [| discriminate].
      cbn [mbind option_bind] in H. injection H as <- <-. apply IHe in He as [Hlen2 Hfuel2].
      split; [lia |]. intros [|g] Hg; [lia |].
      rewrite parseElements_S, Hfuel1 by lia. cbn [mbind option_bind].
      rewrite Hc, Hfuel2 by lia. reflexivity.
    + destruct (stripPrefix "]" (skipWs r1)) as [r2|] eqn:Hb; [| discriminate].
      pose proof (stripPrefix_length_lt _ _ _ _ Hb).
      injection H as <- <-.
      split; [lia |]. intros [|g] Hg; [lia |].
      rewrite parseElements_S, Hfuel1 by lia. cbn [mbind option_bind]. rewrite Hc, Hb. reflexivity.
  - intros s ms r H. rewrite parseMembers_S in H.
    pose proof (skipWs_length s) as Hws.
    destruct (stripPrefix (String dquote EmptyString) (skipWs s)) as [r0|] eqn:Hq;
      [| discriminate].
    pose proof (stripPrefix_length_lt _ _ _ _ Hq).
    destruct (parseString r0) as [[k r1]|] eqn:Hk; [| discriminate]. cbn [mbind option_bind] in H.
    pose proof (parseString_length _ _ _ Hk).
    pose proof (skipWs_length r1) as Hws1.
    destruct (stripPrefix ":" (skipWs r1)) as [r2|] eqn:Hcol; [| discriminate].
    pose proof (stripPrefix_length_lt _ _ _ _ Hcol).
    destruct (parseValue f r2) as [[v r3]|] eqn:Hv; [| discriminate]. cbn [mbind option_bind] in H.
    apply IHv in Hv as [Hlen1 Hfuel1].
    pose proof (skipWs_length r3) as Hws3.
    destruct (stripPrefix "," (skipWs r3)) as [r4|] eqn:Hc.
    + pose proof (stripPrefix_length_lt _ _ _ _ Hc).
      destruct (parseMembers f r4) as [[ms' r5]|] eqn:Hm; [| discriminate].
      cbn [mbind option_bind] in H. injection H as <- <-. apply IHm in Hm as [Hlen2 Hfuel2].
      split; [lia |]. intros [|g] Hg; [lia |].
      rewrite parseMembers_S, Hq, Hk. cbn [mbind option_bind]. rewrite Hcol, Hfuel1 by lia. cbn [mbind option_bind].
      rewrite Hc, Hfuel2 by lia. reflexivity.
    + destruct (stripPrefix "}" (skipWs r3)) as [r4|] eqn:Hb; [| discriminate].
      pose proof (stripPrefix_length_lt _ _ _ _ Hb).
      injection H as <- <-.
      split; [lia |]. intros [|g] Hg; [lia |].
      rewrite parseMembers_S, Hq, Hk. cbn [mbind option_bind]. rewrite Hcol, Hfuel1 by lia. cbn [mbind option_bind].
      rewrite Hc, Hb. reflexivity.
Qed.

(** The fuel that [JSON_parse] gives is enough: a text that parses with any
    fuel parses with it, to the same value. *)
Lemma JSON_parse_fuel_enough (f : nat) (text : string) (v : Json) (r : string) :
  parseValue f text = Some (v, r) ->
  parseValue (S (String.length text)) text = Some (v, r).
Proof.
  intros H. destruct (parse_fuel f) as (Hv & _ & _).
  destruct (Hv _ _ _ H) as [_ Hfuel]. apply Hfuel. lia.
Qed.

End JsonFuel.

(** ** Parse-or-fallback of the summarizer *)

Section SummarizerFacts.

Import Json Summarizer Spec.

Lemma slice_prefix_length {A : Type} (l : list A) (n : nat) :
  (length (JsArray.slice l 0 (Z.of_nat n)) <= n)%nat.
Proof.
  unfold JsArray.slice, JsArray.relativeIndex.
  rewrite length_firstn.
  destruct (Z.of_nat n <? 0) eqn:E; [apply Z.ltb_lt in E; lia |].
  change (0 <? 0) with false. cbv iota. lia.
Qed.

Lemma fallbackSummary_wellTyped (files : list FileChange) :
  wellTyped (fallbackSummary files) = true.
Proof.
  unfold wellTyped, fallbackSummary. cbn -[notableFiles].
  rewrite andb_true_iff. split.
  - unfold notableFiles. induction (JsArray.slice files 0 3); [reflexivity | assumption].
  - unfold notableFiles. rewrite length_map. apply Nat.leb_le.
    exact (slice_prefix_length files 3).
Qed.

Lemma summarizeCommit_result (env : Env) (repo : string) (commit : Commit)
    (files : list FileChange) (tr : list Call) :
  fst (summarizeCommit env repo commit files tr) =
  parseOrFallback
    (responses_create env
       (OpenAI.createOpenAIResponse_opts (OpenAI.OPENAI_MODEL (env_OPENAI_MODEL env))
          (buildCommitPrompt env repo commit files)))
    files.
Proof. reflexivity. Qed.

(** A response that [JSON.parse] accepts is returned as parsed, whatever its
    shape. *)
Lemma parseOrFallback_parsed (output_text : option string) (files : list FileChange)
    (v : Json) :
  JSON_parse (responseText output_text) = Some v ->
  parseOrFallback output_text files = v.
Proof. unfold parseOrFallback. intros ->. reflexivity. Qed.

(** C1, as far as the code goes: a response that is empty or that
    [JSON.parse] refuses yields exactly the fallback object, whose notable
    files are the first three file names and which is a well-typed
    CommitSummary. *)
Theorem C1_fallback_when_unparseable (env : Env) (repo : string) (commit : Commit)
    (files : list FileChange) (tr : list Call) :
  let output_text :=
    responses_create env
      (OpenAI.createOpenAIResponse_opts (OpenAI.OPENAI_MODEL (env_OPENAI_MODEL env))
         (buildCommitPrompt env repo commit files)) in
  responseText output_text = EmptyString \/
  JSON_parse (responseText output_text) = None ->
  fst (summarizeCommit env repo commit files tr) = fallbackSummary files /\
  getProp (fallbackSummary files) "notable_files" =
    Some (JArr (map (fun f => JStr (filename f)) (firstn 3 files))) /\
  wellTyped (fallbackSummary files) = true.
Proof.
  intros output_text H.
  assert (Hnone : JSON_parse (responseText output_text) = None).
  { destruct H as [-> | H]; [reflexivity | exact H]. }
  rewrite summarizeCommit_result. fold output_text.
  unfold parseOrFallback. rewrite Hnone.
  split; [reflexivity |]. split; [| apply fallbackSummary_wellTyped].
  cbn -[firstn]. unfold notableFiles, JsArray.slice, JsArray.relativeIndex.
  change (0 <? 0) with false. change (3 <? 0) with false. cbv iota.
  do 2 f_equal. f_equal.
  destruct files as [|f1 [|f2 [|f3 files]]]; try reflexivity.
  replace (Z.to_nat (Z.min 3 (Z.of_nat (length (f1 :: f2 :: f3 :: files))) -
             Z.min 0 (Z.of_nat (length (f1 :: f2 :: f3 :: files))))) with 3%nat
    by (cbn [length]; lia).
  replace (Z.to_nat (Z.min 0 (Z.of_nat (length (f1 :: f2 :: f3 :: files))))) with 0%nat
    by (cbn [length]; lia).
  reflexivity.
Qed.

(** A truncated response: the array is never closed. *)
Lemma C1_fallback_when_unparseable_witness :
  JSON_parse (responseText (Some "[1, 2")) = None /\
  fst (summarizeCommit (Sample.env [] (Some "[1, 2")) "octo/demo"
         (Sample.commit "a1" [] None)
         [Sample.file "a.js"; Sample.file "b.js"; Sample.file "c.js"; Sample.file "d.js"]
         []) =
    fallbackSummary
      [Sample.file "a.js"; Sample.file "b.js"; Sample.file "c.js"; Sample.file "d.js"] /\
  getProp
    (fallbackSummary
       [Sample.file "a.js"; Sample.file "b.js"; Sample.file "c.js"; Sample.file "d.js"])
    "notable_files" = Some (JArr [JStr "a.js"; JStr "b.js"; JStr "c.js"]).
Proof.
  pose proof (C1_fallback_when_unparseable (Sample.env [] (Some "[1, 2")) "octo/demo"
                (Sample.commit "a1" [] None)
                [Sample.file "a.js"; Sample.file "b.js"; Sample.file "c.js";
                 Sample.file "d.js"] [] (or_intror eq_refl)) as (H1 & H2 & _).
  split; [reflexivity |]. split; [exact H1 | exact H2].
Defined.

(** C1 as stated fails on valid JSON of the wrong shape: an empty object, an
    array and [null] are each returned as parsed, none is the fallback and
    none is a well-typed CommitSummary; the enrichment loop attaches the
    value as it is. *)
Lemma C1_wrong_shape_not_replaced :
  JSON_parse (responseText (Some "{}")) = Some (JObj []) /\
  wellTyped (JObj []) = false /\
  parseOrFallback (Some "{}") [] = JObj [] /\
  parseOrFallback (Some "{}") [] <> fallbackSummary [] /\
  parseOrFallback (Some " [1, 2] ") [] = JArr [JNum "1"; JNum "2"] /\
  parseOrFallback (Some "null") [] = JNull /\
  exists e,
    snd (fst (run (Analyze.collectAndEnrich
                     (Sample.env [("main", [Sample.commit "a1" [] None])] (Some "{}"))
                     (Sample.request "main" false 5)))) = inl e /\
    map Analyze.e_ai (Analyze.results e) = [JObj []].
Proof.
  do 3 (split; [reflexivity |]). split; [discriminate |].
  do 2 (split; [reflexivity |]).
  eexists. split; reflexivity.
Qed.

End SummarizerFacts.

(** ** Progress channel registry *)

Section ProgressFacts.

Import Progress SpecBuffer.

Lemma channelOf_insert (id : string) (ch : Channel) (st : Registry) (w : gmap nat (list SseEvent)) :
  channelOf {| channels := <[id := ch]> (channels st); written := w |} id = ch.
Proof. unfold channelOf. simpl. rewrite lookup_insert_eq. reflexivity. Qed.

Lemma received_write (r : nat) (evs : list SseEvent) (st : Registry)
    (c : gmap string Channel) :
  received {| channels := c; written := write r evs (written st) |} r =
  received st r ++ evs.
Proof. unfold received, write. simpl. rewrite lookup_insert_eq. reflexivity. Qed.

Lemma messages_replay (now : Z) (buf : list string) :
  messages (map (Data now) buf ++ [Ready now]) = buf.
Proof.
  unfold messages. induction buf as [|m buf IH]; [reflexivity |].
  simpl. f_equal. exact IH.
Qed.

Lemma messages_app (a b : list SseEvent) :
  messages (a ++ b) = messages a ++ messages b.
Proof. unfold messages. apply omap_app. Qed.

(** Pushing onto a buffer within the cap and shifting when it overflows
    keeps the most recent 2000 entries. *)
Lemma push_shift_lastN (buf : list string) (text : string) :
  (length buf <= 2000)%nat ->
  (if 2000 <? Z.of_nat (length (buf ++ [text]))
   then tail (buf ++ [text]) else buf ++ [text]) =
  lastN 2000 (buf ++ [text]).
Proof.
  intros Hlen. unfold lastN. rewrite length_app. cbn [length].
  destruct (2000 <? Z.of_nat (length buf + 1)) eqn:E.
  - apply Z.ltb_lt in E.
    replace (length buf + 1 - 2000)%nat with 1%nat by lia.
    destruct (buf ++ [text]); reflexivity.
  - apply Z.ltb_ge in E.
    replace (length buf + 1 - 2000)%nat with 0%nat by lia. reflexivity.
Qed.

Lemma lastN_length {A : Type} (n : nat) (l : list A) :
  (length (lastN n l) <= n)%nat.
Proof. unfold lastN. rewrite length_skipn. lia. Qed.

Lemma channelOf_withinCap (st : Registry) (id : string) :
  withinCap st -> (length (buffer (channelOf st id)) <= 2000)%nat.
Proof.
  intros Hcap. unfold channelOf.
  destruct (channels st !! id) as [ch|] eqn:Hch; [exact (Hcap id ch Hch) |].
  simpl. lia.
Qed.

Lemma withinCap_insert (id : string) (ch : Channel) (st : Registry)
    (w : gmap nat (list SseEvent)) :
  withinCap st -> (length (buffer ch) <= 2000)%nat ->
  withinCap {| channels := <[id := ch]> (channels st); written := w |}.
Proof.
  intros Hcap Hch id' ch' Hlook. simpl in Hlook.
  destruct (decide (id = id')) as [-> | Hne].
  - rewrite lookup_insert_eq in Hlook. injection Hlook as <-. exact Hch.
  - rewrite lookup_insert_ne in Hlook by exact Hne. exact (Hcap id' ch' Hlook).
Qed.

Lemma progressSend_withinCap (id text : string) (now : Z) (st : Registry) :
  withinCap st -> withinCap (progressSend id text now st).
Proof.
  intros Hcap. pose proof (channelOf_withinCap st id Hcap) as Hlen.
  unfold progressSend. destruct id as [|c id]; [exact Hcap |].
  destruct (res (channelOf st (String c id))).
  - apply withinCap_insert; assumption.
  - apply withinCap_insert; [exact Hcap |]. cbn [buffer].
    rewrite push_shift_lastN by exact Hlen. apply lastN_length.
Qed.

Lemma subscribe_withinCap (id : string) (r : nat) (now : Z) (st : Registry) :
  withinCap st -> withinCap (subscribe id r now st).
Proof.
  intros Hcap. unfold subscribe. apply withinCap_insert; [exact Hcap |].
  exact (channelOf_withinCap st id Hcap).
Qed.

Lemma close_withinCap (id : string) (r : nat) (st : Registry) :
  withinCap st -> withinCap (close id r st).
Proof.
  intros Hcap. unfold close.
  destruct (channels st !! id) as [ch|] eqn:Hch; [| exact Hcap].
  destruct (decide (res ch = Some r)); [| exact Hcap].
  apply withinCap_insert; [exact Hcap | exact (Hcap id ch Hch)].
Qed.

Lemma progressDone_withinCap (id : string) (now : Z) (st : Registry) :
  withinCap st -> withinCap (progressDone id now st).
Proof.
  intros Hcap id' ch Hlook. unfold progressDone in Hlook. simpl in Hlook.
  apply lookup_delete_Some in Hlook as [_ Hlook]. exact (Hcap id' ch Hlook).
Qed.

(** No history of sends, subscriptions, disconnections and completions
    takes a buffer beyond the cap. *)
Lemma after_withinCap (ops : list Op) : withinCap (after ops).
Proof.
  unfold after.
  assert (H : forall st, withinCap st -> withinCap (fold_left applyOp ops st)).
  { induction ops as [|op ops IH]; intros st Hst; [exact Hst |].
    cbn [fold_left]. apply IH.
    destruct op; cbn [applyOp];
      auto using progressSend_withinCap, progressDone_withinCap,
                 subscribe_withinCap, close_withinCap. }
  apply H. intros id ch Hlook. cbn [emptyRegistry channels] in Hlook.
  rewrite lookup_empty in Hlook. discriminate.
Qed.

(** C3, as the code has it: a send to a channel with a live subscriber is
    written to the subscriber and not buffered; a send to a channel without
    one is appended to the buffer, which keeps the most recent 2000 entries;
    a later subscriber is replayed the buffer. *)
Theorem C3_send_buffers_only_when_detached (id text : string) (now : Z) (st : Registry) :
  id <> EmptyString ->
  withinCap st ->
  let ch := channelOf st id in
  let st' := progressSend id text now st in
  let ch' := channelOf st' id in
  res ch' = res ch /\
  withinCap st' /\
  match res ch with
  | Some r =>
      buffer ch' = buffer ch /\ received st' r = received st r ++ [Data now text]
  | None =>
      buffer ch' = lastN 2000 (buffer ch ++ [text]) /\ written st' = written st
  end /\
  (forall r now',
      messages (received (subscribe id r now' st') r) =
      messages (received st' r) ++ buffer ch').
Proof.
  intros Hid Hcap ch st' ch'.
  pose proof (channelOf_withinCap st id Hcap) as Hlen.
  split; [| split; [apply progressSend_withinCap; exact Hcap | split]].
  - subst ch' st'. unfold progressSend.
    destruct id as [|c id]; [congruence |]. fold ch.
    destruct (res ch) eqn:Hres; rewrite channelOf_insert; [exact Hres | reflexivity].
  - subst ch' st'. unfold progressSend.
    destruct id as [|c id]; [congruence |]. fold ch.
    destruct (res ch) as [r|] eqn:Hres; rewrite channelOf_insert.
    + rewrite received_write. split; reflexivity.
    + cbn [buffer written]. rewrite push_shift_lastN by exact Hlen.
      split; reflexivity.
  - intros r now'. unfold subscribe. rewrite received_write, messages_app.
    rewrite messages_replay. reflexivity.
Qed.

(** A second message to a channel that nobody listens to. *)
Lemma C3_send_buffers_only_when_detached_witness :
  let st := after [OpSend "run1" "first" 1] in
  "run1" <> EmptyString /\
  withinCap st /\
  buffer (channelOf (progressSend "run1" "second" 2 st) "run1") =
    lastN 2000 (buffer (channelOf st "run1") ++ ["second"]).
Proof.
  intros st.
  assert (Hid : "run1" <> EmptyString) by discriminate.
  assert (Hcap : withinCap st) by apply after_withinCap.
  pose proof (C3_send_buffers_only_when_detached "run1" "second" 2 st Hid Hcap)
    as (_ & _ & H & _).
  split; [exact Hid |]. split; [exact Hcap |]. exact (proj1 H).
Defined.

(** C3 as stated fails: a message sent while a subscriber is attached is
    written to it and not buffered, so after it disconnects a later
    subscriber is replayed nothing; and a send with an empty id does
    nothing at all. *)
Lemma C3_live_send_is_not_buffered :
  let st1 := subscribe "run1" 7 100 emptyRegistry in
  let st2 := progressSend "run1" "x" 101 st1 in
  let st3 := subscribe "run1" 8 102 (close "run1" 7 st2) in
  received st2 7 = [Ready 100; Data 101 "x"] /\
  buffer (channelOf st2 "run1") = [] /\
  received st3 8 = [Ready 102] /\
  progressSend EmptyString "x" 101 st1 = st1.
Proof. vm_compute. repeat split. Qed.

End ProgressFacts.

(** ** Maps in insertion order *)

Section JsMapFacts.

Context {K V : Type} `{EqDecision K}.

Lemma get_None_iff (m : list (K * V)) (k : K) :
  JsMap.get m k = None <-> k ∉ JsMap.keys m.
Proof.
  induction m as [|[k' v] m IH]; simpl.
  - split; [intros _; apply not_elem_of_nil | reflexivity].
  - destruct (decide (k = k')) as [->|Hne].
    + split; [discriminate | intros Hn; exfalso; apply Hn; left].
    + rewrite IH, not_elem_of_cons. tauto.
Qed.

Lemma has_true_iff (m : list (K * V)) (k : K) :
  JsMap.has m k = true <-> k ∈ JsMap.keys m.
Proof.
  unfold JsMap.has. pose proof (get_None_iff m k) as Hn.
  destruct (JsMap.get m k).
  - split; [intros _ | reflexivity].
    destruct (decide (k ∈ JsMap.keys m)) as [Hin|Hnin]; [exact Hin |].
    apply Hn in Hnin. discriminate.
  - split; [discriminate | intros Hin]. exfalso. apply Hn; [reflexivity | exact Hin].
Qed.

Lemma has_false_iff (m : list (K * V)) (k : K) :
  JsMap.has m k = false <-> k ∉ JsMap.keys m.
Proof.
  rewrite <- has_true_iff. destruct (JsMap.has m k); split; congruence.
Qed.

(** Setting an absent key appends the entry. *)
Lemma set_fresh (m : list (K * V)) (k : K) (v : V) :
  k ∉ JsMap.keys m -> JsMap.set m k v = m ++ [(k, v)].
Proof.
  induction m as [|[k' v'] m IH]; simpl; intros Hn; [reflexivity |].
  apply not_elem_of_cons in Hn as [Hne Hn].
  destruct (decide (k = k')); [contradiction |]. rewrite IH by exact Hn. reflexivity.
Qed.

(** Setting a present key keeps the keys and their order. *)
Lemma set_keys_present (m : list (K * V)) (k : K) (v : V) :
  k ∈ JsMap.keys m -> JsMap.keys (JsMap.set m k v) = JsMap.keys m.
Proof.
  induction m as [|[k' v'] m IH]; simpl; intros Hin.
  - apply elem_of_nil in Hin. contradiction.
  - destruct (decide (k = k')) as [->|Hne]; [reflexivity |].
    simpl. f_equal. apply IH. apply elem_of_cons in Hin as [?|?]; [contradiction | assumption].
Qed.

Lemma get_set_eq (m : list (K * V)) (k : K) (v : V) :
  JsMap.get (JsMap.set m k v) k = Some v.
Proof.
  induction m as [|[k' v'] m IH]; simpl.
  - destruct (decide (k = k)); [reflexivity | contradiction].
  - destruct (decide (k = k')) as [->|Hne]; simpl.
    + destruct (decide (k' = k')); [reflexivity | contradiction].
    + destruct (decide (k = k')); [contradiction | exact IH].
Qed.

Lemma get_set_ne (m : list (K * V)) (k k' : K) (v : V) :
  k <> k' -> JsMap.get (JsMap.set m k v) k' = JsMap.get m k'.
Proof.
  intros Hne. induction m as [|[k0 v0] m IH]; simpl.
  - destruct (decide (k' = k)); [congruence | reflexivity].
  - destruct (decide (k = k0)) as [->|Hne0]; simpl.
    + destruct (decide (k' = k0)); [congruence | reflexivity].
    + destruct (decide (k' = k0)); [reflexivity | exact IH].
Qed.

End JsMapFacts.

(** ** First occurrences by sha *)

Section FirstBySha.

Import SpecCollect.

Lemma keys_entries (seen : list (string * Commit)) (cs : list Commit) :
  JsMap.keys (seen ++ entries cs) = JsMap.keys seen ++ map sha cs.
Proof.
  unfold JsMap.keys, entries. rewrite map_app, map_map. reflexivity.
Qed.

Lemma values_entries (seen : list (string * Commit)) (cs : list Commit) :
  JsMap.values (seen ++ entries cs) = JsMap.values seen ++ cs.
Proof.
  unfold JsMap.values, entries. rewrite map_app, map_map, map_id. reflexivity.
Qed.

Lemma firstBySha_elem (K : list string) (l : list Commit) (c : Commit) :
  c ∈ firstBySha K l -> c ∈ l /\ sha c ∉ K.
Proof.
  revert K. induction l as [|x l IH]; intros K; simpl.
  - intros H. apply elem_of_nil in H. contradiction.
  - destruct (bool_decide (sha x ∈ K)) eqn:E.
    + intros H. apply IH in H as [? ?]. split; [right; assumption | assumption].
    + apply bool_decide_eq_false in E.
      intros H. apply elem_of_cons in H as [-> | H].
      * split; [left | exact E].
      * apply IH in H as [Hin Hn]. split; [right; exact Hin |].
        intros HK. apply Hn. apply elem_of_app. left. exact HK.
Qed.

Lemma firstBySha_app (K : list string) (l1 l2 : list Commit) :
  firstBySha K (l1 ++ l2) =
  firstBySha K l1 ++ firstBySha (K ++ map sha (firstBySha K l1)) l2.
Proof.
  revert K. induction l1 as [|x l1 IH]; intros K; simpl.
  - rewrite app_nil_r. reflexivity.
  - destruct (bool_decide (sha x ∈ K)); [apply IH |].
    simpl. rewrite IH. rewrite <- app_assoc. reflexivity.
Qed.

Lemma firstBySha_NoDup (K : list string) (l : list Commit) :
  NoDup (map sha (firstBySha K l)).
Proof.
  revert K. induction l as [|x l IH]; intros K; simpl.
  - constructor.
  - destruct (bool_decide (sha x ∈ K)); [apply IH |].
    simpl. constructor; [| apply IH].
    intros Hin. apply list_elem_of_fmap in Hin as (c & Hsha & Hc).
    apply firstBySha_elem in Hc as [_ Hn]. apply Hn.
    apply elem_of_app. right. rewrite Hsha. left.
Qed.

(** A sha that occurs in [l] and not in [K] is carried by a first
    occurrence. *)
Lemma firstBySha_covers (K : list string) (l : list Commit) (c : Commit) :
  c ∈ l -> sha c ∉ K -> sha c ∈ map sha (firstBySha K l).
Proof.
  revert K. induction l as [|x l IH]; intros K Hin Hn; simpl.
  - apply elem_of_nil in Hin. contradiction.
  - destruct (bool_decide (sha x ∈ K)) eqn:E.
    + apply bool_decide_eq_true in E.
      apply elem_of_cons in Hin as [-> | Hin]; [contradiction |].
      apply IH; assumption.
    + simpl. destruct (decide (sha c = sha x)) as [Heq | Hne].
      * rewrite Heq. left.
      * right. apply elem_of_cons in Hin as [-> | Hin]; [congruence |].
        apply IH; [exact Hin |].
        intros HK. apply elem_of_app in HK as [HK | HK]; [contradiction |].
        apply list_elem_of_singleton in HK. contradiction.
Qed.

End FirstBySha.

(** ** The collection loops *)

Section CollectLoops.

Import Analyze SpecCollect.

Lemma size_app_entries (seen : list (string * Commit)) (cs : list Commit) :
  JsMap.size (seen ++ entries cs) = JsMap.size seen + Z.of_nat (length cs).
Proof.
  unfold JsMap.size, entries. rewrite length_app, length_map. lia.
Qed.

(** The inner loop inserts first occurrences of kept commits until the map
    has reached the cap; when the map is at or above the cap from the start
    it still inserts one. *)
Lemma commitLoop_spec (inc : bool) (max : Z) (l : list Commit)
    (seen : list (string * Commit)) :
  commitLoop inc max l seen =
  seen ++ entries (firstn (Z.to_nat (Z.max 1 (max - JsMap.size seen)))
                     (firstBySha (JsMap.keys seen) (filter (kept inc) l))).
Proof.
  revert seen. induction l as [|c l IH]; intros seen.
  - simpl. rewrite firstn_nil. simpl. rewrite app_nil_r. reflexivity.
  - cbn [commitLoop]. rewrite filter_cons.
    destruct (decide (kept inc c)) as [Hk | Hk]; unfold kept in Hk;
      destruct (negb inc && isMergeCommit c) eqn:Hm; cbn [negb] in Hk;
      try contradiction; try (exfalso; apply Hk; exact I).
    + cbn [firstBySha].
      destruct (JsMap.has seen (sha c)) eqn:Hhas; cbn [negb].
      * apply has_true_iff in Hhas.
        rewrite (bool_decide_eq_true_2 _ Hhas). apply IH.
      * apply has_false_iff in Hhas.
        rewrite (bool_decide_eq_false_2 _ Hhas).
        rewrite (set_fresh _ _ _ Hhas).
        change [(sha c, c)] with (entries [c]).
        destruct (JsMap.size (seen ++ entries [c]) >=? max) eqn:Hcap.
        -- rewrite size_app_entries in Hcap. cbn [length] in Hcap.
           apply Z.geb_le in Hcap.
           replace (Z.to_nat (Z.max 1 (max - JsMap.size seen))) with 1%nat by lia.
           reflexivity.
        -- rewrite IH. rewrite size_app_entries in *. cbn [length] in *.
           assert (Hlt : JsMap.size seen + 1 < max).
           { destruct (Z.geb_spec (JsMap.size seen + Z.of_nat 1) max); [discriminate | lia]. }
           rewrite keys_entries. cbn [map].
           replace (Z.to_nat (Z.max 1 (max - JsMap.size seen)))
             with (S (Z.to_nat (Z.max 1 (max - (JsMap.size seen + Z.of_nat 1))))) by lia.
           cbn [firstn]. unfold entries. cbn [map].
           rewrite <- app_assoc. reflexivity.
    + apply IH.
Qed.

(** The outer loop inserts a prefix of the first occurrences of the kept
    commits of all branches in enumeration order; below the cap, the prefix
    is as long as the room that is left. *)
Lemma branchLoop_spec (env : Env) (inc : bool) (max : Z) (names : list string)
    (seen : list (string * Commit)) (tr : list Call) :
  exists n : nat,
    fst (branchLoop env inc max names seen tr) =
    seen ++ entries (firstn n (firstBySha (JsMap.keys seen)
                                 (filter (kept inc) (listedBy env names)))) /\
    (JsMap.size seen < max -> n = Z.to_nat (max - JsMap.size seen)).
Proof.
  revert seen tr. induction names as [|b names IH]; intros seen tr.
  - exists (Z.to_nat (max - JsMap.size seen)). split; [| reflexivity].
    unfold listedBy. simpl. rewrite firstn_nil. simpl. rewrite app_nil_r. reflexivity.
  - unfold listedBy. cbn [map concat branchLoop]. fold (listedBy env names).
    unfold bind, call. rewrite filter_app, firstBySha_app.
    rewrite commitLoop_spec.
    set (A := firstBySha (JsMap.keys seen) (filter (kept inc) (listCommits env b))).
    set (m := Z.to_nat (Z.max 1 (max - JsMap.size seen))).
    destruct (JsMap.size (seen ++ entries (firstn m A)) >=? max) eqn:Hcap.
    + exists (length (firstn m A)). rewrite size_app_entries in Hcap.
      apply Z.geb_le in Hcap. rewrite length_firstn in *. split.
      * cbn [fst ret]. f_equal. f_equal.
        destruct (Nat.le_ge_cases m (length A)) as [Hle | Hge].
        -- rewrite Nat.min_l by exact Hle. rewrite firstn_app.
           replace (m - length A)%nat with 0%nat by lia.
           rewrite firstn_O, app_nil_r. reflexivity.
        -- rewrite Nat.min_r by exact Hge. rewrite firstn_app.
           replace (length A - length A)%nat with 0%nat by lia.
           rewrite firstn_O, app_nil_r.
           rewrite !firstn_all2 by lia. reflexivity.
      * intros Hlt. subst m. lia.
    + assert (Hlt : JsMap.size seen + Z.of_nat (length (firstn m A)) < max).
      { rewrite size_app_entries in Hcap.
        destruct (Z.geb_spec (JsMap.size seen + Z.of_nat (length (firstn m A))) max);
          [discriminate | lia]. }
      assert (HA : firstn m A = A).
      { apply firstn_all2. rewrite length_firstn in Hlt. subst m. lia. }
      rewrite HA in *.
      destruct (IH (seen ++ entries A) (tr ++ [CallListCommits b])) as (n' & Heq & Hn').
      exists (length A + n')%nat. split.
      * rewrite Heq. rewrite keys_entries.
        rewrite firstn_app. rewrite (firstn_all2 A) by lia.
        replace (length A + n' - length A)%nat with n' by lia.
        unfold entries. rewrite map_app, <- app_assoc. reflexivity.
      * intros _. rewrite size_app_entries in Hn'. rewrite Hn' by lia. lia.
Qed.

(** The commits that the ANY path returns, before and after sorting. *)
Lemma collectAny_fst (env : Env) (req : Request) (tr : list Call) :
  fst (collectAny env req tr) =
  JsArray.sort byDateDesc
    (JsMap.values
       (fst (branchLoop env (includeMerges req) (maxCommits req) (listBranches env) []
               (tr ++ [CallListBranches])))).
Proof.
  unfold collectAny, bind, call, ret.
  destruct (branchLoop _ _ _ _ _ _). reflexivity.
Qed.

Lemma collectAny_prefix (env : Env) (req : Request) (tr : list Call) :
  exists n : nat,
    fst (collectAny env req tr) =
    JsArray.sort byDateDesc
      (firstn n (firstBySha []
                   (filter (kept (includeMerges req))
                      (listedBy env (listBranches env))))) /\
    (0 < maxCommits req -> n = Z.to_nat (maxCommits req)).
Proof.
  destruct (branchLoop_spec env (includeMerges req) (maxCommits req) (listBranches env)
              [] (tr ++ [CallListBranches])) as (n & Heq & Hn).
  exists n. rewrite collectAny_fst, Heq. split.
  - change ([] ++ ?x) with x. change (JsMap.keys []) with (@nil string).
    rewrite <- (app_nil_l (entries _)), values_entries. reflexivity.
  - intros Hpos. rewrite Hn; [f_equal; unfold JsMap.size; simpl; lia |].
    unfold JsMap.size. simpl. lia.
Qed.

End CollectLoops.

(** ** Sorting with a comparator that subtracts keys *)

Section SortFacts.

Context {A : Type} (key : A -> Z) (compareFn : A -> A -> Z).
Hypothesis compareFn_key : forall a b, compareFn a b = key b - key a.

(** [Q] relates elements by their place in the array before sorting. *)
Variable Q : A -> A -> Prop.

Local Abbreviation keyThenPlace := (SpecSort.keyThenPlace key Q).

Lemma sortInsert_Permutation (x : A) (l : list A) :
  JsArray.sortInsert compareFn x l ≡ₚ x :: l.
Proof.
  induction l as [|y l IH]; simpl; [reflexivity |].
  destruct (compareFn x y <=? 0); [reflexivity |].
  rewrite IH. apply perm_swap.
Qed.

Lemma sort_Permutation (l : list A) : JsArray.sort compareFn l ≡ₚ l.
Proof.
  induction l as [|x l IH]; simpl; [reflexivity |].
  rewrite sortInsert_Permutation, IH. reflexivity.
Qed.

Lemma sortInsert_sorted (x : A) (s : list A) :
  StronglySorted keyThenPlace s ->
  Forall (Q x) s ->
  StronglySorted keyThenPlace (JsArray.sortInsert compareFn x s).
Proof.
  induction s as [|y s IH]; intros Hs HQ; simpl.
  - repeat constructor.
  - apply StronglySorted_cons in Hs as [Hy Hs].
    apply Forall_cons in HQ as [HQy HQ].
    rewrite compareFn_key.
    destruct (Z.leb_spec (key y - key x) 0) as [Hle | Hgt].
    + apply StronglySorted_cons. split; [| apply StronglySorted_cons; auto].
      apply Forall_cons. split.
      * unfold SpecSort.keyThenPlace. destruct (Z.eq_dec (key x) (key y)); [right; auto | left; lia].
      * rewrite Forall_forall in *. intros z Hz.
        specialize (Hy z Hz). specialize (HQ z Hz). unfold SpecSort.keyThenPlace in *.
        destruct (Z.eq_dec (key x) (key z)); [right; auto | left; lia].
    + apply StronglySorted_cons. split; [| apply IH; assumption].
      rewrite sortInsert_Permutation. apply Forall_cons. split; [| exact Hy].
      left. lia.
Qed.

(** The sort is stable: its result is ordered by key, and elements of equal
    key stay in the order they had. *)
Lemma sort_stable (l : list A) :
  StronglySorted Q l -> StronglySorted keyThenPlace (JsArray.sort compareFn l).
Proof.
  induction l as [|x l IH]; intros Hl; simpl; [constructor |].
  apply StronglySorted_cons in Hl as [Hx Hl].
  apply sortInsert_sorted; [apply IH; exact Hl |].
  rewrite sort_Permutation. exact Hx.
Qed.

End SortFacts.

Lemma StronglySorted_weaken {A : Type} (R R' : A -> A -> Prop) (l : list A) :
  (forall x y, x ∈ l -> y ∈ l -> R x y -> R' x y) ->
  StronglySorted R l -> StronglySorted R' l.
Proof.
  induction l as [|x l IH]; intros Himp Hs; [constructor |].
  apply StronglySorted_cons in Hs as [Hx Hs].
  apply StronglySorted_cons. split.
  - rewrite Forall_forall in *. intros y Hy.
    apply Himp; [left | right; exact Hy | apply Hx; exact Hy].
  - apply IH; [| exact Hs]. intros y z Hy Hz. apply Himp; right; assumption.
Qed.

Lemma StronglySorted_True {A : Type} (l : list A) :
  StronglySorted (fun _ _ => True) l.
Proof.
  induction l; constructor; [assumption |]. apply Forall_forall. intros; exact I.
Qed.

(** A sort by descending key yields a list in descending key order. *)
Lemma sort_descending {A : Type} (key : A -> Z) (compareFn : A -> A -> Z) (l : list A) :
  (forall a b, compareFn a b = key b - key a) ->
  StronglySorted (fun x y => key y <= key x) (JsArray.sort compareFn l).
Proof.
  intros Hcmp.
  apply (StronglySorted_weaken (SpecSort.keyThenPlace key (fun _ _ => True))).
  - intros x y _ _ [H | [H _]]; lia.
  - apply sort_stable; [exact Hcmp | apply StronglySorted_True].
Qed.

(** ** Cap, uniqueness and attribution of the collected commits *)

Section CollectFacts.

Import Analyze SpecCollect.

Lemma slice_prefix_le {A : Type} (l : list A) (e : Z) :
  0 <= e -> Z.of_nat (length (JsArray.slice l 0 e)) <= e.
Proof.
  intros He. pose proof (slice_prefix_length l (Z.to_nat e)) as H.
  rewrite Z2Nat.id in H by exact He. lia.
Qed.

Lemma collect_any (env : Env) (req : Request) :
  branch req = Some ANY_BRANCH -> collect env req = collectAny env req.
Proof. unfold collect. intros ->. reflexivity. Qed.

(** Either path of [collect] is taken. *)
Lemma collect_cases (env : Env) (req : Request) :
  collect env req = collectAny env req \/ collect env req = collectSingle env req.
Proof.
  unfold collect. destruct (branch req) as [b|]; [| right; reflexivity].
  destruct (String.eqb b ANY_BRANCH); [left | right]; reflexivity.
Qed.

(** C6: with a positive cap, the collector returns at most [maxCommits]
    commits, on the ANY path and on the single-branch path. *)
Theorem C6_collect_length_le_maxCommits (env : Env) (req : Request) (tr : list Call) :
  0 < maxCommits req ->
  Z.of_nat (length (fst (collectAny env req tr))) <= maxCommits req /\
  Z.of_nat (length (fst (collectSingle env req tr))) <= maxCommits req /\
  Z.of_nat (length (fst (collect env req tr))) <= maxCommits req.
Proof.
  intros Hpos.
  assert (Hany : Z.of_nat (length (fst (collectAny env req tr))) <= maxCommits req).
  { destruct (collectAny_prefix env req tr) as (n & -> & Hn).
    rewrite (Permutation_length (sort_Permutation byDateDesc _)).
    rewrite length_firstn, (Hn Hpos). lia. }
  assert (Hsingle : Z.of_nat (length (fst (collectSingle env req tr))) <= maxCommits req).
  { unfold collectSingle, bind, call, ret. cbn [fst].
    etransitivity; [apply slice_prefix_le; lia | lia]. }
  split; [exact Hany |]. split; [exact Hsingle |].
  destruct (collect_cases env req) as [-> | ->]; assumption.
Qed.

(** Two branches sharing a commit, cap 2, on both paths. *)
Lemma C6_collect_length_le_maxCommits_witness :
  let c1 := Sample.commit "a1" [] (Some 30) in
  let c2 := Sample.commit "b2" ["a1"] (Some 20) in
  let c3 := Sample.commit "c3" ["b2"] (Some 10) in
  let env := Sample.env [("main", [c1; c2; c3]); ("dev", [c2; c3])] None in
  0 < 2 /\
  Z.of_nat (length (fst (collectAny env (Sample.request "__ANY__" false 2) []))) <= 2 /\
  Z.of_nat (length (fst (collectSingle env (Sample.request "main" false 2) []))) <= 2.
Proof.
  intros c1 c2 c3 env. split; [lia |].
  pose proof (C6_collect_length_le_maxCommits env (Sample.request "__ANY__" false 2) []
                ltac:(simpl; lia)) as (H1 & _ & _).
  pose proof (C6_collect_length_le_maxCommits env (Sample.request "main" false 2) []
                ltac:(simpl; lia)) as (_ & H2 & _).
  split; [exact H1 | exact H2].
Defined.

Lemma listedBy_cons (env : Env) (b : string) (names : list string) :
  listedBy env (b :: names) = listCommits env b ++ listedBy env names.
Proof. reflexivity. Qed.

(** A first occurrence among the kept commits of all branches comes from a
    branch before which no branch lists a kept commit of that sha. *)
Lemma firstBySha_first_branch (env : Env) (inc : bool) (names : list string)
    (K : list string) (c : Commit) :
  c ∈ firstBySha K (filter (kept inc) (listedBy env names)) ->
  exists before b after,
    names = before ++ b :: after /\
    c ∈ listCommits env b /\
    kept inc c /\
    forall b' c', b' ∈ before -> c' ∈ listCommits env b' -> kept inc c' ->
                  sha c' <> sha c.
Proof.
  revert K. induction names as [|b names IH]; intros K Hc.
  - apply elem_of_nil in Hc. contradiction.
  - rewrite listedBy_cons, filter_app, firstBySha_app in Hc.
    apply elem_of_app in Hc as [Hc | Hc].
    + apply firstBySha_elem in Hc as [Hc _].
      apply list_elem_of_filter in Hc as [Hk Hc].
      exists [], b, names. repeat split; try assumption.
      intros b' c' Hb'. apply elem_of_nil in Hb'. contradiction.
    + pose proof (firstBySha_elem _ _ _ Hc) as [_ Hfresh].
      destruct (IH _ Hc) as (before & b0 & after & -> & Hin & Hk & Hfirst).
      exists (b :: before), b0, after. repeat split; try assumption.
      intros b' c' Hb' Hc' Hk' Heq.
      apply elem_of_cons in Hb' as [-> | Hb']; [| exact (Hfirst b' c' Hb' Hc' Hk' Heq)].
      apply Hfresh. apply elem_of_app.
      destruct (decide (sha c ∈ K)) as [HK | HK]; [left; exact HK | right].
      rewrite <- Heq.
      apply firstBySha_covers; [| rewrite Heq; exact HK].
      apply list_elem_of_filter. split; assumption.
Qed.

(** C5: under the ANY sentinel no sha is returned twice, and a returned
    commit is the one listed by the first branch, in enumeration order, that
    lists a commit of its sha passing the merge filter. *)
Theorem C5_any_shas_unique (env : Env) (req : Request) (tr : list Call) :
  NoDup (map sha (fst (collectAny env req tr))) /\
  forall c, c ∈ fst (collectAny env req tr) ->
    exists before b after,
      listBranches env = before ++ b :: after /\
      c ∈ listCommits env b /\
      kept (includeMerges req) c /\
      forall b' c', b' ∈ before -> c' ∈ listCommits env b' ->
                    kept (includeMerges req) c' -> sha c' <> sha c.
Proof.
  destruct (collectAny_prefix env req tr) as (n & -> & _).
  split.
  - rewrite (sort_Permutation byDateDesc _).
    rewrite <- firstn_map.
    exact (sublist_NoDup _ _ (firstBySha_NoDup _ _) (sublist_take _ _)).
  - intros c Hc. rewrite (sort_Permutation byDateDesc _) in Hc.
    apply elem_of_take in Hc as (i & Hc & _).
    apply list_elem_of_lookup_2 in Hc.
    exact (firstBySha_first_branch _ _ _ _ _ Hc).
Qed.

End CollectFacts.

(** ** Order of the commits collected across branches *)

Section CollectOrder.

Import Analyze SpecCollect.

Lemma listedBy_Permutation (env : Env) (names names' : list string) :
  names ≡ₚ names' -> listedBy env names ≡ₚ listedBy env names'.
Proof.
  induction 1 as [| b l l' _ IH | a b l | l l' l'' _ IH1 _ IH2].
  - reflexivity.
  - rewrite !listedBy_cons, IH. reflexivity.
  - rewrite !listedBy_cons, !app_assoc.
    apply Permutation_app_tail, Permutation_app_comm.
  - etransitivity; eassumption.
Qed.

Lemma firstBySha_length_le (K : list string) (l : list Commit) :
  (length (firstBySha K l) <= distinctShas l)%nat.
Proof.
  unfold distinctShas.
  rewrite <- (length_map sha (firstBySha K l)).
  rewrite <- (size_list_to_set (C := gset string) (map sha (firstBySha K l)))
    by apply firstBySha_NoDup.
  apply subseteq_size. intros s Hs.
  apply elem_of_list_to_set in Hs. apply elem_of_list_to_set.
  apply list_elem_of_fmap in Hs as (c & -> & Hc).
  apply firstBySha_elem in Hc as [Hc _].
  apply list_elem_of_fmap. exists c. split; [reflexivity | exact Hc].
Qed.

Lemma distinctShas_Permutation (l l' : list Commit) :
  l ≡ₚ l' -> distinctShas l = distinctShas l'.
Proof.
  intros Hperm. unfold distinctShas. f_equal.
  apply list_to_set_perm_L, Permutation_map, Hperm.
Qed.

(** When a sha stands for one commit object, the first occurrences are the
    commits of the list. *)
Lemma firstBySha_elem_iff (l : list Commit) (c : Commit) :
  (forall x y, x ∈ l -> y ∈ l -> sha x = sha y -> x = y) ->
  c ∈ firstBySha [] l <-> c ∈ l.
Proof.
  intros Hsha. split.
  - intros Hc. apply firstBySha_elem in Hc as [Hc _]. exact Hc.
  - intros Hc.
    pose proof (firstBySha_covers [] l c Hc (not_elem_of_nil _)) as Hcov.
    apply list_elem_of_fmap in Hcov as (c' & Heq & Hc').
    pose proof (firstBySha_elem _ _ _ Hc') as [Hl _].
    rewrite (Hsha c c' Hc Hl Heq). exact Hc'.
Qed.

Lemma collectAny_sorted (env : Env) (req : Request) (tr : list Call) :
  StronglySorted newestFirst (fst (collectAny env req tr)).
Proof.
  rewrite collectAny_fst.
  apply (sort_descending sortDate byDateDesc). reflexivity.
Qed.

(** Below the cap, the ANY path returns every first occurrence. *)
Lemma collectAny_uncapped (env : Env) (req : Request) (tr : list Call) :
  0 < maxCommits req ->
  Z.of_nat (distinctShas (filter (kept (includeMerges req))
                            (listedBy env (listBranches env)))) <= maxCommits req ->
  fst (collectAny env req tr) =
  JsArray.sort byDateDesc
    (firstBySha [] (filter (kept (includeMerges req)) (listedBy env (listBranches env)))).
Proof.
  intros Hpos Hcap.
  destruct (collectAny_prefix env req tr) as (n & -> & Hn).
  rewrite firstn_all2; [reflexivity |].
  rewrite (Hn Hpos).
  pose proof (firstBySha_length_le []
                (filter (kept (includeMerges req)) (listedBy env (listBranches env)))).
  lia.
Qed.

Lemma before_sorted {A : Type} (pre l : list A) :
  StronglySorted (before (pre ++ l)) l.
Proof.
  revert pre. induction l as [|x l IH]; intros pre; [constructor |].
  apply StronglySorted_cons. split.
  - apply Forall_forall. intros y Hy.
    apply list_elem_of_lookup in Hy as [j Hj].
    exists (length pre), (length pre + S j)%nat.
    split; [lia |]. split.
    + apply list_lookup_middle. reflexivity.
    + rewrite lookup_app_r by lia.
      replace (length pre + S j - length pre)%nat with (S j) by lia. exact Hj.
  - specialize (IH (pre ++ [x])). rewrite <- app_assoc in IH. exact IH.
Qed.

Lemma collectAny_ties (env : Env) (req : Request) (tr : list Call) :
  StronglySorted (SpecSort.keyThenPlace sortDate (before (firstListed env req)))
    (fst (collectAny env req tr)).
Proof.
  destruct (collectAny_prefix env req tr) as (n & -> & _).
  fold (firstListed env req).
  apply (sort_stable sortDate byDateDesc (fun a b => eq_refl)).
  apply (StronglySorted_app_1_l _ _ (drop n (firstListed env req))).
  rewrite take_drop. exact (before_sorted [] (firstListed env req)).
Qed.

(** C9, as far as the code goes. For every repository state the ANY result
    is ordered by author time stamp, newest first, with the committer time
    stamp and then the epoch standing in for a missing one, and commits of
    equal time stamp stand in the order in which the enumeration first
    lists them. When a sha stands for one commit object, time stamps differ
    between commits and the cap is not exceeded, the result does not depend
    on the order in which branches are enumerated. *)
Theorem C9_any_sorted_and_order_independent (env : Env) (names' : list string)
    (req : Request) (tr tr' : list Call) :
  let all := listedBy env (listBranches env) in
  StronglySorted newestFirst (fst (collectAny env req tr)) /\
  StronglySorted (SpecSort.keyThenPlace sortDate (before (firstListed env req)))
    (fst (collectAny env req tr)) /\
  (listBranches env ≡ₚ names' ->
   (forall x y, x ∈ all -> y ∈ all -> sha x = sha y -> x = y) ->
   (forall x y, x ∈ all -> y ∈ all -> sortDate x = sortDate y -> x = y) ->
   0 < maxCommits req ->
   Z.of_nat (distinctShas (filter (kept (includeMerges req)) all)) <= maxCommits req ->
   fst (collectAny (withBranches env names') req tr') = fst (collectAny env req tr)).
Proof.
  intros all.
  split; [apply collectAny_sorted |].
  split; [apply collectAny_ties |].
  intros Hperm Hsha Hdate Hpos Hcap.
  assert (Hall : listedBy (withBranches env names') names' ≡ₚ all).
  { change (listedBy (withBranches env names') names') with (listedBy env names').
    symmetry. apply listedBy_Permutation, Hperm. }
  set (kept1 := filter (kept (includeMerges req)) all) in *.
  set (kept2 := filter (kept (includeMerges req))
                  (listedBy (withBranches env names') names')).
  assert (Hkept : kept2 ≡ₚ kept1) by (subst kept1 kept2; rewrite Hall; reflexivity).
  assert (Hsub1 : forall x, x ∈ kept1 -> x ∈ all).
  { intros x Hx. apply list_elem_of_filter in Hx as [_ Hx]. exact Hx. }
  assert (Hsub2 : forall x, x ∈ kept2 -> x ∈ all).
  { intros x Hx. apply Hsub1. rewrite <- Hkept. exact Hx. }
  assert (Hfirst : firstBySha [] kept2 ≡ₚ firstBySha [] kept1).
  { apply NoDup_Permutation.
    - eapply NoDup_fmap_1, firstBySha_NoDup.
    - eapply NoDup_fmap_1, firstBySha_NoDup.
    - intros x. rewrite !firstBySha_elem_iff.
      + rewrite Hkept. reflexivity.
      + intros a b Ha Hb. apply Hsha; auto.
      + intros a b Ha Hb. apply Hsha; auto. }
  rewrite (collectAny_uncapped env req tr Hpos Hcap).
  rewrite (collectAny_uncapped (withBranches env names') req tr' Hpos).
  2:{ change (Z.of_nat (distinctShas kept2) <= maxCommits req).
      rewrite (distinctShas_Permutation _ _ Hkept). exact Hcap. }
  change (JsArray.sort byDateDesc (firstBySha [] kept2) =
          JsArray.sort byDateDesc (firstBySha [] kept1)).
  apply StronglySorted_unique_strong with (R := newestFirst).
  - intros x1 x2 Hx1 Hx2 H12 H21. unfold newestFirst in *.
    rewrite (sort_Permutation byDateDesc) in Hx1, Hx2.
    apply firstBySha_elem in Hx1 as [Hx1 _]. apply firstBySha_elem in Hx2 as [Hx2 _].
    apply Hdate; [auto | auto | lia].
  - apply (sort_descending sortDate byDateDesc). reflexivity.
  - apply (sort_descending sortDate byDateDesc). reflexivity.
  - rewrite !(sort_Permutation byDateDesc). exact Hfirst.
Qed.

End CollectOrder.

Section CollectOrderCases.

Import Analyze SpecCollect.

(** Membership in a list that is written out. *)
Ltac elem_cases H :=
  repeat (apply elem_of_cons in H as [-> | H]);
  try (apply elem_of_nil in H; contradiction).

(** Two branches that share a commit, enumerated in either order. *)
Lemma C9_any_sorted_and_order_independent_witness :
  let env := Sample.env [("main", [Sample.c2; Sample.c1]);
                         ("dev", [Sample.c3; Sample.c2])] None in
  let req := Sample.request "__ANY__" false 5 in
  listBranches env ≡ₚ ["dev"; "main"] /\
  StronglySorted newestFirst (fst (collectAny env req [])) /\
  fst (collectAny (withBranches env ["dev"; "main"]) req []) =
  fst (collectAny env req []).
Proof.
  intros env req.
  assert (Hperm : listBranches env ≡ₚ ["dev"; "main"]) by apply perm_swap.
  assert (Hsha : forall x y,
             x ∈ listedBy env (listBranches env) ->
             y ∈ listedBy env (listBranches env) -> sha x = sha y -> x = y).
  { intros x y Hx Hy. vm_compute in Hx, Hy. elem_cases Hx; elem_cases Hy;
      intros H; first [reflexivity | discriminate H]. }
  assert (Hdate : forall x y,
             x ∈ listedBy env (listBranches env) ->
             y ∈ listedBy env (listBranches env) -> sortDate x = sortDate y -> x = y).
  { intros x y Hx Hy. vm_compute in Hx, Hy. elem_cases Hx; elem_cases Hy;
      intros H; first [reflexivity | discriminate H]. }
  assert (Hpos : 0 < maxCommits req) by (simpl; lia).
  assert (Hcap : Z.of_nat (distinctShas (filter (kept (includeMerges req))
                                           (listedBy env (listBranches env)))) <=
                 maxCommits req).
  { vm_compute. discriminate. }
  split; [exact Hperm |].
  destruct (C9_any_sorted_and_order_independent env ["dev"; "main"] req [] [])
    as (Hsorted & _ & Hsame).
  split; [exact Hsorted | exact (Hsame Hperm Hsha Hdate Hpos Hcap)].
Defined.

(** C9 as stated fails on the second half. Two commits of equal time stamp
    come out in enumeration order, and under a cap of 1 the two enumeration
    orders return different commits. *)
Lemma C9_branch_order_changes_result :
  let env := Sample.env [("main", [Sample.c1]); ("dev", [Sample.c5])] None in
  let env' := withBranches env ["dev"; "main"] in
  fst (collectAny env (Sample.request "__ANY__" false 5) []) = [Sample.c1; Sample.c5] /\
  fst (collectAny env' (Sample.request "__ANY__" false 5) []) = [Sample.c5; Sample.c1] /\
  fst (collectAny env (Sample.request "__ANY__" false 1) []) = [Sample.c1] /\
  fst (collectAny env' (Sample.request "__ANY__" false 1) []) = [Sample.c5].
Proof. repeat split; reflexivity. Qed.

End CollectOrderCases.

(** ** Merge filter *)

Section MergeFilter.

Import Analyze SpecCollect.

Lemma slice_elem {A : Type} (l : list A) (s e : Z) (x : A) :
  x ∈ JsArray.slice l s e -> x ∈ l.
Proof.
  unfold JsArray.slice. intros H.
  eapply elem_of_sublist; [exact H |].
  etransitivity; [apply sublist_take | apply sublist_drop].
Qed.

Lemma slice_whole {A : Type} (l : list A) (e : Z) :
  Z.of_nat (length l) <= e -> JsArray.slice l 0 e = l.
Proof.
  intros He. unfold JsArray.slice, JsArray.relativeIndex.
  change (0 <? 0) with false. cbv iota.
  destruct (e <? 0) eqn:E; [apply Z.ltb_lt in E; lia |].
  replace (Z.to_nat (Z.min 0 (Z.of_nat (length l)))) with 0%nat by lia.
  cbn [skipn]. apply firstn_all2. lia.
Qed.

Lemma distinctShas_filter_le (P : Commit -> bool) (l : list Commit) :
  (distinctShas (filter P l) <= distinctShas l)%nat.
Proof.
  unfold distinctShas. apply subseteq_size. intros s Hs.
  apply elem_of_list_to_set in Hs. apply elem_of_list_to_set.
  apply list_elem_of_fmap in Hs as (c & -> & Hc).
  apply list_elem_of_filter in Hc as [_ Hc].
  apply list_elem_of_fmap. exists c. split; [reflexivity | exact Hc].
Qed.

Lemma kept_false_not_merge (c : Commit) : kept false c -> isMergeCommit c = false.
Proof. unfold kept. simpl. destruct (isMergeCommit c); simpl; [contradiction | reflexivity]. Qed.

Lemma not_merge_kept (inc : bool) (c : Commit) : isMergeCommit c = false -> kept inc c.
Proof. unfold kept. intros ->. rewrite andb_false_r. exact I. Qed.

Lemma kept_true (c : Commit) : kept true c.
Proof. exact I. Qed.

(** What the ANY path returns is listed and passes the filter. *)
Lemma collectAny_elem (env : Env) (req : Request) (tr : list Call) (c : Commit) :
  c ∈ fst (collectAny env req tr) ->
  c ∈ listedBy env (listBranches env) /\ kept (includeMerges req) c.
Proof.
  destruct (collectAny_prefix env req tr) as (n & -> & _).
  rewrite (sort_Permutation byDateDesc). intros Hc.
  apply elem_of_take in Hc as (i & Hc & _). apply list_elem_of_lookup_2 in Hc.
  apply firstBySha_elem in Hc as [Hc _].
  apply list_elem_of_filter in Hc as [Hk Hc]. split; assumption.
Qed.

(** Below the cap, the ANY path returns the sha of every listed commit that
    passes the filter. *)
Lemma collectAny_covers (env : Env) (req : Request) (tr : list Call) (c : Commit) :
  0 < maxCommits req ->
  Z.of_nat (distinctShas (listedBy env (listBranches env))) <= maxCommits req ->
  c ∈ listedBy env (listBranches env) -> kept (includeMerges req) c ->
  sha c ∈ map sha (fst (collectAny env req tr)).
Proof.
  intros Hpos Hcap Hc Hk.
  rewrite collectAny_uncapped; [| exact Hpos |].
  - rewrite (sort_Permutation byDateDesc).
    apply firstBySha_covers; [| apply not_elem_of_nil].
    apply list_elem_of_filter. split; assumption.
  - pose proof (distinctShas_filter_le (kept (includeMerges req))
                  (listedBy env (listBranches env))). lia.
Qed.

Lemma collectSingle_fst (env : Env) (req : Request) (tr : list Call) :
  fst (collectSingle env req tr) =
  JsArray.slice
    (if includeMerges req then listCommits env (shaParam req)
     else filter (fun c => negb (isMergeCommit c)) (listCommits env (shaParam req)))
    0 (Z.min (maxCommits req) (Z.of_nat (length (listCommits env (shaParam req))))).
Proof. reflexivity. Qed.

Lemma collect_by_path (env : Env) (req : Request) :
  collect env req = if isAny req then collectAny env req else collectSingle env req.
Proof. unfold collect, isAny. destruct (branch req); reflexivity. Qed.

(** C7, as far as the code goes. Without [includeMerges] no commit with two
    or more parents is returned. When the cap does not cut the listing
    short, a listed commit is returned whenever [includeMerges] is set, so a
    listed merge commit is returned exactly then, and the two runs return
    the same commits apart from merge commits. *)
Theorem C7_merges_returned_iff_included (env : Env) (reqT reqF : Request)
    (trT trF : list Call) :
  includeMerges reqT = true ->
  includeMerges reqF = false ->
  branch reqF = branch reqT ->
  maxCommits reqF = maxCommits reqT ->
  let outT := fst (collect env reqT trT) in
  let outF := fst (collect env reqF trF) in
  (forall c, c ∈ outF -> isMergeCommit c = false) /\
  (capNotReached env reqT ->
   (forall c, c ∈ selectedListing env reqT -> sha c ∈ map sha outT) /\
   (forall c, c ∈ outF -> sha c ∈ map sha outT) /\
   (forall c, c ∈ outT -> isMergeCommit c = false -> sha c ∈ map sha outF)).
Proof.
  intros HT HF Hb Hmax outT outF. subst outT outF.
  assert (Hany : isAny reqF = isAny reqT) by (unfold isAny; rewrite Hb; reflexivity).
  assert (Hparam : shaParam reqF = shaParam reqT) by (unfold shaParam; rewrite Hb; reflexivity).
  unfold capNotReached, selectedListing. rewrite !collect_by_path, Hany.
  destruct (isAny reqT).
  - split.
    + intros c Hc. apply collectAny_elem in Hc as [_ Hk].
      rewrite HF in Hk. apply kept_false_not_merge, Hk.
    + intros [Hpos Hcap]. repeat split.
      * intros c Hc. apply collectAny_covers; try assumption.
        rewrite HT. apply kept_true.
      * intros c Hc. apply collectAny_elem in Hc as [Hc _].
        apply collectAny_covers; try assumption. rewrite HT. apply kept_true.
      * intros c Hc Hm. apply collectAny_elem in Hc as [Hc _].
        apply collectAny_covers; try (rewrite Hmax); try assumption.
        apply not_merge_kept, Hm.
  - rewrite !collectSingle_fst, HT, HF, Hparam, Hmax. split.
    + intros c Hc. apply slice_elem in Hc.
      apply list_elem_of_filter in Hc as [Hk _].
      destruct (isMergeCommit c); [contradiction | reflexivity].
    + intros [Hpos Hcap]. rewrite Z.min_r by exact Hcap.
      rewrite (slice_whole (listCommits env (shaParam reqT))) by lia.
      rewrite slice_whole.
      2:{ pose proof (length_filter (fun c : Commit => negb (isMergeCommit c))
                        (listCommits env (shaParam reqT))). lia. }
      repeat split.
      * intros c Hc. apply list_elem_of_fmap. exists c. split; [reflexivity | exact Hc].
      * intros c Hc. apply list_elem_of_filter in Hc as [_ Hc].
        apply list_elem_of_fmap. exists c. split; [reflexivity | exact Hc].
      * intros c Hc Hm. apply list_elem_of_fmap. exists c. split; [reflexivity |].
        apply list_elem_of_filter. split; [rewrite Hm; exact I | exact Hc].
Qed.

End MergeFilter.

Section MergeFilterCases.

Import Analyze SpecCollect.

(** One branch with a merge commit on top, cap above the listing. *)
Lemma C7_merges_returned_iff_included_witness :
  let env := Sample.env [("main", [Sample.m4; Sample.c3; Sample.c2; Sample.c1])] None in
  let reqT := Sample.request "main" true 10 in
  let reqF := Sample.request "main" false 10 in
  capNotReached env reqT /\
  (forall c, c ∈ fst (collect env reqF []) -> isMergeCommit c = false) /\
  (forall c, c ∈ selectedListing env reqT -> sha c ∈ map sha (fst (collect env reqT []))).
Proof.
  intros env reqT reqF.
  assert (Hcap : capNotReached env reqT) by (split; vm_compute; [reflexivity | discriminate]).
  pose proof (C7_merges_returned_iff_included env reqT reqF [] []
                eq_refl eq_refl eq_refl eq_refl) as [HF HT].
  split; [exact Hcap |]. split; [exact HF |]. exact (proj1 (HT Hcap)).
Defined.

(** C7 as stated fails when the cap cuts the listing short. With a merge
    commit on top and a cap of 2, the run without merges returns a plain
    commit that the run with merges does not; and a merge commit listed
    beyond the cap is not returned although merges are included. *)
Lemma C7_cap_changes_plain_commits :
  let env := Sample.env [("main", [Sample.m4; Sample.c3; Sample.c2; Sample.c1]);
                         ("old", [Sample.c3; Sample.c2; Sample.m4])] None in
  fst (collect env (Sample.request "main" true 2) []) = [Sample.m4; Sample.c3] /\
  fst (collect env (Sample.request "main" false 2) []) = [Sample.c3; Sample.c2] /\
  isMergeCommit Sample.c2 = false /\
  fst (collect env (Sample.request "old" true 2) []) = [Sample.c3; Sample.c2] /\
  isMergeCommit Sample.m4 = true.
Proof. repeat split; reflexivity. Qed.

End MergeFilterCases.

(** ** A cap of zero *)

Section CapZero.

Import Analyze SpecCollect.

(** With a cap of zero or less, the ANY path checks the cap only after it
    has stored a commit: the first commit of the first branch that passes
    the filter is returned. *)
Lemma collectAny_nonpositive_cap (env : Env) (req : Request) (tr : list Call)
    (b : string) (names : list string) (c : Commit) (rest : list Commit) :
  maxCommits req <= 0 ->
  listBranches env = b :: names ->
  listCommits env b = c :: rest ->
  kept (includeMerges req) c ->
  fst (collectAny env req tr) = [c].
Proof.
  intros Hmax Hb Hl Hk. rewrite collectAny_fst, Hb.
  cbn [branchLoop]. unfold bind, call. rewrite Hl. cbn [commitLoop].
  unfold kept in Hk. destruct (negb (includeMerges req) && isMergeCommit c);
    [contradiction |].
  assert (Hge : (JsMap.size [(sha c, c)] >=? maxCommits req) = true).
  { apply Z.geb_le. unfold JsMap.size. simpl. lia. }
  cbn [JsMap.has JsMap.get negb JsMap.set]. rewrite Hge.
  cbv beta zeta. rewrite Hge. reflexivity.
Qed.

(** C2 at a failing input: a repository with one branch of three plain
    commits, collected under the ANY sentinel with a cap of zero. One
    commit is returned and its detail is fetched; the single-branch path
    returns none and fetches nothing. *)
Theorem C2_any_cap_zero_returns_a_commit :
  let env := Sample.env [("main", [Sample.c3; Sample.c2; Sample.c1])] None in
  let any := run (collectAndEnrich env (Sample.request "__ANY__" false 0)) in
  let single := run (collectAndEnrich env (Sample.request "main" false 0)) in
  fst (fst any) = [Sample.c3] /\
  In (CallGetCommit "c3") (snd any) /\
  fst (fst single) = [] /\
  snd single = [CallListCommits "main"].
Proof.
  repeat split; try reflexivity.
  vm_compute. right. right. left. reflexivity.
Qed.

End CapZero.

(** ** Area ranking *)

Section AreaRanking.

Import Aggregator SpecAreas.

Lemma slice_prefix {A : Type} (l : list A) (n : nat) :
  JsArray.slice l 0 (Z.of_nat n) = firstn n l.
Proof.
  unfold JsArray.slice, JsArray.relativeIndex.
  change (0 <? 0) with false. cbv iota.
  destruct (Z.of_nat n <? 0) eqn:E; [apply Z.ltb_lt in E; lia |].
  replace (Z.min 0 (Z.of_nat (length l))) with 0 by lia.
  rewrite Z.sub_0_r. change (Z.to_nat 0) with 0%nat. rewrite skipn_O.
  destruct (Nat.le_ge_cases n (length l)) as [Hle | Hge].
  - f_equal. lia.
  - rewrite !firstn_all2 by lia. reflexivity.
Qed.

Lemma firstIndex_lt (P : list string) (t : string) :
  t ∈ P -> (firstIndex P t < length P)%nat.
Proof.
  induction P as [|x P IH]; intros Hin; simpl.
  - apply elem_of_nil in Hin. contradiction.
  - destruct (decide (x = t)); [lia |].
    apply elem_of_cons in Hin as [-> | Hin]; [contradiction |].
    specialize (IH Hin). lia.
Qed.

Lemma firstIndex_app_elem (P l : list string) (t : string) :
  t ∈ P -> firstIndex (P ++ l) t = firstIndex P t.
Proof.
  induction P as [|x P IH]; intros Hin; simpl.
  - apply elem_of_nil in Hin. contradiction.
  - destruct (decide (x = t)); [reflexivity |].
    apply elem_of_cons in Hin as [-> | Hin]; [contradiction |].
    rewrite IH by exact Hin. reflexivity.
Qed.

Lemma firstIndex_app_fresh (P : list string) (t : string) :
  t ∉ P -> firstIndex (P ++ [t]) t = length P.
Proof.
  induction P as [|x P IH]; intros Hn; simpl.
  - destruct (decide (t = t)); [reflexivity | contradiction].
  - apply not_elem_of_cons in Hn as [Hne Hn].
    destruct (decide (x = t)); [congruence |].
    rewrite IH by exact Hn. reflexivity.
Qed.

Lemma frequency_snoc (P : list string) (a t : string) :
  frequency (P ++ [a]) t = frequency P t + (if decide (a = t) then 1 else 0).
Proof.
  unfold frequency. rewrite count_occ_app. cbn [count_occ].
  destruct (String.string_dec a t), (decide (a = t)); try contradiction; lia.
Qed.

Lemma frequency_absent (P : list string) (t : string) :
  t ∉ P -> frequency P t = 0.
Proof.
  intros Hn. unfold frequency.
  rewrite (proj1 (count_occ_not_In String.string_dec P t)); [reflexivity |].
  intros Hin. apply Hn, list_elem_of_In, Hin.
Qed.

(** The entries that pair each key with its value under [f]. *)
Lemma keys_tabulate (f : string -> Z) (ks : list string) :
  JsMap.keys (map (fun t => (t, f t)) ks) = ks.
Proof. unfold JsMap.keys. rewrite map_map. apply map_id. Qed.

Lemma get_tabulate (f : string -> Z) (ks : list string) (a : string) :
  a ∈ ks -> JsMap.get (map (fun t => (t, f t)) ks) a = Some (f a).
Proof.
  induction ks as [|k ks IH]; intros Hin; simpl.
  - apply elem_of_nil in Hin. contradiction.
  - destruct (decide (a = k)) as [-> | Hne]; [reflexivity |].
    apply IH. apply elem_of_cons in Hin as [? | ?]; [contradiction | assumption].
Qed.

Lemma set_tabulate (f f' : string -> Z) (ks : list string) (a : string) :
  NoDup ks -> a ∈ ks ->
  (forall t, t <> a -> f' t = f t) ->
  JsMap.set (map (fun t => (t, f t)) ks) a (f' a) = map (fun t => (t, f' t)) ks.
Proof.
  intros Hnd Hin Hf. induction ks as [|k ks IH]; simpl.
  - apply elem_of_nil in Hin. contradiction.
  - apply NoDup_cons in Hnd as [Hk Hnd].
    destruct (decide (a = k)) as [-> | Hne].
    + f_equal. apply map_ext_in. intros t Ht.
      rewrite Hf; [reflexivity |]. intros ->. apply Hk, list_elem_of_In, Ht.
    + rewrite (Hf k) by congruence. f_equal. apply IH; [exact Hnd |].
      apply elem_of_cons in Hin as [? | ?]; [contradiction | assumption].
Qed.

(** After counting the tags [P], the counter holds each tag once, in the
    order in which the tags were first seen, with its frequency. *)
Lemma countAreas_tabulate (P : list string) :
  exists ks,
    countAreas [] P = map (fun t => (t, frequency P t)) ks /\
    NoDup ks /\
    (forall t, t ∈ ks <-> t ∈ P) /\
    StronglySorted (fun a b => (firstIndex P a < firstIndex P b)%nat) ks.
Proof.
  unfold countAreas. induction P as [|a P IH] using rev_ind.
  - exists []. repeat split; try constructor; intros H; apply elem_of_nil in H; contradiction.
  - destruct IH as (ks & HE & Hnd & Hmem & Hsorted).
    rewrite fold_left_app. cbn [fold_left]. rewrite HE. unfold countArea.
    assert (Hkeep : StronglySorted
                      (fun x y => (firstIndex (P ++ [a]) x < firstIndex (P ++ [a]) y)%nat) ks).
    { refine (StronglySorted_weaken _ _ _ _ Hsorted). intros x y Hx Hy H.
      rewrite !(firstIndex_app_elem P [a]) by (apply Hmem; assumption). exact H. }
    destruct (decide (a ∈ ks)) as [Hin | Hnin].
    + exists ks. rewrite (get_tabulate _ _ _ Hin).
      change (default 0 (Some (frequency P a))) with (frequency P a).
      replace (frequency P a + 1) with (frequency (P ++ [a]) a)
        by (rewrite frequency_snoc; destruct (decide (a = a)); [reflexivity | contradiction]).
      split; [| split; [exact Hnd | split; [| exact Hkeep]]].
      * apply set_tabulate; [exact Hnd | exact Hin |].
        intros t Hne. rewrite frequency_snoc.
        destruct (decide (a = t)); [congruence | lia].
      * intros t. rewrite Hmem, elem_of_app, list_elem_of_singleton. split; [auto |].
        intros [H | ->]; [exact H | apply Hmem, Hin].
    + exists (ks ++ [a]).
      assert (HnP : a ∉ P) by (intros H; apply Hnin, Hmem, H).
      rewrite (proj2 (get_None_iff _ _)) by (rewrite keys_tabulate; exact Hnin).
      change (default 0 None + 1) with 1.
      rewrite set_fresh by (rewrite keys_tabulate; exact Hnin).
      split; [| split; [| split]].
      * rewrite map_app. cbn [map]. f_equal.
        -- apply map_ext_in. intros t Ht. rewrite frequency_snoc.
           destruct (decide (a = t)) as [-> | _]; [| f_equal; lia].
           exfalso. apply Hnin, list_elem_of_In, Ht.
        -- rewrite frequency_snoc, (frequency_absent _ _ HnP).
           destruct (decide (a = a)); [reflexivity | contradiction].
      * apply NoDup_app. split; [exact Hnd |]. split; [| apply NoDup_singleton].
        intros x Hx Hxa. apply list_elem_of_singleton in Hxa as ->. contradiction.
      * intros t. rewrite !elem_of_app, Hmem. reflexivity.
      * apply StronglySorted_app. split; [| split; [exact Hkeep | repeat constructor]].
        intros x y Hx Hy. apply list_elem_of_singleton in Hy as ->.
        rewrite (firstIndex_app_elem P [a] x) by (apply Hmem, Hx).
        rewrite (firstIndex_app_fresh P a HnP).
        apply firstIndex_lt, Hmem, Hx.
Qed.

End AreaRanking.

Section AreaRankingTheorem.

Import Aggregator SpecAreas.

Lemma areaCountsOf_concat (commitAreas : list (list string)) :
  areaCountsOf commitAreas = countAreas [] (concat commitAreas).
Proof.
  unfold areaCountsOf. generalize (@nil (string * Z)) as E.
  induction commitAreas as [|l L IH]; intros E; [reflexivity |].
  cbn [fold_left concat]. rewrite IH. unfold countAreas.
  rewrite fold_left_app. reflexivity.
Qed.

(** C8: the ranked areas are the distinct tags, ordered by descending
    frequency with ties in first-seen order, and [topAreas] is the first ten
    of them. *)
Theorem C8_topAreas_by_frequency_then_first_seen (commitAreas : list (list string)) :
  let tags := concat commitAreas in
  let ranked := sortedAreas (areaCountsOf commitAreas) in
  topAreas commitAreas = firstn 10 ranked /\
  NoDup ranked /\
  (forall t, t ∈ ranked <-> t ∈ tags) /\
  StronglySorted (ranksBefore tags) ranked /\
  topAreas [["a"; "b"; "a"; "c"; "b"; "a"]] = ["a"; "b"; "c"] /\
  topAreas [["a"; "b"]; ["a"; "c"]; []; ["b"; "a"]] = ["a"; "b"; "c"].
Proof.
  intros tags ranked.
  split; [exact (slice_prefix _ 10) |].
  subst ranked. unfold sortedAreas. rewrite areaCountsOf_concat. fold tags.
  destruct (countAreas_tabulate tags) as (ks & -> & Hnd & Hmem & Hsorted).
  set (E := map (fun t => (t, frequency tags t)) ks).
  set (cmp := fun a b : string * Z => snd b - snd a).
  assert (Hperm : map fst (JsArray.sort cmp E) ≡ₚ ks).
  { rewrite (sort_Permutation cmp E). subst E. rewrite map_map. cbn [fst].
    rewrite map_id. reflexivity. }
  assert (HE : forall x, x ∈ E -> snd x = frequency tags (fst x)).
  { intros x Hx. subst E. apply list_elem_of_fmap in Hx as (t & -> & _). reflexivity. }
  split; [rewrite Hperm; exact Hnd |].
  split; [intros t; rewrite Hperm; apply Hmem |].
  split; [| split; reflexivity].
  apply (StronglySorted_fmap fst (fun x y => ranksBefore tags (fst x) (fst y)));
    [auto |].
  apply (StronglySorted_weaken
           (SpecSort.keyThenPlace snd
              (fun x y => (firstIndex tags (fst x) < firstIndex tags (fst y))%nat))).
  - intros x y Hx Hy Hxy. rewrite (sort_Permutation cmp E) in Hx, Hy.
    unfold SpecSort.keyThenPlace, ranksBefore in *.
    rewrite <- (HE x Hx), <- (HE y Hy). exact Hxy.
  - apply sort_stable; [reflexivity |].
    subst E.
    apply (StronglySorted_fmap (fun t => (t, frequency tags t))
             (fun a b => (firstIndex tags a < firstIndex tags b)%nat));
      [auto | exact Hsorted].
Qed.

End AreaRankingTheorem.

(** ** Repo reference parser *)

Section RepoRefFacts.

Import Regex RepoRef.

(** [parseRepo] throws exactly when neither pattern matches. *)
Lemma parseRepo_throws_iff (input : string) :
  (exists msg, parseRepo input = inr msg) <->
  match_ (JsString.trim input) true urlPattern = None /\
  match_ (JsString.trim input) false simplePattern = None.
Proof.
  unfold parseRepo.
  destruct (match_ (JsString.trim input) true urlPattern) as [mu|].
  - split; [intros [msg H]; discriminate | intros [H _]; discriminate].
  - destruct (match_ (JsString.trim input) false simplePattern) as [ms|].
    + split; [intros [msg H]; discriminate | intros [_ H]; discriminate].
    + split; [auto | intros _; eexists; reflexivity].
Qed.

End RepoRefFacts.

Section MatcherFacts.

Import Regex RepoRef SpecRepo.

Lemma substring_prefix (a b : string) :
  String.substring 0 (String.length a) (a +:+ b) = a.
Proof.
  induction a as [|c a IH]; simpl.
  - destruct b; reflexivity.
  - rewrite IH. reflexivity.
Qed.

(** The greedy repetition takes the whole run of class characters when the
    continuation accepts there. *)
Lemma star_greedy {R : Type} (p : ascii -> bool) (s1 rest : string) (pos : nat)
    (k : nat -> string -> option R) :
  allChars p s1 = true -> stopsAt p rest ->
  is_Some (k (pos + String.length s1)%nat rest) ->
  star p pos (s1 +:+ rest) k = k (pos + String.length s1)%nat rest.
Proof.
  revert pos. induction s1 as [|c s1 IH]; intros pos Hall Hstop Hk.
  - simpl in *. rewrite Nat.add_0_r in *.
    destruct rest as [|c rest]; [reflexivity |].
    simpl in *. rewrite Hstop. reflexivity.
  - simpl in Hall. apply andb_true_iff in Hall as [Hc Hall].
    simpl in Hk |- *. rewrite Hc.
    replace (pos + S (String.length s1))%nat with (S pos + String.length s1)%nat in * by lia.
    rewrite (IH (S pos) Hall Hstop Hk).
    destruct Hk as [r Hr]. rewrite Hr. reflexivity.
Qed.

Lemma plus_greedy {R : Type} (p : ascii -> bool) (s1 rest : string) (pos : nat)
    (k : nat -> string -> option R) :
  s1 <> EmptyString -> allChars p s1 = true -> stopsAt p rest ->
  is_Some (k (pos + String.length s1)%nat rest) ->
  plus p pos (s1 +:+ rest) k = k (pos + String.length s1)%nat rest.
Proof.
  intros Hne Hall Hstop Hk. destruct s1 as [|c s1]; [contradiction |].
  simpl in Hall. apply andb_true_iff in Hall as [Hc Hall].
  simpl in Hk |- *. rewrite Hc.
  replace (pos + S (String.length s1))%nat with (S pos + String.length s1)%nat in * by lia.
  apply star_greedy; assumption.
Qed.

(** A capturing group around a negated class captures the whole run. *)
Lemma matchRe_group_plus {R : Type} (ic : bool) (n : nat) (excluded : list ascii)
    (s1 rest : string) (pos : nat) (caps : Captures)
    (k : nat -> string -> Captures -> option R) :
  s1 <> EmptyString -> allChars (inClass excluded) s1 = true ->
  stopsAt (inClass excluded) rest ->
  is_Some (k (pos + String.length s1)%nat rest (<[n := s1]> caps)) ->
  matchRe ic (Group n (PlusNot excluded)) pos (s1 +:+ rest) caps k =
  k (pos + String.length s1)%nat rest (<[n := s1]> caps).
Proof.
  intros Hne Hall Hstop Hk. cbn [matchRe].
  assert (Hsub : String.substring 0 (pos + String.length s1 - pos) (s1 +:+ rest) = s1).
  { replace (pos + String.length s1 - pos)%nat with (String.length s1) by lia.
    apply substring_prefix. }
  rewrite plus_greedy; try assumption; rewrite Hsub; [reflexivity | exact Hk].
Qed.

(** A start offset whose character is not the pattern's first letter is
    passed over. *)
Lemma searchFrom_url_skip (pfx s : string) (pos : nat) :
  allChars notG pfx = true ->
  searchFrom true urlPattern pos (pfx +:+ s) =
  searchFrom true urlPattern (pos + String.length pfx) s.
Proof.
  revert pos. induction pfx as [|c pfx IH]; intros pos Hall.
  - simpl. rewrite Nat.add_0_r. reflexivity.
  - simpl in Hall. apply andb_true_iff in Hall as [Hc Hall].
    change (String c pfx +:+ s) with (String c (pfx +:+ s)).
    cbn [searchFrom String.length].
    replace (matchRe true (Group 0 urlPattern) pos (String c (pfx +:+ s)) ∅
               (fun _ _ caps => Some caps)) with (@None Captures).
    + rewrite (IH (S pos) Hall). f_equal. lia.
    + unfold urlPattern. cbn [lits matchRe].
      replace (litMatches true "g" c) with false; [reflexivity |].
      unfold notG in Hc. apply andb_true_iff in Hc as [H1 H2].
      apply negb_true_iff in H1, H2. apply Ascii.eqb_neq in H1, H2.
      symmetry. apply not_true_iff_false. unfold litMatches. intros H.
      apply Ascii.eqb_eq in H. change (JsString.lowerChar "g") with "g"%char in H.
      unfold JsString.lowerChar in H.
      destruct (JsString.isUpper c) eqn:Hup; [| congruence].
      apply H2. unfold JsString.isUpper in Hup.
      rewrite <- (ascii_nat_embedding c). rewrite <- (ascii_nat_embedding c) in H.
      pose proof (nat_ascii_bounded c) as Hb.
      apply andb_true_iff in Hup as [Hlo Hhi].
      apply Nat.leb_le in Hlo, Hhi.
      rewrite nat_ascii_embedding in H by lia.
      assert (Hn : nat_of_ascii c = 71%nat).
      { apply (f_equal nat_of_ascii) in H. rewrite nat_ascii_embedding in H by lia.
        change (nat_of_ascii "g") with 103%nat in H. lia. }
      rewrite Hn. reflexivity.
Qed.

End MatcherFacts.

Section UrlForm.

Import Regex RepoRef SpecRepo.

Lemma litMatches_refl (ic : bool) (c : ascii) : litMatches ic c c = true.
Proof. unfold litMatches. destruct ic; apply Ascii.eqb_refl. Qed.

Lemma matchRe_seq {R : Type} (ic : bool) (r1 r2 : Regex) (pos : nat) (s : string)
    (caps : Captures) (k : nat -> string -> Captures -> option R) :
  matchRe ic (Seq r1 r2) pos s caps k =
  matchRe ic r1 pos s caps (fun pos' s' caps' => matchRe ic r2 pos' s' caps' k).
Proof. reflexivity. Qed.

Lemma matchRe_group {R : Type} (ic : bool) (n : nat) (r : Regex) (pos : nat) (s : string)
    (caps : Captures) (k : nat -> string -> Captures -> option R) :
  matchRe ic (Group n r) pos s caps k =
  matchRe ic r pos s caps (fun pos' s' caps' =>
    k pos' s' (<[n := String.substring 0 (pos' - pos) s]> caps')).
Proof. reflexivity. Qed.

Lemma matchRe_bol {R : Type} (ic : bool) (s : string)
    (caps : Captures) (k : nat -> string -> Captures -> option R) :
  matchRe ic Bol 0 s caps k = k 0%nat s caps.
Proof. reflexivity. Qed.

Lemma matchRe_eol {R : Type} (ic : bool) (pos : nat)
    (caps : Captures) (k : nat -> string -> Captures -> option R) :
  matchRe ic Eol pos EmptyString caps k = k pos EmptyString caps.
Proof. reflexivity. Qed.

Lemma matchRe_lit {R : Type} (ic : bool) (c : ascii) (pos : nat) (s : string)
    (caps : Captures) (k : nat -> string -> Captures -> option R) :
  matchRe ic (Lit c) pos (String c s) caps k = k (S pos) s caps.
Proof. cbn [matchRe]. rewrite litMatches_refl. reflexivity. Qed.

Lemma matchRe_lits {R : Type} (ic : bool) (lit : string) (r : Regex) (pos : nat)
    (rest : string) (caps : Captures) (k : nat -> string -> Captures -> option R) :
  matchRe ic (lits lit r) pos (lit +:+ rest) caps k =
  matchRe ic r (pos + String.length lit)%nat rest caps k.
Proof.
  revert pos. induction lit as [|c lit IH]; intros pos.
  - simpl. rewrite Nat.add_0_r. reflexivity.
  - change (String c lit +:+ rest) with (String c (lit +:+ rest)).
    cbn [lits String.length]. rewrite matchRe_seq, matchRe_lit, IH.
    f_equal. lia.
Qed.

Lemma searchFrom_hit (ic : bool) (r : Regex) (pos : nat) (s : string) (caps : Captures) :
  matchRe ic (Group 0 r) pos s ∅ (fun _ _ c => Some c) = Some caps ->
  searchFrom ic r pos s = Some caps.
Proof. intros H. destruct s; cbn [searchFrom]; rewrite H; reflexivity. Qed.

(** The optional suffix never makes the match fail and leaves the numbered
    groups alone. *)
Lemma matchRe_opt_git (f : nat -> string -> string) (pos : nat) (s : string)
    (caps : Captures) :
  exists w,
    matchRe true (Opt (Seq (Lit ".") (Seq (Lit "g") (Seq (Lit "i") (Lit "t"))))) pos s caps
      (fun pos' s' caps' => Some (<[0%nat := f pos' s']> caps')) =
    Some (<[0%nat := w]> caps).
Proof.
  cbn [matchRe].
  destruct s as [|c1 s]; [eexists; reflexivity |].
  destruct (litMatches true "." c1); [| eexists; reflexivity].
  destruct s as [|c2 s]; [eexists; reflexivity |].
  destruct (litMatches true "g" c2); [| eexists; reflexivity].
  destruct s as [|c3 s]; [eexists; reflexivity |].
  destruct (litMatches true "i" c3); [| eexists; reflexivity].
  destruct s as [|c4 s]; [eexists; reflexivity |].
  destruct (litMatches true "t" c4); eexists; reflexivity.
Qed.

(** The URL pattern on a GitHub URL whose repository name has a dot: the
    second group stops at the dot. *)
Lemma urlPattern_match (pfx owner_ stem tail : string) :
  allChars notG pfx = true ->
  owner_ <> EmptyString -> allChars notSlash owner_ = true ->
  stem <> EmptyString -> allChars notSlashDot stem = true ->
  exists w,
    match_ (pfx +:+ "github.com/" +:+ owner_ +:+ "/" +:+ stem +:+ "." +:+ tail)
      true urlPattern =
    Some (<[0%nat := w]> (<[2%nat := stem]> (<[1%nat := owner_]> ∅))).
Proof.
  intros Hpfx Ho Hoc Hs Hsc. unfold match_.
  rewrite searchFrom_url_skip by exact Hpfx.
  set (pos := (0 + String.length pfx)%nat).
  set (s := "github.com/" +:+ owner_ +:+ "/" +:+ stem +:+ "." +:+ tail).
  destruct (matchRe_opt_git (fun pos' _ => String.substring 0 (pos' - pos) s)
              (S (pos + String.length "github.com/" + String.length owner_) +
               String.length stem)
              ("." +:+ tail) (<[2%nat := stem]> (<[1%nat := owner_]> ∅))) as [w Hw].
  exists w. apply searchFrom_hit.
  cbn [matchRe]. fold (@matchRe Captures). subst s. unfold urlPattern.
  rewrite matchRe_lits, matchRe_seq.
  assert (Hrest : matchRe true
            (Seq (Lit "/")
               (Seq (Group 2 (PlusNot ["/"%char; "."%char]))
                  (Opt (Seq (Lit ".") (Seq (Lit "g") (Seq (Lit "i") (Lit "t")))))))
            (pos + String.length "github.com/" + String.length owner_)
            ("/" +:+ stem +:+ "." +:+ tail) (<[1%nat := owner_]> ∅)
            (fun pos' s' caps' =>
               Some (<[0%nat := String.substring 0 (pos' - pos)
                                  ("github.com/" +:+ owner_ +:+ "/" +:+ stem +:+ "." +:+ tail)]>
                       caps')) =
          Some (<[0%nat := w]> (<[2%nat := stem]> (<[1%nat := owner_]> ∅)))).
  { rewrite matchRe_seq.
    change ("/" +:+ stem +:+ "." +:+ tail) with (String "/" (stem +:+ "." +:+ tail)).
    rewrite matchRe_lit, matchRe_seq.
    rewrite matchRe_group_plus; [exact Hw | exact Hs | exact Hsc | reflexivity |].
    eexists. exact Hw. }
  rewrite matchRe_group_plus; [exact Hrest | exact Ho | exact Hoc | reflexivity |].
  eexists. exact Hrest.
Qed.

End UrlForm.

Section MatcherSoundness.

Import Regex RepoRef SpecRepo.

Lemma countSlash_app (a b : string) :
  countSlash (a +:+ b) = (countSlash a + countSlash b)%nat.
Proof. induction a as [|c a IH]; simpl; [reflexivity | rewrite IH; lia]. Qed.

Lemma allChars_notSlash_count (s : string) :
  allChars notSlash s = true -> countSlash s = 0%nat.
Proof.
  induction s as [|c s IH]; simpl; [reflexivity |].
  intros H. apply andb_true_iff in H as [Hc Hs].
  unfold notSlash, inClass in Hc. simpl in Hc. rewrite orb_false_r in Hc.
  apply negb_true_iff in Hc. rewrite Hc, (IH Hs). reflexivity.
Qed.

(** Ignoring case, only a slash matches a slash. *)
Lemma litMatches_slash (ic : bool) (l c : ascii) :
  litMatches ic l c = true -> Ascii.eqb l "/" = true -> Ascii.eqb c "/" = true.
Proof.
  intros Hm Hl. apply Ascii.eqb_eq in Hl as ->. apply Ascii.eqb_eq.
  unfold litMatches in Hm. destruct ic; apply Ascii.eqb_eq in Hm; [| congruence].
  change (JsString.lowerChar "/") with "/"%char in Hm.
  unfold JsString.lowerChar in Hm.
  destruct (JsString.isUpper c) eqn:Hup; [| congruence].
  exfalso. unfold JsString.isUpper in Hup.
  apply andb_true_iff in Hup as [Hlo Hhi]. apply Nat.leb_le in Hlo, Hhi.
  apply (f_equal nat_of_ascii) in Hm.
  rewrite nat_ascii_embedding in Hm by lia.
  change (nat_of_ascii "/") with 47%nat in Hm. lia.
Qed.

(** What the greedy repetition hands to its continuation is a suffix. *)
Lemma star_sound {R : Type} (p : ascii -> bool) (pos : nat) (s : string)
    (k : nat -> string -> option R) (x : R) :
  star p pos s k = Some x ->
  exists m s' pos', s = m +:+ s' /\ k pos' s' = Some x.
Proof.
  revert pos. induction s as [|c s IH]; intros pos H; simpl in H.
  - exists EmptyString, EmptyString, pos. auto.
  - destruct (p c).
    + destruct (star p (S pos) s k) as [r|] eqn:Hstar.
      * injection H as ->. destruct (IH _ Hstar) as (m & s' & pos' & -> & Hk).
        exists (String c m), s', pos'. auto.
      * exists EmptyString, (String c s), pos. auto.
    + exists EmptyString, (String c s), pos. auto.
Qed.

(** A match consumes a text with at least [minSlashes] slashes. *)
Lemma matchRe_sound {R : Type} (ic : bool) (r : Regex) (pos : nat) (s : string)
    (caps : Captures) (k : nat -> string -> Captures -> option R) (x : R) :
  matchRe ic r pos s caps k = Some x ->
  exists m s' pos' caps',
    s = m +:+ s' /\ k pos' s' caps' = Some x /\ (minSlashes r <= countSlash m)%nat.
Proof.
  revert pos s caps k. induction r as [l | ex | n r IH | r IH | r1 IH1 r2 IH2 | |];
    intros pos s caps k H; cbn [matchRe minSlashes] in *.
  - destruct s as [|c s]; [discriminate |].
    destruct (litMatches ic l c) eqn:Hm; [| discriminate].
    exists (String c EmptyString), s, (S pos), caps. repeat split; [exact H |].
    destruct (Ascii.eqb l "/") eqn:Hl; [| lia].
    simpl. rewrite (litMatches_slash _ _ _ Hm Hl). lia.
  - unfold plus in H. destruct s as [|c s]; [discriminate |].
    destruct (inClass ex c); [| discriminate].
    apply star_sound in H as (m & s' & pos' & -> & Hk).
    exists (String c m), s', pos', caps. repeat split; [exact Hk | lia].
  - apply IH in H as (m & s' & pos' & caps' & -> & Hk & Hc).
    exists m, s', pos', (<[n := String.substring 0 (pos' - pos) (m +:+ s')]> caps').
    auto.
  - destruct (matchRe ic r pos s caps k) as [y|] eqn:Hr.
    + injection H as ->. apply IH in Hr as (m & s' & pos' & caps' & -> & Hk & _).
      exists m, s', pos', caps'. repeat split; [exact Hk | lia].
    + exists EmptyString, s, pos, caps. repeat split; [exact H | lia].
  - apply IH1 in H as (m1 & s1 & pos1 & caps1 & -> & H & Hc1).
    apply IH2 in H as (m2 & s2 & pos2 & caps2 & -> & H & Hc2).
    exists (m1 +:+ m2), s2, pos2, caps2. repeat split; [| exact H |].
    + clear. induction m1 as [|c m1 IHm]; [reflexivity |].
      change (String c (m1 +:+ m2 +:+ s2) = String c ((m1 +:+ m2) +:+ s2)).
      f_equal. exact IHm.
    + rewrite countSlash_app. lia.
  - destruct (Nat.eqb pos 0); [| discriminate].
    exists EmptyString, s, pos, caps. repeat split; [exact H | lia].
  - destruct s; [| discriminate].
    exists EmptyString, EmptyString, pos, caps. repeat split; [exact H | lia].
Qed.

(** A text with fewer slashes than the pattern needs has no match. *)
Lemma searchFrom_too_few_slashes (ic : bool) (r : Regex) (pos : nat) (s : string) :
  (countSlash s < minSlashes r)%nat -> searchFrom ic r pos s = None.
Proof.
  revert pos. induction s as [|c s IH]; intros pos Hlt; cbn [searchFrom].
  - destruct (matchRe ic (Group 0 r) pos EmptyString ∅ (fun _ _ caps => Some caps))
      as [x|] eqn:Hm; [| reflexivity].
    apply matchRe_sound in Hm as (m & s' & _ & _ & Hs & _ & Hc). exfalso.
    apply (f_equal countSlash) in Hs. rewrite countSlash_app in Hs.
    cbn [minSlashes] in Hc. lia.
  - destruct (matchRe ic (Group 0 r) pos (String c s) ∅ (fun _ _ caps => Some caps))
      as [x|] eqn:Hm.
    + apply matchRe_sound in Hm as (m & s' & _ & _ & Hs & _ & Hc). exfalso.
      apply (f_equal countSlash) in Hs. rewrite countSlash_app in Hs.
      cbn [minSlashes] in Hc. lia.
    + apply IH. simpl in Hlt. lia.
Qed.

End MatcherSoundness.

Section PlainForm.

Import Regex RepoRef SpecRepo.

Lemma append_nil_r (s : string) : s +:+ EmptyString = s.
Proof.
  induction s as [|c s IH]; [reflexivity |].
  change (String c (s +:+ EmptyString) = String c s). f_equal. exact IH.
Qed.

Lemma allChars_app (p : ascii -> bool) (a b : string) :
  allChars p (a +:+ b) = allChars p a && allChars p b.
Proof.
  induction a as [|c a IH]; [reflexivity |].
  change (allChars p (String c (a +:+ b)) = allChars p (String c a) && allChars p b).
  cbn [allChars]. rewrite IH, andb_assoc. reflexivity.
Qed.

Lemma notSlashDot_notSlash (s : string) :
  allChars notSlashDot s = true -> allChars notSlash s = true.
Proof.
  induction s as [|c s IH]; [reflexivity |]. cbn [allChars].
  intros H. apply andb_true_iff in H as [Hc Hs]. rewrite (IH Hs), andb_true_r.
  unfold notSlashDot, notSlash, inClass in *. simpl in *.
  destruct (Ascii.eqb c "/"); [discriminate | reflexivity].
Qed.

(** The plain pattern on [owner/name]: the groups are the two sides of the
    slash. *)
Lemma simplePattern_match (owner_ name : string) :
  owner_ <> EmptyString -> allChars notSlash owner_ = true ->
  name <> EmptyString -> allChars notSlash name = true ->
  exists w,
    match_ (owner_ +:+ "/" +:+ name) false simplePattern =
    Some (<[0%nat := w]> (<[2%nat := name]> (<[1%nat := owner_]> ∅))).
Proof.
  intros Ho Hoc Hn Hnc. unfold match_.
  eexists. apply searchFrom_hit.
  rewrite <- (append_nil_r name) at 1.
  rewrite matchRe_group. unfold simplePattern.
  rewrite matchRe_seq, matchRe_bol, matchRe_seq.
  assert (Hrest : forall k0 : nat -> string -> Captures -> option Captures,
            (forall pos' s' caps', k0 pos' s' caps' =
               Some (<[0%nat := String.substring 0 (pos' - 0)
                                  (owner_ +:+ "/" +:+ name +:+ EmptyString)]> caps')) ->
            matchRe false (Seq (Lit "/") (Seq (Group 2 (PlusNot ["/"%char])) Eol))
              (0 + String.length owner_) ("/" +:+ name +:+ EmptyString)
              (<[1%nat := owner_]> ∅) k0 =
            Some (<[0%nat := String.substring 0
                               (S (0 + String.length owner_) + String.length name - 0)
                               (owner_ +:+ "/" +:+ name +:+ EmptyString)]>
                    (<[2%nat := name]> (<[1%nat := owner_]> ∅)))).
  { intros k0 Hk0. rewrite matchRe_seq.
    change ("/" +:+ name +:+ EmptyString) with (String "/" (name +:+ EmptyString)).
    rewrite matchRe_lit, matchRe_seq.
    rewrite matchRe_group_plus; try assumption; try exact I.
    - rewrite matchRe_eol. apply Hk0.
    - rewrite matchRe_eol, Hk0. eexists; reflexivity. }
  rewrite matchRe_group_plus; try assumption; try reflexivity.
  - apply Hrest. intros; reflexivity.
  - rewrite Hrest by (intros; reflexivity). eexists; reflexivity.
Qed.

Lemma group_1 (w a b : string) :
  group (<[0%nat := w]> (<[2%nat := b]> (<[1%nat := a]> ∅))) 1 = a.
Proof.
  unfold group, Captures. rewrite lookup_insert_ne by lia.
  rewrite lookup_insert_ne by lia. rewrite lookup_insert_eq. reflexivity.
Qed.

Lemma group_2 (w a b : string) :
  group (<[0%nat := w]> (<[2%nat := b]> (<[1%nat := a]> ∅))) 2 = b.
Proof.
  unfold group, Captures. rewrite lookup_insert_ne by lia.
  rewrite lookup_insert_eq. reflexivity.
Qed.

(** C10: for a repository name with a dot, the URL form returns the name cut
    at its first dot and the plain form returns the whole name; [parseRepo]
    is a function of its input and throws exactly when neither pattern
    matches. *)
Theorem C10_url_form_cuts_name_at_dot (pfx owner_ stem tail : string) :
  allChars notG pfx = true ->
  owner_ <> EmptyString -> allChars notSlash owner_ = true ->
  stem <> EmptyString -> allChars notSlashDot stem = true ->
  allChars notSlash tail = true ->
  let name := stem +:+ "." +:+ tail in
  let url := pfx +:+ "github.com/" +:+ owner_ +:+ "/" +:+ name in
  let plain := owner_ +:+ "/" +:+ name in
  trimmed url -> trimmed plain ->
  parseRepo url = inl {| owner := owner_; repo := stem |} /\
  parseRepo plain = inl {| owner := owner_; repo := name |} /\
  (forall input,
      (exists msg, parseRepo input = inr msg) <->
      match_ (JsString.trim input) true urlPattern = None /\
      match_ (JsString.trim input) false simplePattern = None).
Proof.
  intros Hpfx Ho Hoc Hs Hsc Htc name url plain Hurl Hplain.
  split; [| split; [| exact parseRepo_throws_iff]].
  - unfold parseRepo. rewrite Hurl. subst url name.
    destruct (urlPattern_match pfx owner_ stem tail Hpfx Ho Hoc Hs Hsc) as [w ->].
    rewrite group_1, group_2. reflexivity.
  - assert (Hnc : allChars notSlash name = true).
    { subst name. rewrite !allChars_app, (notSlashDot_notSlash _ Hsc), Htc. reflexivity. }
    assert (Hn : name <> EmptyString).
    { subst name. destruct stem; [contradiction | discriminate]. }
    unfold parseRepo. rewrite Hplain. subst plain.
    unfold match_ at 1. rewrite searchFrom_too_few_slashes.
    + destruct (simplePattern_match owner_ name Ho Hoc Hn Hnc) as [w ->].
      rewrite group_1, group_2. reflexivity.
    + rewrite !countSlash_app, (allChars_notSlash_count _ Hoc),
        (allChars_notSlash_count _ Hnc). vm_compute. lia.
Qed.

(** The two spellings of owner/my.repo. *)
Lemma C10_url_form_cuts_name_at_dot_witness :
  parseRepo "https://github.com/owner/my.repo" = inl {| owner := "owner"; repo := "my" |} /\
  parseRepo "owner/my.repo" = inl {| owner := "owner"; repo := "my.repo" |}.
Proof.
  pose proof (C10_url_form_cuts_name_at_dot "https://" "owner" "my" "repo"
                eq_refl ltac:(discriminate) eq_refl ltac:(discriminate) eq_refl eq_refl
                eq_refl eq_refl) as (H1 & H2 & _).
  split; [exact H1 | exact H2].
Defined.

End PlainForm.

(* ===================================================================== *)
(** * Part III: further properties of the code                            *)
(* ===================================================================== *)

(** ** [truncate] and [extOf] *)

Section UtilFacts.

Import Util SpecUtil SpecRepo.

Lemma string_length_app (a b : string) :
  String.length (a +:+ b) = (String.length a + String.length b)%nat.
Proof.
  induction a as [|c a IH]; [reflexivity |].
  change (String.length (String c (a +:+ b)) = (S (String.length a) + String.length b)%nat).
  cbn [String.length]. rewrite IH. reflexivity.
Qed.

(** The first [n] characters and the rest. *)
Lemma substring_split (n : nat) (s : string) :
  (n <= String.length s)%nat ->
  exists rest,
    s = String.substring 0 n s +:+ rest /\ String.length (String.substring 0 n s) = n.
Proof.
  revert s. induction n as [|n IH]; intros s Hn.
  - exists s. destruct s; split; reflexivity.
  - destruct s as [|c s]; [simpl in Hn; lia |]. simpl in Hn.
    destruct (IH s ltac:(lia)) as (rest & Hs & Hl).
    exists rest. cbn [String.substring String.length]. split.
    + change (String c s = String c (String.substring 0 n s +:+ rest)).
      f_equal. exact Hs.
    + rewrite Hl. reflexivity.
Qed.

Lemma strSlice_prefix (s : string) (m : Z) :
  0 <= m < Z.of_nat (String.length s) ->
  strSlice s 0 m = String.substring 0 (Z.to_nat m) s.
Proof.
  intros Hm. unfold strSlice, JsArray.relativeIndex.
  change (0 <? 0) with false. cbv iota.
  destruct (m <? 0) eqn:E; [apply Z.ltb_lt in E; lia |].
  replace (Z.min 0 (Z.of_nat (String.length s))) with 0 by lia.
  replace (Z.min m (Z.of_nat (String.length s)) - 0) with m by lia.
  reflexivity.
Qed.

Lemma truncate_cut (s : string) (m : Z) :
  0 <= m < Z.of_nat (String.length s) ->
  truncate (Some s) (Some m) = String.substring 0 (Z.to_nat m) s +:+ truncatedMark.
Proof.
  intros Hm. unfold truncate. cbn [default from_option id].
  destruct s as [|c s]; [simpl in Hm; lia |].
  replace (Z.of_nat (String.length (String c s)) >? m) with true
    by (symmetry; apply Z.gtb_lt; lia).
  rewrite strSlice_prefix by exact Hm. reflexivity.
Qed.

Lemma truncate_short (s : string) (m : Z) :
  Z.of_nat (String.length s) <= m -> truncate (Some s) (Some m) = s.
Proof.
  intros Hm. unfold truncate. cbn [default from_option id].
  destruct s as [|c s]; [reflexivity |].
  replace (Z.of_nat (String.length (String c s)) >? m) with false; [reflexivity |].
  symmetry. apply not_true_iff_false. intros H. apply Z.gtb_lt in H. lia.
Qed.

(** X1: with a non-negative budget, [truncate] returns a text within the
    budget unchanged, and otherwise the first [max] characters followed by
    the 18-character mark; the result is never longer than [max + 18]. *)
Theorem X1_truncate_bounded (s : string) (m : Z) :
  0 <= m ->
  (Z.of_nat (String.length s) <= m -> truncate (Some s) (Some m) = s) /\
  (m < Z.of_nat (String.length s) ->
   exists rest,
     s = String.substring 0 (Z.to_nat m) s +:+ rest /\
     truncate (Some s) (Some m) = String.substring 0 (Z.to_nat m) s +:+ truncatedMark /\
     Z.of_nat (String.length (truncate (Some s) (Some m))) = m + 18) /\
  Z.of_nat (String.length (truncate (Some s) (Some m))) <= m + 18.
Proof.
  intros Hm.
  assert (Hcut : m < Z.of_nat (String.length s) ->
            exists rest,
              s = String.substring 0 (Z.to_nat m) s +:+ rest /\
              truncate (Some s) (Some m) =
                String.substring 0 (Z.to_nat m) s +:+ truncatedMark /\
              Z.of_nat (String.length (truncate (Some s) (Some m))) = m + 18).
  { intros Hlt. destruct (substring_split (Z.to_nat m) s ltac:(lia)) as (rest & Hs & Hl).
    exists rest. split; [exact Hs |]. rewrite truncate_cut by lia.
    split; [reflexivity |]. rewrite string_length_app, Hl.
    change (String.length truncatedMark) with 18%nat. lia. }
  split; [apply truncate_short |]. split; [exact Hcut |].
  destruct (Z.le_gt_cases (Z.of_nat (String.length s)) m) as [Hle | Hgt].
  - rewrite truncate_short by exact Hle. lia.
  - destruct (Hcut ltac:(lia)) as (_ & _ & _ & Hlen). lia.
Qed.

Lemma X1_truncate_bounded_witness :
  0 <= 4 /\
  truncate (Some "index.js") (Some 4) = "inde" +:+ truncatedMark /\
  truncate (Some "a.js") (Some 4) = "a.js".
Proof.
  pose proof (X1_truncate_bounded "index.js" 4 ltac:(lia)) as (_ & H1 & _).
  pose proof (X1_truncate_bounded "a.js" 4 ltac:(lia)) as (H2 & _ & _).
  destruct (H1 ltac:(simpl; lia)) as (_ & _ & Ht & _).
  split; [lia |]. split; [exact Ht | exact (H2 ltac:(simpl; lia))].
Defined.

(** X2: truncating twice with the same non-negative budget changes nothing
    more, whether the text is absent, short or long. *)
Theorem X2_truncate_idempotent (str : option string) (m : Z) :
  0 <= m ->
  truncate (Some (truncate str (Some m))) (Some m) = truncate str (Some m).
Proof.
  intros Hm. destruct str as [s|]; [| reflexivity].
  destruct (Z.le_gt_cases (Z.of_nat (String.length s)) m) as [Hle | Hgt].
  - rewrite (truncate_short s m Hle). apply truncate_short, Hle.
  - rewrite (truncate_cut s m) by lia.
    destruct (substring_split (Z.to_nat m) s ltac:(lia)) as (rest & Hs & Hl).
    rewrite truncate_cut.
    + f_equal. rewrite <- Hl at 1. apply substring_prefix.
    + rewrite string_length_app, Hl.
      change (String.length truncatedMark) with 18%nat. lia.
Qed.

Lemma X2_truncate_idempotent_witness :
  0 <= 4 /\
  truncate (Some (truncate (Some "index.js") (Some 4))) (Some 4) =
  truncate (Some "index.js") (Some 4).
Proof.
  split; [lia |]. exact (X2_truncate_idempotent (Some "index.js") 4 ltac:(lia)).
Defined.

End UtilFacts.

Section ExtOfFacts.

Import Util SpecUtil SpecRepo.

Lemma lastIndexOfFrom_absent (s : string) (offset : Z) :
  allChars notDot s = true -> lastIndexOfFrom "." s offset = -1.
Proof.
  revert offset. induction s as [|a s IH]; intros offset H; [reflexivity |].
  cbn [allChars] in H. apply andb_true_iff in H as [Ha Hs].
  cbn [lastIndexOfFrom]. rewrite (IH _ Hs). change (-1 >? -1) with false. cbv iota.
  unfold notDot in Ha. apply negb_true_iff in Ha. rewrite Ha. reflexivity.
Qed.

Lemma lastIndexOfFrom_last (stem ext : string) (offset : Z) :
  0 <= offset -> allChars notDot ext = true ->
  lastIndexOfFrom "." (stem +:+ "." +:+ ext) offset =
  offset + Z.of_nat (String.length stem).
Proof.
  revert offset. induction stem as [|a stem IH]; intros offset Hoff Hext.
  - change (EmptyString +:+ "." +:+ ext) with (String "." ext).
    cbn [lastIndexOfFrom]. rewrite (lastIndexOfFrom_absent _ _ Hext).
    change (-1 >? -1) with false. cbv iota. simpl. lia.
  - change (String a stem +:+ "." +:+ ext) with (String a (stem +:+ "." +:+ ext)).
    cbn [lastIndexOfFrom]. rewrite (IH (offset + 1) ltac:(lia) Hext).
    replace (offset + 1 + Z.of_nat (String.length stem) >? -1) with true
      by (symmetry; apply Z.gtb_lt; lia).
    cbn [String.length]. lia.
Qed.

Lemma substring_skip (a b : string) (n : nat) :
  String.substring (String.length a) n (a +:+ b) = String.substring 0 n b.
Proof.
  induction a as [|c a IH]; [reflexivity |].
  change (String c a +:+ b) with (String c (a +:+ b)).
  cbn [String.length String.substring]. exact IH.
Qed.

Lemma substring_whole (s : string) : String.substring 0 (String.length s) s = s.
Proof.
  induction s as [|c s IH]; [reflexivity |].
  cbn [String.length String.substring]. rewrite IH. reflexivity.
Qed.

(** A path has no dot, or a last dot. *)
Lemma last_dot_split (path : string) :
  allChars notDot path = true \/
  exists stem ext, path = stem +:+ "." +:+ ext /\ allChars notDot ext = true.
Proof.
  induction path as [|c path IH]; [left; reflexivity |].
  destruct IH as [Hno | (stem & ext & -> & Hext)].
  - destruct (Ascii.eqb c ".") eqn:E.
    + apply Ascii.eqb_eq in E as ->. right. exists EmptyString, path. auto.
    + left. cbn [allChars]. unfold notDot at 1. rewrite E, Hno. reflexivity.
  - right. exists (String c stem), ext. auto.
Qed.

Lemma relativeIndex_within (len i : Z) :
  0 <= i <= len -> JsArray.relativeIndex len i = i.
Proof.
  intros H. unfold JsArray.relativeIndex.
  destruct (i <? 0) eqn:E; [apply Z.ltb_lt in E; lia | lia].
Qed.

(** Slicing from the end of [a] to the end of the text gives [b]. *)
Lemma strSlice_suffix (a b : string) :
  strSlice (a +:+ b) (Z.of_nat (String.length a)) (Z.of_nat (String.length (a +:+ b))) = b.
Proof.
  unfold strSlice. rewrite !relativeIndex_within by (rewrite string_length_app; lia).
  rewrite Nat2Z.id.
  replace (Z.to_nat (Z.of_nat (String.length (a +:+ b)) - Z.of_nat (String.length a)))
    with (String.length b) by (rewrite string_length_app; lia).
  rewrite substring_skip. apply substring_whole.
Qed.

Lemma extOf_after_last_dot (stem ext : string) :
  allChars notDot ext = true ->
  extOf (stem +:+ "." +:+ ext) = JsString.toLowerCase ext.
Proof.
  intros Hext. unfold extOf, lastIndexOf.
  rewrite (lastIndexOfFrom_last stem ext 0 ltac:(lia) Hext).
  replace (0 + Z.of_nat (String.length stem) >? -1) with true
    by (symmetry; apply Z.gtb_lt; lia).
  f_equal.
  assert (Hassoc : stem +:+ "." +:+ ext = (stem +:+ ".") +:+ ext).
  { clear. induction stem as [|c stem IH]; [reflexivity |].
    change (String c (stem +:+ "." +:+ ext) = String c ((stem +:+ ".") +:+ ext)).
    f_equal. exact IH. }
  rewrite Hassoc.
  replace (0 + Z.of_nat (String.length stem) + 1)
    with (Z.of_nat (String.length (stem +:+ ".")))
    by (rewrite string_length_app; simpl; lia).
  apply strSlice_suffix.
Qed.

(** X3: [extOf] returns, in lower case, what follows the last dot of the
    path, and the empty string for a path without a dot. *)
Theorem X3_extOf_after_last_dot (stem ext path : string) :
  allChars notDot ext = true ->
  allChars notDot path = true ->
  extOf (stem +:+ "." +:+ ext) = JsString.toLowerCase ext /\
  extOf path = EmptyString.
Proof.
  intros Hext Hpath. split; [apply extOf_after_last_dot, Hext |].
  unfold extOf, lastIndexOf. rewrite (lastIndexOfFrom_absent _ _ Hpath). reflexivity.
Qed.

Lemma X3_extOf_after_last_dot_witness :
  extOf "src/App.test.JSX" = "jsx" /\ extOf "Makefile" = EmptyString.
Proof.
  exact (X3_extOf_after_last_dot "src/App.test" "JSX" "Makefile" eq_refl eq_refl).
Defined.

Lemma lowerChar_notDot (c : ascii) : notDot c = true -> notDot (JsString.lowerChar c) = true.
Proof. destruct c as [[] [] [] [] [] [] [] []]; intros H; try reflexivity; discriminate H. Qed.

Lemma lowerChar_notUpper (c : ascii) : notUpper (JsString.lowerChar c) = true.
Proof. destruct c as [[] [] [] [] [] [] [] []]; reflexivity. Qed.

(** X4: whatever the path, the extension that [extOf] returns has no dot
    and no upper-case letter. *)
Theorem X4_extOf_plain_lower_case (path : string) :
  allChars notDot (extOf path) = true /\ allChars notUpper (extOf path) = true.
Proof.
  assert (Hlow : forall ext, allChars notDot ext = true ->
             allChars notDot (JsString.toLowerCase ext) = true /\
             allChars notUpper (JsString.toLowerCase ext) = true).
  { induction ext as [|c ext IH]; intros H; [split; reflexivity |].
    cbn [allChars] in H. apply andb_true_iff in H as [Hc He].
    destruct (IH He) as [H1 H2]. cbn [JsString.toLowerCase allChars].
    rewrite H1, H2, (lowerChar_notDot c Hc), lowerChar_notUpper. split; reflexivity. }
  destruct (last_dot_split path) as [Hno | (stem & ext & -> & Hext)].
  - unfold extOf, lastIndexOf. rewrite (lastIndexOfFrom_absent _ _ Hno).
    split; reflexivity.
  - rewrite (extOf_after_last_dot stem ext Hext). apply Hlow, Hext.
Qed.

End ExtOfFacts.

(** ** What [parseRepo] accepts and what it returns *)

Section ParseRepoSound.

Import Regex RepoRef SpecRepo.

(** The greedy repetition hands over after a run of class characters. *)
Lemma star_run {R : Type} (p : ascii -> bool) (pos : nat) (s : string)
    (k : nat -> string -> option R) (x : R) :
  star p pos s k = Some x ->
  exists m s', s = m +:+ s' /\ allChars p m = true /\
               k (pos + String.length m)%nat s' = Some x.
Proof.
  revert pos. induction s as [|c s IH]; intros pos H; simpl in H.
  - exists EmptyString, EmptyString. rewrite Nat.add_0_r. auto.
  - destruct (p c) eqn:Hc.
    + destruct (star p (S pos) s k) as [r|] eqn:Hstar.
      * injection H as ->. destruct (IH _ Hstar) as (m & s' & -> & Hm & Hk).
        exists (String c m), s'. cbn [allChars String.length]. rewrite Hc, Hm.
        replace (pos + S (String.length m))%nat with (S pos + String.length m)%nat by lia.
        auto.
      * exists EmptyString, (String c s). rewrite Nat.add_0_r. auto.
    + exists EmptyString, (String c s). rewrite Nat.add_0_r. auto.
Qed.

(** A capturing group around a negated class captures a non-empty run of
    class characters. *)
Lemma matchRe_group_run {R : Type} (ic : bool) (n : nat) (excluded : list ascii)
    (pos : nat) (s : string) (caps : Captures)
    (k : nat -> string -> Captures -> option R) (x : R) :
  matchRe ic (Group n (PlusNot excluded)) pos s caps k = Some x ->
  exists m s',
    s = m +:+ s' /\ m <> EmptyString /\ allChars (inClass excluded) m = true /\
    k (pos + String.length m)%nat s' (<[n := m]> caps) = Some x.
Proof.
  cbn [matchRe]. unfold plus. intros H.
  destruct s as [|c s]; [discriminate |].
  destruct (inClass excluded c) eqn:Hc; [| discriminate].
  apply star_run in H as (m & s' & -> & Hm & Hk).
  exists (String c m), s'. cbn [allChars String.length]. rewrite Hc, Hm.
  repeat split; [discriminate |].
  replace (pos + S (String.length m))%nat with (S pos + String.length m)%nat by lia.
  replace (S pos + String.length m - pos)%nat with (String.length (String c m))
    in Hk by (simpl; lia).
  change (String c (m +:+ s')) with (String c m +:+ s') in Hk.
  rewrite substring_prefix in Hk. exact Hk.
Qed.

Lemma matchRe_lits_sound {R : Type} (ic : bool) (lit : string) (r : Regex) (pos : nat)
    (s : string) (caps : Captures) (k : nat -> string -> Captures -> option R) (x : R) :
  matchRe ic (lits lit r) pos s caps k = Some x ->
  exists s', matchRe ic r (pos + String.length lit)%nat s' caps k = Some x.
Proof.
  revert pos s. induction lit as [|c lit IH]; intros pos s H.
  - exists s. simpl. rewrite Nat.add_0_r. exact H.
  - cbn [lits] in H. rewrite matchRe_seq in H. cbn [matchRe] in H.
    destruct s as [|c' s]; [discriminate |].
    destruct (litMatches ic c c'); [| discriminate].
    apply IH in H as [s' H]. exists s'. cbn [String.length].
    replace (pos + S (String.length lit))%nat with (S pos + String.length lit)%nat by lia.
    exact H.
Qed.

(** A search that succeeds has matched at some offset. *)
Lemma searchFrom_sound (ic : bool) (r : Regex) (pos : nat) (s : string) (caps : Captures) :
  searchFrom ic r pos s = Some caps ->
  exists pre s',
    s = pre +:+ s' /\
    matchRe ic (Group 0 r) (pos + String.length pre)%nat s' ∅ (fun _ _ c => Some c) =
    Some caps.
Proof.
  revert pos. induction s as [|c s IH]; intros pos H; cbn [searchFrom] in H.
  - destruct (matchRe ic (Group 0 r) pos EmptyString ∅ (fun _ _ c => Some c)) eqn:Hm;
      [| discriminate].
    injection H as ->. exists EmptyString, EmptyString. rewrite Nat.add_0_r. auto.
  - destruct (matchRe ic (Group 0 r) pos (String c s) ∅ (fun _ _ c0 => Some c0)) eqn:Hm.
    + injection H as ->. exists EmptyString, (String c s). rewrite Nat.add_0_r. auto.
    + apply IH in H as (pre & s' & -> & H). exists (String c pre), s'.
      cbn [String.length].
      replace (pos + S (String.length pre))%nat with (S pos + String.length pre)%nat by lia.
      auto.
Qed.

Lemma matchRe_lit_sound {R : Type} (ic : bool) (l : ascii) (pos : nat) (s : string)
    (caps : Captures) (k : nat -> string -> Captures -> option R) (x : R) :
  matchRe ic (Lit l) pos s caps k = Some x ->
  exists c s', s = String c s' /\ litMatches ic l c = true /\ k (S pos) s' caps = Some x.
Proof.
  cbn [matchRe]. intros H. destruct s as [|c s]; [discriminate |].
  destruct (litMatches ic l c) eqn:Hl; [| discriminate]. eauto.
Qed.

Lemma matchRe_bol_at {R : Type} (ic : bool) (pos : nat) (s : string)
    (caps : Captures) (k : nat -> string -> Captures -> option R) :
  matchRe ic Bol pos s caps k = if Nat.eqb pos 0 then k pos s caps else None.
Proof. reflexivity. Qed.

(** What the URL pattern captures. *)
Lemma urlPattern_sound (s : string) (caps : Captures) :
  match_ s true urlPattern = Some caps ->
  exists w m1 m2,
    caps = <[0%nat := w]> (<[2%nat := m2]> (<[1%nat := m1]> ∅)) /\
    m1 <> EmptyString /\ allChars notSlash m1 = true /\
    m2 <> EmptyString /\ allChars notSlashDot m2 = true.
Proof.
  unfold match_. intros H.
  apply searchFrom_sound in H as (pre & s0 & _ & H).
  rewrite matchRe_group in H. unfold urlPattern in H.
  apply matchRe_lits_sound in H as [s1 H].
  rewrite matchRe_seq in H.
  apply matchRe_group_run in H as (m1 & s2 & _ & Hm1 & Hc1 & H).
  rewrite matchRe_seq in H.
  apply matchRe_lit_sound in H as (c & s3 & _ & _ & H).
  rewrite matchRe_seq in H.
  apply matchRe_group_run in H as (m2 & s4 & _ & Hm2 & Hc2 & H).
  match type of H with
  | matchRe _ _ ?p ?s5 ?c5 _ = _ =>
      destruct (matchRe_opt_git
                  (fun pos' _ => String.substring 0 (pos' - (0 + String.length pre)) s0)
                  p s5 c5) as [w Hw]
  end.
  assert (Heq : Some caps = Some (<[0%nat := w]> (<[2%nat := m2]> (<[1%nat := m1]> ∅)))).
  { rewrite <- H. exact Hw. }
  injection Heq as ->. exists w, m1, m2. auto.
Qed.

(** What the plain pattern captures: the two sides of the only slash. *)
Lemma simplePattern_sound (s : string) (caps : Captures) :
  match_ s false simplePattern = Some caps ->
  exists w m1 m2,
    caps = <[0%nat := w]> (<[2%nat := m2]> (<[1%nat := m1]> ∅)) /\
    s = m1 +:+ "/" +:+ m2 /\
    m1 <> EmptyString /\ allChars notSlash m1 = true /\
    m2 <> EmptyString /\ allChars notSlash m2 = true.
Proof.
  unfold match_. intros H.
  apply searchFrom_sound in H as (pre & s0 & Hs & H).
  rewrite matchRe_group in H. unfold simplePattern in H.
  rewrite matchRe_seq, matchRe_bol_at in H.
  destruct (Nat.eqb (0 + String.length pre) 0) eqn:Hpos; [| discriminate].
  apply Nat.eqb_eq in Hpos. destruct pre; [| simpl in Hpos; lia]. clear Hpos.
  change (EmptyString +:+ s0) with s0 in Hs. subst s0.
  rewrite matchRe_seq in H.
  apply matchRe_group_run in H as (m1 & s2 & -> & Hm1 & Hc1 & H).
  rewrite matchRe_seq in H.
  apply matchRe_lit_sound in H as (c & s3 & -> & Hl & H).
  unfold litMatches in Hl. apply Ascii.eqb_eq in Hl as <-.
  rewrite matchRe_seq in H.
  apply matchRe_group_run in H as (m2 & s4 & -> & Hm2 & Hc2 & H).
  cbn [matchRe] in H. destruct s4; [| discriminate].
  injection H as <-. rewrite append_nil_r.
  eexists _, m1, m2. repeat split; try assumption.
Qed.

End ParseRepoSound.

Section TrimFacts.

Import JsString SpecRepo.

Lemma trimStart_pad (pad s : string) :
  allChars isSpace pad = true -> trimStart (pad +:+ s) = trimStart s.
Proof.
  induction pad as [|c pad IH]; intros H; [reflexivity |].
  cbn [allChars] in H. apply andb_true_iff in H as [Hc Hp].
  change (String c pad +:+ s) with (String c (pad +:+ s)).
  cbn [trimStart]. rewrite Hc. apply IH, Hp.
Qed.

Lemma trimEnd_spaces (pad : string) :
  allChars isSpace pad = true -> trimEnd pad = EmptyString.
Proof.
  induction pad as [|c pad IH]; intros H; [reflexivity |].
  cbn [allChars] in H. apply andb_true_iff in H as [Hc Hp].
  cbn [trimEnd]. rewrite (IH Hp), Hc. reflexivity.
Qed.

Lemma trimEnd_pad (s pad : string) :
  allChars isSpace pad = true -> trimEnd (s +:+ pad) = trimEnd s.
Proof.
  intros H. induction s as [|c s IH]; [exact (trimEnd_spaces pad H) |].
  change (String c s +:+ pad) with (String c (s +:+ pad)).
  cbn [trimEnd]. rewrite IH. reflexivity.
Qed.

Lemma trimStart_spaces (pad : string) :
  allChars isSpace pad = true -> trimStart pad = EmptyString.
Proof.
  induction pad as [|c pad IH]; intros H; [reflexivity |].
  cbn [allChars] in H. apply andb_true_iff in H as [Hc Hp].
  cbn [trimStart]. rewrite Hc. apply IH, Hp.
Qed.

(** White space around a text does not change what [trim] returns. *)
Lemma trim_pad (pad1 s pad2 : string) :
  allChars isSpace pad1 = true -> allChars isSpace pad2 = true ->
  trim (pad1 +:+ s +:+ pad2) = trim s.
Proof.
  intros H1 H2. unfold trim. rewrite (trimStart_pad pad1 _ H1).
  induction s as [|c s IH].
  - change (EmptyString +:+ pad2) with pad2. rewrite (trimStart_spaces pad2 H2).
    reflexivity.
  - change (String c s +:+ pad2) with (String c (s +:+ pad2)).
    cbn [trimStart]. destruct (isSpace c); [exact IH |].
    change (String c (s +:+ pad2)) with (String c s +:+ pad2).
    apply trimEnd_pad, H2.
Qed.

End TrimFacts.

Section ParseRepoFacts.

Import Regex RepoRef SpecRepo.

Lemma minSlashes_url : minSlashes urlPattern = 2%nat.
Proof. reflexivity. Qed.

Lemma minSlashes_simple : minSlashes simplePattern = 1%nat.
Proof. reflexivity. Qed.

(** X5: an input that has no slash once trimmed (the empty input and blank
    input among them) is refused with the format error. *)
Theorem X5_parseRepo_refuses_without_slash (input : string) :
  allChars notSlash (JsString.trim input) = true ->
  parseRepo input = inr invalidRepoFormat.
Proof.
  intros H. apply allChars_notSlash_count in H.
  unfold parseRepo, match_.
  rewrite !searchFrom_too_few_slashes; [reflexivity | |];
    rewrite H; [rewrite minSlashes_simple | rewrite minSlashes_url]; lia.
Qed.

Lemma X5_parseRepo_refuses_without_slash_witness :
  parseRepo "  octo demo " = inr invalidRepoFormat.
Proof. exact (X5_parseRepo_refuses_without_slash "  octo demo " eq_refl). Defined.

(** X6: whatever the input, an owner and a repository name that [parseRepo]
    returns are non-empty and contain no slash, so that the two joined by a
    slash contain exactly one. *)
Theorem X6_parseRepo_returns_path_segments (input : string) (r : Repo) :
  parseRepo input = inl r ->
  owner r <> EmptyString /\ repo r <> EmptyString /\
  allChars notSlash (owner r) = true /\ allChars notSlash (repo r) = true /\
  countSlash (owner r +:+ "/" +:+ repo r) = 1%nat.
Proof.
  unfold parseRepo. intros H.
  assert (Hseg : owner r <> EmptyString /\ repo r <> EmptyString /\
                 allChars notSlash (owner r) = true /\ allChars notSlash (repo r) = true).
  { destruct (match_ (JsString.trim input) true urlPattern) as [mu|] eqn:Hu.
    - apply urlPattern_sound in Hu as (w & m1 & m2 & -> & Hm1 & Hc1 & Hm2 & Hc2).
      injection H as <-. cbn [owner repo]. rewrite group_1, group_2.
      auto using notSlashDot_notSlash.
    - destruct (match_ (JsString.trim input) false simplePattern) as [ms|] eqn:Hs;
        [| discriminate].
      apply simplePattern_sound in Hs as (w & m1 & m2 & -> & _ & Hm1 & Hc1 & Hm2 & Hc2).
      injection H as <-. cbn [owner repo]. rewrite group_1, group_2. auto. }
  destruct Hseg as (Ho & Hr & Hco & Hcr). repeat split; try assumption.
  rewrite !countSlash_app, (allChars_notSlash_count _ Hco), (allChars_notSlash_count _ Hcr).
  reflexivity.
Qed.

Lemma X6_parseRepo_returns_path_segments_witness :
  parseRepo "https://github.com/octo/demo/tree/main" =
    inl {| owner := "octo"; repo := "demo" |} /\
  countSlash ("octo" +:+ "/" +:+ "demo") = 1%nat.
Proof.
  split; [reflexivity |].
  exact (proj2 (proj2 (proj2 (proj2
    (X6_parseRepo_returns_path_segments "https://github.com/octo/demo/tree/main"
       {| owner := "octo"; repo := "demo" |} eq_refl))))).
Defined.

(** X7: the plain form is read back as written: for a non-empty owner and
    name without a slash, [parseRepo] of owner/name, with any white space
    around it left out, returns that owner and that name. *)
Theorem X7_parseRepo_reads_plain_form (owner_ name : string) :
  owner_ <> EmptyString -> allChars notSlash owner_ = true ->
  name <> EmptyString -> allChars notSlash name = true ->
  trimmed (owner_ +:+ "/" +:+ name) ->
  parseRepo (owner_ +:+ "/" +:+ name) = inl {| owner := owner_; repo := name |}.
Proof.
  intros Ho Hoc Hn Hnc Htrim. unfold parseRepo. rewrite Htrim.
  unfold match_ at 1. rewrite searchFrom_too_few_slashes.
  - destruct (simplePattern_match owner_ name Ho Hoc Hn Hnc) as [w ->].
    rewrite group_1, group_2. reflexivity.
  - rewrite !countSlash_app, (allChars_notSlash_count _ Hoc),
      (allChars_notSlash_count _ Hnc), minSlashes_url. simpl. lia.
Qed.

Lemma X7_parseRepo_reads_plain_form_witness :
  parseRepo "facebook/react" = inl {| owner := "facebook"; repo := "react" |}.
Proof.
  exact (X7_parseRepo_reads_plain_form "facebook" "react"
           ltac:(discriminate) eq_refl ltac:(discriminate) eq_refl eq_refl).
Defined.

(** X8: when the trimmed input has exactly one slash, an accepted input is
    the returned owner and name joined by that slash: the plain form loses
    nothing but surrounding white space. *)
Theorem X8_parseRepo_plain_form_joins_back (input : string) (r : Repo) :
  countSlash (JsString.trim input) = 1%nat ->
  parseRepo input = inl r ->
  owner r +:+ "/" +:+ repo r = JsString.trim input.
Proof.
  intros Hone H. unfold parseRepo in H.
  unfold match_ at 1 in H. rewrite searchFrom_too_few_slashes in H
    by (rewrite Hone, minSlashes_url; lia).
  destruct (match_ (JsString.trim input) false simplePattern) as [ms|] eqn:Hs;
    [| discriminate].
  apply simplePattern_sound in Hs as (w & m1 & m2 & -> & Hin & _).
  injection H as <-. cbn [owner repo]. rewrite group_1, group_2. symmetry. exact Hin.
Qed.

Lemma X8_parseRepo_plain_form_joins_back_witness :
  "octo" +:+ "/" +:+ "my.repo" = JsString.trim " octo/my.repo ".
Proof.
  exact (X8_parseRepo_plain_form_joins_back " octo/my.repo "
           {| owner := "octo"; repo := "my.repo" |} eq_refl eq_refl).
Defined.

(** X9: white space before and after the reference is ignored. *)
Theorem X9_parseRepo_ignores_padding (pad1 input pad2 : string) :
  allChars JsString.isSpace pad1 = true ->
  allChars JsString.isSpace pad2 = true ->
  parseRepo (pad1 +:+ input +:+ pad2) = parseRepo input.
Proof.
  intros H1 H2. unfold parseRepo. rewrite (trim_pad pad1 input pad2 H1 H2). reflexivity.
Qed.

Lemma X9_parseRepo_ignores_padding_witness :
  parseRepo ("  " +:+ "octo/demo" +:+ String "010"%char EmptyString) = parseRepo "octo/demo".
Proof.
  exact (X9_parseRepo_ignores_padding "  " "octo/demo" (String "010"%char EmptyString)
           eq_refl eq_refl).
Defined.

End ParseRepoFacts.

(** ** The progress registry over histories *)

Section RegistryFacts.

Import Progress SpecBuffer SpecProgress.

Lemma lastN_app {A : Type} (n : nat) (l l' : list A) :
  lastN n (lastN n l ++ l') = lastN n (l ++ l').
Proof.
  unfold lastN. rewrite !length_app, length_drop, !drop_app, drop_drop, length_drop.
  destruct (Nat.le_gt_cases (length l) n) as [Hle | Hgt].
  - f_equal; f_equal; lia.
  - f_equal; f_equal; lia.
Qed.

Lemma lastN_within {A : Type} (n : nat) (l : list A) :
  (length l <= n)%nat -> lastN n l = l.
Proof.
  intros H. unfold lastN. replace (length l - n)%nat with 0%nat by lia. reflexivity.
Qed.

(** One send to a channel without subscriber. *)
Lemma progressSend_detached (id text : string) (now : Z) (st : Registry) :
  id <> EmptyString -> withinCap st -> res (channelOf st id) = None ->
  channelOf (progressSend id text now st) id =
    {| res := None; buffer := lastN 2000 (buffer (channelOf st id) ++ [text]) |} /\
  written (progressSend id text now st) = written st.
Proof.
  intros Hid Hcap Hres. pose proof (channelOf_withinCap st id Hcap) as Hlen.
  unfold progressSend. destruct id as [|c id]; [congruence |].
  rewrite Hres, channelOf_insert. cbn [written].
  rewrite push_shift_lastN by exact Hlen. split; reflexivity.
Qed.

Lemma sendAll_detached (id : string) (texts : list string) (now : Z) (st : Registry) :
  id <> EmptyString -> withinCap st -> res (channelOf st id) = None ->
  channelOf (sendAll id texts now st) id =
    {| res := None; buffer := lastN 2000 (buffer (channelOf st id) ++ texts) |} /\
  written (sendAll id texts now st) = written st.
Proof.
  intros Hid. revert st. induction texts as [|t texts IH]; intros st Hcap Hres.
  - cbn [sendAll fold_left]. rewrite app_nil_r.
    rewrite lastN_within by (apply channelOf_withinCap, Hcap).
    split; [| reflexivity]. destruct (channelOf st id) as [r b]. cbn in *. congruence.
  - change (sendAll id (t :: texts) now st)
      with (sendAll id texts now (progressSend id t now st)).
    destruct (progressSend_detached id t now st Hid Hcap Hres) as [Hch Hw].
    destruct (IH (progressSend id t now st)
                (progressSend_withinCap id t now st Hcap)
                ltac:(rewrite Hch; reflexivity)) as [Hch' Hw'].
    rewrite Hch', Hw', Hw, Hch. cbn [buffer].
    rewrite lastN_app, <- app_assoc. split; reflexivity.
Qed.

(** X10: the buffer is a ring of 2000: after any run of sends to a channel
    that nobody listens to, the buffer holds the most recent 2000 of the
    messages it held and was sent, in order, nothing has been written to
    any response, and the next subscriber is replayed exactly those. *)
Theorem X10_buffer_keeps_most_recent (id : string) (texts : list string) (now : Z)
    (st : Registry) :
  id <> EmptyString -> withinCap st -> res (channelOf st id) = None ->
  let st' := sendAll id texts now st in
  buffer (channelOf st' id) = lastN 2000 (buffer (channelOf st id) ++ texts) /\
  written st' = written st /\
  forall r now',
    messages (received (subscribe id r now' st') r) =
    messages (received st r) ++ lastN 2000 (buffer (channelOf st id) ++ texts).
Proof.
  intros Hid Hcap Hres st'.
  destruct (sendAll_detached id texts now st Hid Hcap Hres) as [Hch Hw].
  fold st' in Hch, Hw. split; [rewrite Hch; reflexivity |]. split; [exact Hw |].
  intros r now'. unfold subscribe. rewrite received_write, messages_app, messages_replay.
  rewrite Hch. cbn [buffer]. unfold received. rewrite Hw. reflexivity.
Qed.

Lemma X10_buffer_keeps_most_recent_witness :
  let st' := sendAll "run1" ["a"; "b"; "c"] 5 emptyRegistry in
  buffer (channelOf st' "run1") = ["a"; "b"; "c"] /\
  messages (received (subscribe "run1" 1 6 st') 1) = ["a"; "b"; "c"].
Proof.
  assert (Hcap : withinCap emptyRegistry) by exact (after_withinCap []).
  pose proof (X10_buffer_keeps_most_recent "run1" ["a"; "b"; "c"] 5 emptyRegistry
                ltac:(discriminate) Hcap eq_refl) as (H1 & _ & H2).
  split; [exact H1 | exact (H2 1%nat 6)].
Defined.

(** X11: when a subscriber has been replaced, the disconnection of the old
    one changes nothing: the new subscriber stays attached. *)
Theorem X11_stale_close_keeps_subscriber (id : string) (r1 r2 : nat) (now : Z)
    (st : Registry) :
  r1 <> r2 ->
  close id r1 (subscribe id r2 now st) = subscribe id r2 now st /\
  res (channelOf (close id r1 (subscribe id r2 now st)) id) = Some r2.
Proof.
  intros Hne.
  assert (Hclose : close id r1 (subscribe id r2 now st) = subscribe id r2 now st).
  { unfold close, subscribe. cbn [channels]. rewrite lookup_insert_eq. cbn [res].
    destruct (decide (Some r2 = Some r1)) as [Heq | _]; [congruence | reflexivity]. }
  split; [exact Hclose |]. rewrite Hclose. unfold subscribe.
  rewrite channelOf_insert. reflexivity.
Qed.

Lemma X11_stale_close_keeps_subscriber_witness :
  res (channelOf (close "run1" 1 (subscribe "run1" 2 7 (subscribe "run1" 1 6 emptyRegistry)))
         "run1") = Some 2%nat.
Proof.
  exact (proj2 (X11_stale_close_keeps_subscriber "run1" 1 2 7
                  (subscribe "run1" 1 6 emptyRegistry) ltac:(lia))).
Defined.

Lemma received_write_other (r r' : nat) (evs : list SseEvent) (st : Registry)
    (c : gmap string Channel) :
  r <> r' ->
  received {| channels := c; written := write r evs (written st) |} r' = received st r'.
Proof.
  intros Hne. unfold received, write. cbn [written].
  rewrite lookup_insert_ne by exact Hne. reflexivity.
Qed.

(** X13: the registry is partitioned by id: an operation on one channel
    leaves every other channel as it was. *)
Theorem X13_operations_touch_one_channel (st : Registry) (op : Op) (id' : string) :
  opId op <> id' ->
  channels (applyOp st op) !! id' = channels st !! id'.
Proof.
  intros Hne. destruct op as [id text now | id now | id r0 now | id r0];
    cbn [applyOp opId] in *.
  - unfold progressSend. destruct id; [reflexivity |].
    destruct (res (channelOf st _)); cbn [channels];
      rewrite lookup_insert_ne by exact Hne; reflexivity.
  - unfold progressDone. cbn [channels]. rewrite lookup_delete_ne by exact Hne.
    reflexivity.
  - unfold subscribe. cbn [channels]. rewrite lookup_insert_ne by exact Hne. reflexivity.
  - unfold close. destruct (channels st !! id) as [ch|]; [| reflexivity].
    destruct (decide (res ch = Some r0)); [| reflexivity].
    cbn [channels]. rewrite lookup_insert_ne by exact Hne. reflexivity.
Qed.

Lemma X13_operations_touch_one_channel_witness :
  let st := sendAll "run1" ["a"] 5 emptyRegistry in
  channels (applyOp st (OpDone "run2" 6)) !! "run1" = channels st !! "run1".
Proof.
  intros st.
  exact (X13_operations_touch_one_channel st (OpDone "run2" 6) "run1" ltac:(discriminate)).
Defined.

(** X14: completion discards the channel and its buffer: the done marker
    goes to the live subscriber only, and a subscriber that comes after
    completion is replayed none of the earlier messages. *)
Theorem X14_done_discards_buffer (id : string) (now : Z) (st : Registry) :
  channels (progressDone id now st) !! id = None /\
  (forall r, res (channelOf st id) = Some r ->
             received (progressDone id now st) r = received st r ++ [Done now]) /\
  (res (channelOf st id) = None -> written (progressDone id now st) = written st) /\
  forall r now',
    messages (received (subscribe id r now' (progressDone id now st)) r) =
    messages (received st r).
Proof.
  assert (Hres : channels st !! id ≫= res = res (channelOf st id)).
  { unfold channelOf. destruct (channels st !! id); reflexivity. }
  assert (Hmsg : forall r, messages (received (progressDone id now st) r) =
                           messages (received st r)).
  { intros r. unfold progressDone. rewrite Hres.
    destruct (res (channelOf st id)) as [r0|]; [| reflexivity].
    destruct (decide (r0 = r)) as [-> | Hne].
    - rewrite received_write, messages_app. cbn. rewrite app_nil_r. reflexivity.
    - rewrite received_write_other by exact Hne. reflexivity. }
  split; [unfold progressDone; cbn [channels]; apply lookup_delete_eq |].
  split; [| split].
  - intros r Hr. unfold progressDone. rewrite Hres, Hr. apply received_write.
  - intros Hr. unfold progressDone. rewrite Hres, Hr. reflexivity.
  - intros r now'. unfold subscribe at 1. rewrite received_write, messages_app.
    rewrite messages_replay, Hmsg.
    assert (Hgone : channelOf (progressDone id now st) id = {| res := None; buffer := [] |}).
    { unfold channelOf, progressDone. cbn [channels]. rewrite lookup_delete_eq. reflexivity. }
    rewrite Hgone. cbn [buffer]. apply app_nil_r.
Qed.

(** X15: a replay does not consume the buffer: subscribing and
    disconnecting leave it as it was, so a second subscriber is replayed
    the same buffered messages as the first. *)
Theorem X15_replay_keeps_buffer (id : string) (r1 r2 : nat) (now1 now2 : Z)
    (st : Registry) :
  r1 <> r2 ->
  let st1 := close id r1 (subscribe id r1 now1 st) in
  buffer (channelOf st1 id) = buffer (channelOf st id) /\
  messages (received (subscribe id r1 now1 st) r1) =
    messages (received st r1) ++ buffer (channelOf st id) /\
  messages (received (subscribe id r2 now2 st1) r2) =
    messages (received st r2) ++ buffer (channelOf st id).
Proof.
  intros Hne st1.
  assert (Hst1 : st1 = {| channels := <[id := {| res := None;
                                               buffer := buffer (channelOf st id) |}]>
                                        (channels st);
                          written := written (subscribe id r1 now1 st) |}).
  { subst st1. unfold close, subscribe. cbn [channels]. rewrite lookup_insert_eq.
    cbn [res buffer written]. destruct (decide (Some r1 = Some r1)); [| congruence].
    rewrite insert_insert_eq. reflexivity. }
  assert (Hbuf : buffer (channelOf st1 id) = buffer (channelOf st id)).
  { rewrite Hst1, channelOf_insert. reflexivity. }
  split; [exact Hbuf |]. split.
  - unfold subscribe. rewrite received_write, messages_app, messages_replay. reflexivity.
  - unfold subscribe at 1. rewrite received_write, messages_app, messages_replay, Hbuf.
    f_equal. rewrite Hst1. unfold subscribe.
    unfold received. cbn [written]. unfold write.
    rewrite lookup_insert_ne by exact Hne. reflexivity.
Qed.

Lemma X15_replay_keeps_buffer_witness :
  let st := sendAll "run1" ["a"; "b"] 5 emptyRegistry in
  messages (received (subscribe "run1" 2 8 (close "run1" 1 (subscribe "run1" 1 6 st))) 2) =
  ["a"; "b"].
Proof.
  intros st.
  exact (proj2 (proj2 (X15_replay_keeps_buffer "run1" 1 2 6 8 st ltac:(lia)))).
Defined.

End RegistryFacts.

Section RegistryCases.

Import Progress SpecBuffer SpecProgress.

Lemma X14_done_discards_buffer_witness :
  let st := subscribe "run1" 1 6 (sendAll "run1" ["a"; "b"] 5 emptyRegistry) in
  received (progressDone "run1" 9 st) 1 = received st 1 ++ [Done 9] /\
  messages (received (subscribe "run1" 2 10 (progressDone "run1" 9 st)) 2) = [].
Proof.
  intros st.
  pose proof (X14_done_discards_buffer "run1" 9 st) as (_ & H1 & _ & H2).
  split; [exact (H1 1%nat eq_refl) | exact (H2 2%nat 10)].
Defined.

End RegistryCases.

(** ** The two collection paths: what is listed and what is kept *)

Section CollectPaths.

Import Analyze SpecCollect SpecEnrich.

Lemma keptOfBranch_length (env : Env) (req : Request) :
  (length (keptOfBranch env req) <= length (listCommits env (shaParam req)))%nat.
Proof.
  unfold keptOfBranch. destruct (includeMerges req); [lia |].
  apply (length_filter (fun c : Commit => negb (isMergeCommit c))).
Qed.

Lemma collectSingle_run (env : Env) (req : Request) (tr : list Call) :
  collectSingle env req tr =
  (JsArray.slice (keptOfBranch env req) 0
     (Z.min (maxCommits req) (Z.of_nat (length (listCommits env (shaParam req))))),
   tr ++ [CallListCommits (shaParam req)]).
Proof. reflexivity. Qed.

(** X16: the single-branch path makes one listing call, for the given
    branch or for main when none is given, and returns the first
    [maxCommits] commits of the filtered listing in the order of the
    listing: it does not sort, and counting the cap against the unfiltered
    length changes nothing. *)
Theorem X16_single_branch_prefix_of_listing (env : Env) (req : Request) (tr : list Call) :
  0 <= maxCommits req ->
  fst (collectSingle env req tr) =
    firstn (Z.to_nat (maxCommits req)) (keptOfBranch env req) /\
  snd (collectSingle env req tr) = tr ++ [CallListCommits (shaParam req)] /\
  (branch req = None \/ branch req = Some EmptyString -> shaParam req = "main").
Proof.
  intros Hmax. rewrite collectSingle_run. cbn [fst snd].
  split; [| split; [reflexivity |]].
  - pose proof (keptOfBranch_length env req) as Hlen.
    unfold JsArray.slice, JsArray.relativeIndex.
    set (k := keptOfBranch env req) in *.
    set (n := length (listCommits env (shaParam req))) in *.
    destruct (Z.ltb_spec 0 0) as [? | _]; [lia |].
    destruct (Z.ltb_spec (Z.min (maxCommits req) (Z.of_nat n)) 0) as [? | _]; [lia |].
    replace (Z.to_nat (Z.min 0 (Z.of_nat (length k)))) with 0%nat by lia.
    change (drop 0 k) with k.
    destruct (Z_le_gt_dec (maxCommits req) (Z.of_nat (length k))) as [Hle | Hgt].
    + f_equal. lia.
    + rewrite !take_ge by lia. reflexivity.
  - unfold shaParam. intros [-> | ->]; reflexivity.
Qed.

Lemma X16_single_branch_prefix_of_listing_witness :
  let env := Sample.env [("main", [Sample.m4; Sample.c3; Sample.c2; Sample.c1])] None in
  fst (collectSingle env (Sample.request "main" false 2) []) = [Sample.c3; Sample.c2].
Proof.
  intros env.
  exact (proj1 (X16_single_branch_prefix_of_listing env (Sample.request "main" false 2) []
                  ltac:(cbn; lia))).
Defined.

(** X17: a negative [maxCommits] on the single-branch path is an index from
    the end: the filtered listing is returned without its last
    [-maxCommits] commits. *)
Theorem X17_single_branch_negative_cap (env : Env) (req : Request) (tr : list Call) :
  maxCommits req < 0 ->
  fst (collectSingle env req tr) =
    firstn (length (keptOfBranch env req) - Z.to_nat (- maxCommits req))
      (keptOfBranch env req).
Proof.
  intros Hneg. rewrite collectSingle_run. cbn [fst].
  unfold JsArray.slice, JsArray.relativeIndex.
  set (k := keptOfBranch env req).
  set (n := length (listCommits env (shaParam req))).
  destruct (Z.ltb_spec 0 0) as [? | _]; [lia |].
  destruct (Z.ltb_spec (Z.min (maxCommits req) (Z.of_nat n)) 0) as [_ | ?]; [| lia].
  replace (Z.to_nat (Z.min 0 (Z.of_nat (length k)))) with 0%nat by lia.
  change (drop 0 k) with k. f_equal. lia.
Qed.

Lemma X17_single_branch_negative_cap_witness :
  let env := Sample.env [("main", [Sample.m4; Sample.c3; Sample.c2; Sample.c1])] None in
  fst (collectSingle env (Sample.request "main" true (-1)) []) =
  [Sample.m4; Sample.c3; Sample.c2].
Proof.
  intros env.
  exact (X17_single_branch_negative_cap env (Sample.request "main" true (-1)) []
           ltac:(cbn; lia)).
Defined.

Lemma branchLoop_cons (env : Env) (inc : bool) (max : Z) (b : string)
    (names : list string) (seen : list (string * Commit)) (tr : list Call) :
  branchLoop env inc max (b :: names) seen tr =
  if JsMap.size (commitLoop inc max (listCommits env b) seen) >=? max
  then (commitLoop inc max (listCommits env b) seen, tr ++ [CallListCommits b])
  else branchLoop env inc max names (commitLoop inc max (listCommits env b) seen)
         (tr ++ [CallListCommits b]).
Proof.
  cbn [branchLoop]. unfold bind, call, ret.
  destruct (JsMap.size (commitLoop inc max (listCommits env b) seen) >=? max);
    reflexivity.
Qed.

Lemma branchLoop_trace (env : Env) (inc : bool) (max : Z) (names : list string)
    (seen : list (string * Commit)) (tr : list Call) :
  exists k : nat,
    (k <= length names)%nat /\
    (names <> [] -> (1 <= k)%nat) /\
    snd (branchLoop env inc max names seen tr) =
      tr ++ map CallListCommits (firstn k names) /\
    ((k < length names)%nat ->
     max <= JsMap.size (fst (branchLoop env inc max names seen tr))).
Proof.
  revert seen tr. induction names as [|b names IH]; intros seen tr.
  - exists 0%nat. cbn. rewrite app_nil_r. repeat split; [lia | congruence | lia].
  - rewrite branchLoop_cons.
    destruct (JsMap.size (commitLoop inc max (listCommits env b) seen) >=? max) eqn:Hcap.
    + exists 1%nat. cbn [fst snd firstn take map length].
      repeat split; [lia | lia |].
      intros _. apply Z.geb_le in Hcap. exact Hcap.
    + destruct (IH (commitLoop inc max (listCommits env b) seen)
                  (tr ++ [CallListCommits b])) as (k & Hk & _ & Htr & Hstop).
      exists (S k). cbn [length firstn take map].
      repeat split; [lia | lia | |].
      * rewrite Htr, <- app_assoc. reflexivity.
      * intros Hlt. apply Hstop. lia.
Qed.

Lemma collectAny_snd (env : Env) (req : Request) (tr : list Call) :
  snd (collectAny env req tr) =
  snd (branchLoop env (includeMerges req) (maxCommits req) (listBranches env) []
         (tr ++ [CallListBranches])).
Proof.
  unfold collectAny, bind, call, ret.
  destruct (branchLoop _ _ _ _ _ _). reflexivity.
Qed.

Lemma collectAny_trace (env : Env) (req : Request) (tr : list Call) :
  exists k : nat,
    (k <= length (listBranches env))%nat /\
    (listBranches env <> [] -> (1 <= k)%nat) /\
    snd (collectAny env req tr) =
      tr ++ CallListBranches :: map CallListCommits (firstn k (listBranches env)) /\
    ((k < length (listBranches env))%nat ->
     maxCommits req <= Z.of_nat (length (fst (collectAny env req tr)))).
Proof.
  destruct (branchLoop_trace env (includeMerges req) (maxCommits req) (listBranches env) []
              (tr ++ [CallListBranches])) as (k & Hk & H1 & Htr & Hstop).
  exists k. split; [exact Hk |]. split; [exact H1 |]. split.
  - rewrite collectAny_snd, Htr, <- app_assoc. reflexivity.
  - intros Hlt. rewrite collectAny_fst.
    rewrite (Permutation_length (sort_Permutation byDateDesc _)).
    unfold JsMap.values. rewrite length_map. exact (Hstop Hlt).
Qed.

(** X18: the ANY path asks for the branches once and then lists the commits
    of the branches in enumeration order, at least of the first one; it
    leaves a branch unlisted only when the commits it has kept have reached
    [maxCommits]. *)
Theorem X18_any_path_lists_branches_until_cap (env : Env) (req : Request)
    (tr : list Call) :
  exists k : nat,
    (k <= length (listBranches env))%nat /\
    (listBranches env <> [] -> (1 <= k)%nat) /\
    snd (collectAny env req tr) =
      tr ++ CallListBranches :: map CallListCommits (firstn k (listBranches env)) /\
    ((k < length (listBranches env))%nat ->
     maxCommits req <= Z.of_nat (length (fst (collectAny env req tr)))).
Proof. exact (collectAny_trace env req tr). Qed.

End CollectPaths.

(** ** The enrichment loop

    The loop is left early by an exception of the counting statements. The
    collaborators answer every call here (see [Env]); a request that the
    hosting API or the model refuses would leave the loop in the same way,
    at the call. *)

Section EnrichFacts.

Import Json Analyze SpecCollect SpecEnrich Summarizer.

Lemma enrichLoop_nil (env : Env) (repo : string) (acc : Enriched) (tr : list Call) :
  enrichLoop env repo [] acc tr = (inl acc, tr).
Proof. reflexivity. Qed.

Lemma enrichLoop_cons (env : Env) (repo : string) (c : Commit) (rest : list Commit)
    (acc : Enriched) (tr : list Call) :
  enrichLoop env repo (c :: rest) acc tr =
  match countSummary (summaryOf env repo c) with
  | Some err => (inr err, tr ++ callsFor env repo c)
  | None =>
      enrichLoop env repo rest
        {| results :=
             results acc ++
             [{| e_sha := sha c;
                 e_date := orElse (author_date c) (committer_date c);
                 e_author :=
                   default "unknown" (orElse (author_name c) (committer_name c));
                 e_message := message c;
                 e_files := shapedFiles env c;
                 e_stats :=
                   (default 0 (detail_stats (getCommit env (sha c)) ≫= stats_additions),
                    default 0 (detail_stats (getCommit env (sha c)) ≫= stats_deletions));
                 e_ai := summaryOf env repo c |}];
           aggFiles := aggFiles acc + Z.of_nat (length (shapedFiles env c));
           aggAdd :=
             aggAdd acc +
             default 0 (detail_stats (getCommit env (sha c)) ≫= stats_additions);
           aggDel :=
             aggDel acc +
             default 0 (detail_stats (getCommit env (sha c)) ≫= stats_deletions) |}
        (tr ++ callsFor env repo c)
  end.
Proof.
  replace (tr ++ callsFor env repo c)
    with ((tr ++ [CallGetCommit (sha c)]) ++
          [CallResponsesCreate (modelRequest env repo c)])
    by (rewrite <- app_assoc; reflexivity).
  unfold summaryOf, modelRequest, shapedFiles.
  cbn [enrichLoop]. unfold summarizeCommit, createOpenAIResponse.
  unfold bind, call, ret. cbn beta iota zeta.
  destruct (countSummary _); reflexivity.
Qed.

Lemma enrichLoop_throw (env : Env) (repo : string) (c : Commit) (rest : list Commit)
    (acc : Enriched) (tr : list Call) (err : TypeError) :
  countSummary (summaryOf env repo c) = Some err ->
  enrichLoop env repo (c :: rest) acc tr = (inr err, tr ++ callsFor env repo c).
Proof.
  intros Herr. rewrite enrichLoop_cons, Herr. reflexivity.
Qed.

Lemma enrichLoop_push (env : Env) (repo : string) (c : Commit) (rest : list Commit)
    (acc : Enriched) (tr : list Call) :
  countSummary (summaryOf env repo c) = None ->
  exists r : EnrichedCommit,
    entryOf env repo c r /\
    enrichLoop env repo (c :: rest) acc tr =
    enrichLoop env repo rest
      {| results := results acc ++ [r];
         aggFiles := aggFiles acc + Z.of_nat (length (e_files r));
         aggAdd := aggAdd acc + fst (e_stats r);
         aggDel := aggDel acc + snd (e_stats r) |}
      (tr ++ callsFor env repo c).
Proof.
  intros Hok.
  exists {| e_sha := sha c;
            e_date := orElse (author_date c) (committer_date c);
            e_author := default "unknown" (orElse (author_name c) (committer_name c));
            e_message := message c;
            e_files := shapedFiles env c;
            e_stats :=
              (default 0 (detail_stats (getCommit env (sha c)) ≫= stats_additions),
               default 0 (detail_stats (getCommit env (sha c)) ≫= stats_deletions));
            e_ai := summaryOf env repo c |}.
  split; [unfold entryOf; cbn [e_sha e_message e_files e_ai]; auto |].
  rewrite enrichLoop_cons, Hok. reflexivity.
Qed.

(** The calls of the loop, whether it completes or not. *)
Lemma enrichLoop_calls (env : Env) (repo : string) (commits : list Commit)
    (acc : Enriched) (tr : list Call) :
  snd (enrichLoop env repo commits acc tr) =
  tr ++ flat_map (callsFor env repo) (reached env repo commits).
Proof.
  revert acc tr. induction commits as [|c rest IH]; intros acc tr.
  - cbn. rewrite app_nil_r. reflexivity.
  - cbn [reached]. destruct (countSummary (summaryOf env repo c)) as [err|] eqn:Hc.
    + rewrite (enrichLoop_throw env repo c rest acc tr err Hc).
      cbn [snd flat_map]. rewrite app_nil_r. reflexivity.
    + destruct (enrichLoop_push env repo c rest acc tr Hc) as (r & _ & ->).
      rewrite IH. cbn [flat_map]. rewrite <- app_assoc. reflexivity.
Qed.

(** A loop that completes. *)
Lemma enrichLoop_completed (env : Env) (repo : string) (commits : list Commit)
    (acc e : Enriched) (tr : list Call) :
  fst (enrichLoop env repo commits acc tr) = inl e ->
  reached env repo commits = commits /\
  exists news : list EnrichedCommit,
    results e = results acc ++ news /\
    Forall2 (entryOf env repo) commits news /\
    aggFiles e = aggFiles acc + sumZ (fun r => Z.of_nat (length (e_files r))) news /\
    aggAdd e = aggAdd acc + sumZ (fun r => fst (e_stats r)) news /\
    aggDel e = aggDel acc + sumZ (fun r => snd (e_stats r)) news.
Proof.
  revert acc tr. induction commits as [|c rest IH]; intros acc tr He.
  - rewrite enrichLoop_nil in He. cbn [fst] in He. injection He as <-.
    split; [reflexivity |]. exists []. cbn. rewrite app_nil_r, !Z.add_0_r.
    repeat split. constructor.
  - cbn [reached]. destruct (countSummary (summaryOf env repo c)) as [err|] eqn:Hc.
    + rewrite (enrichLoop_throw env repo c rest acc tr err Hc) in He. discriminate He.
    + destruct (enrichLoop_push env repo c rest acc tr Hc) as (r & Hr & Heq).
      rewrite Heq in He.
      destruct (IH _ _ He) as (Hreached & news & Hres & Hall & HF & HA & HD).
      cbn [results aggFiles aggAdd aggDel] in *.
      split; [rewrite Hreached; reflexivity |].
      exists (r :: news). rewrite Hres, HF, HA, HD.
      split; [rewrite <- app_assoc; reflexivity |].
      split; [constructor; assumption |].
      cbn [sumZ fold_right].
      fold (sumZ (fun r => Z.of_nat (length (e_files r))) news).
      fold (sumZ (fun r => fst (e_stats r)) news).
      fold (sumZ (fun r => snd (e_stats r)) news).
      repeat split; lia.
Qed.

(** A loop that throws. *)
Lemma enrichLoop_thrown (env : Env) (repo : string) (commits : list Commit)
    (acc : Enriched) (tr : list Call) (err : TypeError) :
  fst (enrichLoop env repo commits acc tr) = inr err ->
  exists (before : list Commit) (c : Commit) (after : list Commit),
    commits = before ++ c :: after /\
    Forall (fun c' => countSummary (summaryOf env repo c') = None) before /\
    countSummary (summaryOf env repo c) = Some err /\
    reached env repo commits = before ++ [c].
Proof.
  revert acc tr. induction commits as [|c rest IH]; intros acc tr He.
  - rewrite enrichLoop_nil in He. discriminate He.
  - cbn [reached]. destruct (countSummary (summaryOf env repo c)) as [err'|] eqn:Hc.
    + rewrite (enrichLoop_throw env repo c rest acc tr err' Hc) in He.
      cbn [fst] in He. injection He as ->.
      exists [], c, rest. repeat split; [constructor | exact Hc].
    + destruct (enrichLoop_push env repo c rest acc tr Hc) as (r & _ & Heq).
      rewrite Heq in He.
      destruct (IH _ _ He) as (before & c' & after & -> & Hbefore & Hc' & Hreached).
      exists (c :: before), c', after. rewrite Hreached.
      repeat split; [constructor; assumption | exact Hc'].
Qed.

Lemma collectAndEnrich_run (env : Env) (req : Request) (tr : list Call) :
  collectAndEnrich env req tr =
  let collected := collect env req tr in
  let enriched :=
    enrichLoop env (repoFull req) (fst collected)
      {| results := []; aggFiles := 0; aggAdd := 0; aggDel := 0 |} (snd collected) in
  ((fst collected, fst enriched), snd enriched).
Proof.
  unfold collectAndEnrich, bind, ret. cbn zeta.
  destruct (collect env req tr) as [commits tr1]. cbn [fst snd].
  destruct (enrichLoop _ _ _ _ _) as [e tr2]. reflexivity.
Qed.

(** X19: a loop that completes leaves one entry per collected commit, in
    the order of collection: entry [i] carries the sha and the message of
    commit [i], the files that the details of that commit list, and the
    summary made from the model's answer for that commit, on which the
    counting did not throw. A loop that does not complete has met a commit
    whose summary makes the counting throw, after commits whose summaries
    do not, and ends with the exception of that commit. *)
Theorem X19_one_result_per_commit (env : Env) (req : Request) (tr : list Call) :
  let commits := fst (collect env req tr) in
  let summary := summaryOf env (repoFull req) in
  fst (fst (collectAndEnrich env req tr)) = commits /\
  match snd (fst (collectAndEnrich env req tr)) with
  | inl e =>
      Forall2 (fun c r =>
                 e_sha r = sha c /\ e_message r = message c /\
                 e_files r = shapedFiles env c /\
                 e_ai r = summary c /\
                 countSummary (e_ai r) = None)
              commits (results e)
  | inr err =>
      exists (before : list Commit) (c : Commit) (after : list Commit),
        commits = before ++ c :: after /\
        Forall (fun c' => countSummary (summary c') = None) before /\
        countSummary (summary c) = Some err
  end.
Proof.
  cbn zeta. rewrite collectAndEnrich_run. cbn [fst snd]. split; [reflexivity |].
  destruct (fst (enrichLoop env (repoFull req) (fst (collect env req tr))
                   {| results := []; aggFiles := 0; aggAdd := 0; aggDel := 0 |}
                   (snd (collect env req tr)))) as [e | err] eqn:He.
  - destruct (enrichLoop_completed _ _ _ _ _ _ He) as (_ & news & Hres & Hall & _).
    cbn [results app] in Hres. rewrite Hres. exact Hall.
  - destruct (enrichLoop_thrown _ _ _ _ _ _ He)
      as (before & c & after & Hsplit & Hbefore & Hc & _).
    exists before, c, after. repeat split; assumption.
Qed.

(** X20: from the end of collection to the end of the enrichment loop the
    calls are, for every commit that the loop reaches, in order, one call
    for its details and then one call to the model. The loop reaches every
    collected commit when it completes, and the commits up to the one at
    which it throws otherwise: the commits after that one cost no call. *)
Theorem X20_two_calls_per_commit (env : Env) (req : Request) (tr : list Call) :
  let commits := fst (collect env req tr) in
  let met := reached env (repoFull req) commits in
  snd (collectAndEnrich env req tr) =
    snd (collect env req tr) ++ flat_map (callsFor env (repoFull req)) met /\
  match snd (fst (collectAndEnrich env req tr)) with
  | inl _ => met = commits
  | inr _ => exists c after, commits = met ++ after /\ last met = Some c /\
                             countSummary (summaryOf env (repoFull req) c) <> None
  end.
Proof.
  cbn zeta. rewrite collectAndEnrich_run. cbn [fst snd].
  split; [apply enrichLoop_calls |].
  destruct (fst (enrichLoop env (repoFull req) (fst (collect env req tr))
                   {| results := []; aggFiles := 0; aggAdd := 0; aggDel := 0 |}
                   (snd (collect env req tr)))) as [e | err] eqn:He.
  - exact (proj1 (enrichLoop_completed _ _ _ _ _ _ He)).
  - destruct (enrichLoop_thrown _ _ _ _ _ _ He)
      as (before & c & after & Hsplit & _ & Hc & Hreached).
    exists c, after. rewrite Hreached. split; [| split].
    + rewrite Hsplit, <- app_assoc. reflexivity.
    + apply last_snoc.
    + rewrite Hc. discriminate.
Qed.

(** X21: when the loop completes, the totals of the aggregate are the sums
    over the entries: files changed, lines added and lines deleted. *)
Theorem X21_totals_are_sums_over_results (env : Env) (req : Request) (tr : list Call)
    (e : Enriched) :
  snd (fst (collectAndEnrich env req tr)) = inl e ->
  aggFiles e = sumZ (fun r => Z.of_nat (length (e_files r))) (results e) /\
  aggAdd e = sumZ (fun r => fst (e_stats r)) (results e) /\
  aggDel e = sumZ (fun r => snd (e_stats r)) (results e).
Proof.
  rewrite collectAndEnrich_run. cbn [fst snd]. intros He.
  destruct (enrichLoop_completed _ _ _ _ _ _ He)
    as (_ & news & Hres & _ & HF & HA & HD).
  cbn [results aggFiles aggAdd aggDel app] in *.
  rewrite Hres, HF, HA, HD. repeat split; lia.
Qed.

Lemma X21_totals_are_sums_over_results_witness :
  let env := Sample.env [("main", [Sample.c3; Sample.c2; Sample.c1])] None in
  exists e,
    snd (fst (run (collectAndEnrich env (Sample.request "main" false 2)))) = inl e /\
    length (results e) = 2%nat /\
    aggFiles e = sumZ (fun r => Z.of_nat (length (e_files r))) (results e).
Proof.
  intros env. eexists. split; [reflexivity |]. split; [reflexivity |].
  exact (proj1 (X21_totals_are_sums_over_results env (Sample.request "main" false 2) []
                  _ eq_refl)).
Defined.

(** A model that answers [null]: the summary of the first commit parses,
    its counting throws, and the two later commits are not fetched. *)
Example enrichLoop_stops_at_null_summary :
  let env := Sample.env [("main", [Sample.c3; Sample.c2; Sample.c1])] (Some "null") in
  let out := run (collectAndEnrich env (Sample.request "main" false 5)) in
  fst (fst out) = [Sample.c3; Sample.c2; Sample.c1] /\
  snd (fst out) = inr NullSummary /\
  List.filter isDetailFetch (snd out) = [CallGetCommit "c3"] /\
  length (List.filter isModelCall (snd out)) = 1%nat.
Proof. repeat split; reflexivity. Qed.

(** Summaries on which the counting throws, and some on which it does
    not. *)
Example countSummary_cases :
  countSummary (JObj [("areas", JStr "api")]) = Some AreasNotArray /\
  countSummary (JObj [("areas", JNum "3")]) = Some AreasNotArray /\
  countSummary (JObj [("areas", JNum "0")]) = None /\
  countSummary (JObj [("areas", JStr EmptyString)]) = None /\
  countSummary (JObj [("areas", JArr [JNum "1"; JNull])]) = None /\
  countSummary (JObj [("risk", JObj [("toString", JNum "1")])]) = Some KeyConversion /\
  countSummary (JObj [("change_type", JArr [JObj []])]) = None /\
  countSummary (JObj []) = None /\
  countSummary (JArr []) = None /\
  countSummary (JNum "5") = None /\
  countSummary (JStr "fix") = None /\
  countSummary (JObj [("areas", JNum "5e-324")]) = Some AreasNotArray /\
  countSummary (JObj [("areas", JNum "1e-400")]) = None /\
  (forall files, countSummary (fallbackSummary files) = None).
Proof. repeat split; vm_compute; reflexivity. Qed.

Lemma collect_length_le (env : Env) (req : Request) (tr : list Call) :
  0 < maxCommits req ->
  Z.of_nat (length (fst (collect env req tr))) <= maxCommits req.
Proof.
  intros Hpos. destruct (collect_cases env req) as [-> | ->].
  - destruct (collectAny_prefix env req tr) as (n & -> & Hn).
    rewrite (Permutation_length (sort_Permutation byDateDesc _)).
    rewrite length_firstn, (Hn Hpos). lia.
  - rewrite collectSingle_run. cbn [fst].
    etransitivity; [apply slice_prefix_le; lia | lia].
Qed.

Lemma collect_calls_listing (env : Env) (req : Request) (tr : list Call) :
  exists calls : list Call,
    snd (collect env req tr) = tr ++ calls /\
    Forall (fun c => isListing c = true) calls.
Proof.
  destruct (collect_cases env req) as [-> | ->].
  - destruct (collectAny_trace env req tr) as (k & _ & _ & -> & _).
    eexists. split; [reflexivity |].
    constructor; [reflexivity |]. apply List.Forall_forall. intros c Hc.
    apply in_map_iff in Hc as (b & <- & _). reflexivity.
  - rewrite collectSingle_run. eexists. split; [reflexivity |].
    constructor; [reflexivity | constructor].
Qed.

Lemma count_flat_map_callsFor (p : Call -> bool) (env : Env) (repo : string)
    (commits : list Commit) :
  (forall c, length (List.filter p (callsFor env repo c)) = 1%nat) ->
  length (List.filter p (flat_map (callsFor env repo) commits)) = length commits.
Proof.
  intros Hone. induction commits as [|c rest IH]; [reflexivity |].
  cbn [flat_map]. rewrite List.filter_app, length_app, Hone, IH. reflexivity.
Qed.

Lemma count_listing_none (p : Call -> bool) (calls : list Call) :
  (forall c, isListing c = true -> p c = false) ->
  Forall (fun c => isListing c = true) calls ->
  List.filter p calls = [].
Proof.
  intros Hp Hall. induction Hall as [|c calls Hc _ IH]; [reflexivity |].
  cbn [List.filter]. rewrite (Hp c Hc). exact IH.
Qed.

Lemma reached_length_le (env : Env) (repo : string) (commits : list Commit) :
  (length (reached env repo commits) <= length commits)%nat.
Proof.
  induction commits as [|c rest IH]; [reflexivity |].
  cbn [reached]. destruct (countSummary (summaryOf env repo c)); cbn [length]; lia.
Qed.

(** X22: the cost of collection and enrichment is bounded by the cap: with
    a positive [maxCommits], up to the end of the enrichment loop the run
    fetches the details of at most [maxCommits] commits and asks the model
    for as many commit summaries, whether the loop completes or throws;
    when it completes, that number is the number of entries. *)
Theorem X22_calls_bounded_by_cap (env : Env) (req : Request) :
  0 < maxCommits req ->
  let out := run (collectAndEnrich env req) in
  let fetches := length (List.filter isDetailFetch (snd out)) in
  let summaries := length (List.filter isModelCall (snd out)) in
  summaries = fetches /\
  Z.of_nat fetches <= maxCommits req /\
  forall e, snd (fst out) = inl e -> fetches = length (results e).
Proof.
  intros Hpos. unfold run. cbn zeta.
  pose proof (collect_length_le env req [] Hpos) as Hlen.
  destruct (collect_calls_listing env req []) as (calls & Hcalls & Hlisting).
  pose proof (reached_length_le env (repoFull req) (fst (collect env req []))) as Hmet.
  rewrite collectAndEnrich_run. cbn [fst snd].
  rewrite enrichLoop_calls, Hcalls. cbn [app].
  rewrite !List.filter_app, !length_app.
  rewrite (count_listing_none isDetailFetch calls) by (try exact Hlisting; intros []; easy).
  rewrite (count_listing_none isModelCall calls) by (try exact Hlisting; intros []; easy).
  rewrite !count_flat_map_callsFor by reflexivity.
  cbn [length]. split; [reflexivity |]. split; [lia |].
  intros e He.
  destruct (enrichLoop_completed _ _ _ _ _ _ He) as (-> & news & Hres & Hall & _).
  cbn [results app] in Hres. rewrite Hres. exact (Forall2_length _ _ _ Hall).
Qed.

Lemma X22_calls_bounded_by_cap_witness :
  let env := Sample.env [("main", [Sample.c3; Sample.c2; Sample.c1])] None in
  let out := run (collectAndEnrich env (Sample.request "main" false 2)) in
  Z.of_nat (length (List.filter isDetailFetch (snd out))) <= 2.
Proof.
  intros env.
  exact (proj1 (proj2 (X22_calls_bounded_by_cap env (Sample.request "main" false 2)
                         ltac:(cbn; lia)))).
Defined.

End EnrichFacts.

(** ** The model's text: period rollup and padding *)

Section ModelTextFacts.

Import Json Summarizer SpecRepo.

Lemma trim_spaces (t : string) :
  allChars JsString.isSpace t = true -> JsString.trim t = EmptyString.
Proof.
  intros H. unfold JsString.trim. rewrite (trimStart_spaces t H). reflexivity.
Qed.

Lemma periodSummary_run (env : Env) (periodPrompt : string) (tr : list Call) :
  periodSummary env periodPrompt tr =
  let opts :=
    OpenAI.createOpenAIResponse_opts (OpenAI.OPENAI_MODEL (env_OPENAI_MODEL env))
      periodPrompt in
  (match responseText (responses_create env opts) with
   | EmptyString => noContent
   | t => t
   end, tr ++ [CallResponsesCreate opts]).
Proof. reflexivity. Qed.

(** X23: the period summary is never empty: the rollup makes one call to
    the model, and when the response has no text, or only white space, the
    summary is the placeholder document. *)
Theorem X23_period_summary_never_empty (env : Env) (periodPrompt : string)
    (tr : list Call) :
  let opts :=
    OpenAI.createOpenAIResponse_opts (OpenAI.OPENAI_MODEL (env_OPENAI_MODEL env))
      periodPrompt in
  let out := periodSummary env periodPrompt tr in
  fst out <> EmptyString /\
  snd out = tr ++ [CallResponsesCreate opts] /\
  (responses_create env opts = None -> fst out = noContent) /\
  (forall t, responses_create env opts = Some t ->
             allChars JsString.isSpace t = true -> fst out = noContent).
Proof.
  cbn zeta. rewrite periodSummary_run. cbn [fst snd].
  split; [| split; [reflexivity | split]].
  - destruct (responseText _); [unfold noContent |]; discriminate.
  - intros ->. reflexivity.
  - intros t -> Ht. cbn [responseText]. rewrite (trim_spaces t Ht). reflexivity.
Qed.

(** X24: white space around the model's answer does not change the summary
    of a commit. *)
Theorem X24_summary_ignores_padding (pad1 t pad2 : string) (files : list FileChange) :
  allChars JsString.isSpace pad1 = true ->
  allChars JsString.isSpace pad2 = true ->
  parseOrFallback (Some (pad1 +:+ t +:+ pad2)) files = parseOrFallback (Some t) files.
Proof.
  intros H1 H2. unfold parseOrFallback, responseText.
  rewrite (trim_pad pad1 t pad2 H1 H2). reflexivity.
Qed.

Lemma X24_summary_ignores_padding_witness :
  parseOrFallback (Some (" " +:+ "[1]" +:+ String "010"%char " ")) [] =
  parseOrFallback (Some "[1]") [].
Proof.
  exact (X24_summary_ignores_padding " " "[1]" (String "010"%char " ") []
           eq_refl eq_refl).
Defined.

End ModelTextFacts.

(** ** The area counter *)

Section AreaCounter.

Import Aggregator SpecAreas.

(** X25: the area counter is the frequency table of the tags: after the
    loop it holds, for each tag that some commit carries, the number of
    times the tag was given, which is at least one, and nothing for any
    other text. *)
Theorem X25_area_counter_is_frequency (commitAreas : list (list string)) (t : string) :
  let tags := concat commitAreas in
  JsMap.get (areaCountsOf commitAreas) t =
    (if bool_decide (t ∈ tags) then Some (frequency tags t) else None) /\
  forall n, JsMap.get (areaCountsOf commitAreas) t = Some n -> 1 <= n.
Proof.
  cbn zeta.
  assert (Hget : JsMap.get (areaCountsOf commitAreas) t =
                 if bool_decide (t ∈ concat commitAreas)
                 then Some (frequency (concat commitAreas) t) else None).
  { rewrite areaCountsOf_concat.
    destruct (countAreas_tabulate (concat commitAreas)) as (ks & -> & _ & Hmem & _).
    destruct (bool_decide_reflect (t ∈ concat commitAreas)) as [Hin | Hout].
    - apply get_tabulate, Hmem, Hin.
    - apply get_None_iff. rewrite keys_tabulate, Hmem. exact Hout. }
  split; [exact Hget |].
  intros n. rewrite Hget.
  destruct (bool_decide_reflect (t ∈ concat commitAreas)) as [Hin | Hout];
    [| discriminate].
  intros [= <-]. unfold frequency.
  apply list_elem_of_In, (count_occ_In String.string_dec) in Hin. lia.
Qed.

End AreaCounter.

(** ** The entry of the analysis handler *)

Section HandlerFacts.

Import Progress RepoRef Handler.

Lemma progressSend_attached (id text : string) (now : Z) (st : Registry) (r : nat) :
  id <> EmptyString -> res (channelOf st id) = Some r ->
  progressSend id text now st =
  {| channels := <[id := channelOf st id]> (channels st);
     written := write r [Data now text] (written st) |}.
Proof.
  intros Hid Hres. unfold progressSend. destruct id as [|c id]; [congruence |].
  rewrite Hres. reflexivity.
Qed.

Lemma enter_fields (body : Body) (repo_ since_ until_ : string) (t1 t2 t3 : Z)
    (st : Registry) :
  truthy (repo body) = Some repo_ ->
  truthy (since body) = Some since_ ->
  truthy (until body) = Some until_ ->
  enter body t1 t2 t3 st =
  let st1 := progress (requestId body) (startingMessage repo_ since_ until_) t1 st in
  match parseRepo repo_ with
  | inl r => (Parsed r, st1)
  | inr message =>
      (Rejected 500 message,
       done (requestId body) t3 (progress (requestId body) ("Error: " +:+ message) t2 st1))
  end.
Proof. intros H1 H2 H3. unfold enter. rewrite H1, H2, H3. reflexivity. Qed.

(** X26: a request that lacks the repo, the start or the end of the window
    is answered with status 400 before anything is sent on the progress
    channel: the registry is left as it was, and no done marker is sent. *)
Theorem X26_missing_field_rejected_silently (body : Body) (t1 t2 t3 : Z)
    (st : Registry) :
  truthy (repo body) = None \/ truthy (since body) = None \/ truthy (until body) = None ->
  enter body t1 t2 t3 st = (Rejected 400 fieldsRequired, st).
Proof.
  intros H. unfold enter.
  destruct (truthy (repo body)); [| reflexivity].
  destruct (truthy (since body)); [| reflexivity].
  destruct (truthy (until body)); [| reflexivity].
  destruct H as [H | [H | H]]; discriminate.
Qed.

Lemma X26_missing_field_rejected_silently_witness :
  let body := {| repo := Some "octo/demo"; since := Some EmptyString;
                 until := Some "2024-02-01"; requestId := Some "run1" |} in
  let st := subscribe "run1" 1 5 emptyRegistry in
  enter body 6 7 8 st = (Rejected 400 fieldsRequired, st).
Proof.
  intros body st.
  exact (X26_missing_field_rejected_silently body 6 7 8 st (or_intror (or_introl eq_refl))).
Defined.

(** X27: a repo reference that cannot be parsed is answered with status
    500 and the parser's message; the channel of the run is removed, and a
    subscriber that listens has received the starting message, the error
    message and the done marker, in this order. *)
Theorem X27_bad_repo_reported_and_closed (body : Body) (repo_ since_ until_ id : string)
    (message : string) (t1 t2 t3 : Z) (st : Registry) :
  truthy (repo body) = Some repo_ ->
  truthy (since body) = Some since_ ->
  truthy (until body) = Some until_ ->
  requestId body = Some id ->
  parseRepo repo_ = inr message ->
  let out := enter body t1 t2 t3 st in
  fst out = Rejected 500 message /\
  channels (snd out) !! id = None /\
  forall r, id <> EmptyString -> res (channelOf st id) = Some r ->
    received (snd out) r =
    received st r ++ [Data t1 (startingMessage repo_ since_ until_);
                      Data t2 ("Error: " +:+ message);
                      Done t3].
Proof.
  intros H1 H2 H3 Hid Hparse. cbn zeta.
  rewrite (enter_fields body repo_ since_ until_ t1 t2 t3 st H1 H2 H3).
  cbn zeta. rewrite Hparse, Hid. cbn [fst snd done progress default].
  split; [reflexivity |]. split.
  - unfold progressDone. cbn [channels]. apply lookup_delete_eq.
  - intros r Hne Hres. unfold progress. change (default EmptyString (Some id)) with id.
    rewrite (progressSend_attached id _ t1 st r Hne Hres).
    set (st1 := {| channels := <[id := channelOf st id]> (channels st);
                   written := write r [Data t1 (startingMessage repo_ since_ until_)]
                                (written st) |}).
    assert (Hres1 : res (channelOf st1 id) = Some r).
    { unfold st1. rewrite channelOf_insert. exact Hres. }
    rewrite (progressSend_attached id _ t2 st1 r Hne Hres1).
    unfold progressDone. cbn [channels]. rewrite lookup_insert_eq.
    cbn [mbind option_bind]. rewrite Hres1.
    rewrite received_write. cbn [written]. rewrite received_write.
    unfold st1. rewrite received_write, <- !app_assoc. reflexivity.
Qed.

Lemma X27_bad_repo_reported_and_closed_witness :
  let body := {| repo := Some "nonsense"; since := Some "2024-01-01";
                 until := Some "2024-02-01"; requestId := Some "run1" |} in
  let out := enter body 6 7 8 (subscribe "run1" 1 5 emptyRegistry) in
  fst out = Rejected 500 invalidRepoFormat /\
  channels (snd out) !! "run1" = None.
Proof.
  intros body.
  pose proof (X27_bad_repo_reported_and_closed body "nonsense" "2024-01-01" "2024-02-01"
                "run1" invalidRepoFormat 6 7 8 (subscribe "run1" 1 5 emptyRegistry)
                eq_refl eq_refl eq_refl eq_refl ltac:(vm_compute; reflexivity))
    as (H1 & H2 & _).
  split; [exact H1 | exact H2].
Defined.

(** X28: progress reporting is optional: for a request without request id
    the entry of the handler leaves the registry as it was on every path. *)
Theorem X28_no_request_id_no_progress (body : Body) (t1 t2 t3 : Z) (st : Registry) :
  requestId body = None ->
  snd (enter body t1 t2 t3 st) = st.
Proof.
  intros Hid. unfold enter. rewrite Hid.
  destruct (truthy (repo body)) as [repo_|]; [| reflexivity].
  destruct (truthy (since body)) as [since_|]; [| reflexivity].
  destruct (truthy (until body)) as [until_|]; [| reflexivity].
  destruct (parseRepo repo_); reflexivity.
Qed.

Lemma X28_no_request_id_no_progress_witness :
  let body := {| repo := Some "octo/demo"; since := Some "2024-01-01";
                 until := Some "2024-02-01"; requestId := None |} in
  let st := subscribe "run1" 1 5 emptyRegistry in
  snd (enter body 6 7 8 st) = st.
Proof.
  intros body st.
  exact (X28_no_request_id_no_progress body 6 7 8 st eq_refl).
Defined.

End HandlerFacts.
